(** * AsyncStream: a shallow embedding of [src/index.ts]

    The class [AsyncStream] wraps an async iterator and offers combinators
    ([pack], [repack], [flat], [filter], [skip], [take], [takeLast]) that
    build a new async generator around the receiver, and terminal
    operations ([collect]) that drive a stream to exhaustion.

    Streams and generators are mutable objects that are shared by
    reference: a combinator stage keeps a reference [self] to the stream
    it was called on, and every pull on the stage advances that very
    object.  They are therefore modelled as objects in a store, addressed
    by reference; a generator object holds the frame of its suspended
    body (captured variables, live locals and the [yield] it is parked
    at).  Every [await] is taken by a single consumer, one at a time, so
    a request runs to its settlement before the next one starts.

    A generator body may loop for as long as its upstream keeps yielding,
    so the interpreter takes a fuel argument and answers [None] when the
    fuel runs out. *)

From Stdlib Require Import QArith Qround ZArith Lia.
From stdpp Require Import base option list strings.

Set Warnings "-register-all".
Open Scope nat_scope.

(** ** JavaScript numbers

    The combinators only compare their numeric argument with array
    lengths and with [0].  IEEE comparison of finite doubles is the
    comparison of the rationals they denote, so a finite number is
    represented by a rational. *)

Inductive number : Type :=
| NaN
| NegInfinity
| PosInfinity
| Finite (q : Q).

Definition number_of_nat (n : nat) : number := Finite (inject_Z (Z.of_nat n)).

(** [a < b] *)
Definition num_lt (a b : number) : bool :=
  match a, b with
  | NaN, _ | _, NaN => false
  | _, NegInfinity => false
  | NegInfinity, _ => true
  | PosInfinity, _ => false
  | Finite _, PosInfinity => true
  | Finite x, Finite y => negb (Qle_bool y x)
  end.

(** [a <= b] *)
Definition num_le (a b : number) : bool :=
  match a, b with
  | NaN, _ | _, NaN => false
  | NegInfinity, _ => true
  | _, PosInfinity => true
  | _, NegInfinity => false
  | PosInfinity, _ => false
  | Finite x, Finite y => Qle_bool x y
  end.

(** [a === b] on numbers *)
Definition num_eq (a b : number) : bool :=
  match a, b with
  | NegInfinity, NegInfinity => true
  | PosInfinity, PosInfinity => true
  | Finite x, Finite y => Qeq_bool x y
  | _, _ => false
  end.

(** Truncation toward zero of a rational ([ToIntegerOrInfinity] on a
    finite number). *)
Definition Qtrunc (q : Q) : Z :=
  if Qle_bool 0 q then Qfloor q else Qceiling q.

(** The index [Array.prototype.slice] derives from a numeric argument for
    an array of length [len]: truncate, count negative values from the
    end, clamp to [0..len]. *)
Definition slice_index (x : number) (len : nat) : nat :=
  match x with
  | NaN | NegInfinity => 0
  | PosInfinity => len
  | Finite q =>
      let z := Qtrunc q in
      if (z <? 0)%Z then Z.to_nat (Z.max (Z.of_nat len + z) 0)
      else Z.to_nat (Z.min z (Z.of_nat len))
  end.

(** ** Values, errors, iterator results *)

Inductive JSValue : Type :=
| VUndefined
| VBoolean (b : bool)
| VNumber (x : number)
| VString (s : string)
| VArray (items : list JSValue).

(** [Array.isArray] *)
Definition isArray (v : JSValue) : bool :=
  match v with VArray _ => true | _ => false end.

(** The coercion applied by [if (...)]. *)
Definition truthy (v : JSValue) : bool :=
  match v with
  | VUndefined => false
  | VBoolean b => b
  | VNumber NaN => false
  | VNumber (Finite q) => negb (Qeq_bool q 0)
  | VNumber _ => true
  | VString EmptyString => false
  | VString _ => true
  | VArray _ => true
  end.

Inductive exn : Type :=
| RangeError (message : string)
| TypeError (message : string)
| UserError (reason : JSValue).

Inductive completion (A : Type) : Type :=
| Normal (a : A)
| Throw (e : exn).
Arguments Normal {A} a.
Arguments Throw {A} e.

Record IteratorResult : Type := { done : bool; value : JSValue }.

Definition yielded (v : JSValue) : IteratorResult := {| done := false; value := v |}.
Definition finished (v : JSValue) : IteratorResult := {| done := true; value := v |}.

(** ** Objects *)

Definition ref := nat.

Inductive pack_point := PackStart | PackYieldFull | PackYieldRest.
Inductive repack_point := RepackStart | RepackYieldFull | RepackYieldRest.
Inductive flat_point := FlatStart | FlatYield (rest : list JSValue).
Inductive filter_point := FilterStart | FilterYield (index : nat).
Inductive skip_point := SkipStart | SkipYield.
Inductive take_point := TakeStart | TakeYield (count : nat).
Inductive takeLast_point := TakeLastStart | TakeLastYield (rest : list JSValue).

(** The frame of a suspended async generator: the variables its body
    captured, the point it is suspended at, and the locals that are still
    live there.  [SourceGen] is the generator the test-suite builds its
    streams from ([getGenerator(returns)]: [for (const item of returns)
    yield item]); it holds the items not yet yielded. *)
Inductive generator : Type :=
| Completed
| SourceGen (returns : list JSValue)
| PackGen (self : ref) (packageSize : number) (at_ : pack_point)
| RepackGen (self : ref) (packageSize : number) (at_ : repack_point)
    (buffer : list JSValue)
| FlatGen (self : ref) (at_ : flat_point)
| FilterGen (self : ref) (predicate : JSValue -> nat -> completion JSValue)
    (at_ : filter_point)
| SkipGen (self : ref) (n : number) (at_ : skip_point)
| TakeGen (self : ref) (n : number) (at_ : take_point)
| TakeLastGen (self : ref) (n : number) (at_ : takeLast_point).

Inductive object : Type :=
| Stream (iter : ref)          (* an [AsyncStream] and its [#iter] *)
| Generator (g : generator).

(** What an observer of the run sees besides the results: every call of
    [AsyncStream.next] (with the stream it was made on) and every call of
    a user callback (with its two arguments). *)
Inductive event : Type :=
| Pull (stream : ref)
| Call (item : JSValue) (index : nat).

Record world : Type := { heap : list object; trace : list event }.

Definition empty_world : world := {| heap := []; trace := [] |}.

Definition alloc (o : object) (w : world) : ref * world :=
  (length (heap w), {| heap := heap w ++ [o]; trace := trace w |}).

Definition store (r : ref) (o : object) (w : world) : world :=
  {| heap := <[r := o]> (heap w); trace := trace w |}.

(** The trace is kept newest first. *)
Definition log (e : event) (w : world) : world :=
  {| heap := heap w; trace := e :: trace w |}.

(** ** Requests to an iterator *)

Inductive request : Type :=
| Next
| Return (v : JSValue).

Definition settled : Type := completion IteratorResult * world.

(** The way a stage reaches its upstream: [self.next()] and
    [self.return()]. *)
Definition caller : Type := world -> ref -> request -> option settled.

(** How a resumed generator body stops. *)
Inductive stop : Type :=
| Yield (v : JSValue) (g : generator)   (* parked at a [yield] *)
| Finish (v : JSValue)                  (* body returned *)
| Raise (e : exn).                      (* body threw *)

Definition stopped : Type := stop * world.

(** Leaving the body of [for await (... of self)] by a [throw]: the loop
    calls [self.return()], awaits it, and rethrows the original error
    whatever the call answered. *)
Definition close_throw (call : caller) (self : ref) (e : exn) (w : world)
  : option stopped :=
  match call w self (Return VUndefined) with
  | None => None
  | Some (_, w') => Some (Raise e, w')
  end.

(** Leaving it by a [return] (the consumer called [return(v)] on a stage
    parked inside the loop): the loop calls [self.return()]; a failure of
    that call replaces the return. *)
Definition close_return (call : caller) (self : ref) (v : JSValue) (w : world)
  : option stopped :=
  match call w self (Return VUndefined) with
  | None => None
  | Some (Throw e, w') => Some (Raise e, w')
  | Some (Normal _, w') => Some (Finish v, w')
  end.

(** ** Generator bodies

    Each function below runs one body from the point it is resumed at
    until it stops again.  [call] is how the body reaches [self]; [fuel]
    bounds the number of turns of its loop. *)

Section Bodies.
Variable call : caller.

(** [getGenerator(returns)] of the test-suite. *)
Definition source_resume (returns : list JSValue) (req : request) (w : world)
  : option stopped :=
  match req with
  | Return v => Some (Finish v, w)
  | Next =>
      match returns with
      | [] => Some (Finish VUndefined, w)
      | item :: returns' => Some (Yield item (SourceGen returns'), w)
      end
  end.

(** [pack]: the [for await] loop and the test that follows it. *)
Fixpoint pack_loop (fuel : nat) (self : ref) (packageSize : number)
    (buffer : list JSValue) (w : world) : option stopped :=
  match fuel with
  | 0 => None
  | S fuel =>
      match call w self Next with
      | None => None
      | Some (Throw e, w) => Some (Raise e, w)
      | Some (Normal r, w) =>
          if done r then
            if 0 <? length buffer
            then Some (Yield (VArray buffer)
                         (PackGen self packageSize PackYieldRest), w)
            else Some (Finish VUndefined, w)
          else
            let buffer := buffer ++ [value r] in
            if num_eq (number_of_nat (length buffer)) packageSize
            then Some (Yield (VArray buffer)
                         (PackGen self packageSize PackYieldFull), w)
            else pack_loop fuel self packageSize buffer w
      end
  end.

Definition pack_resume (fuel : nat) (self : ref) (packageSize : number)
    (at_ : pack_point) (req : request) (w : world) : option stopped :=
  match req, at_ with
  | Next, PackStart => pack_loop fuel self packageSize [] w
  | Next, PackYieldFull => pack_loop fuel self packageSize [] w
  | Next, PackYieldRest => Some (Finish VUndefined, w)
  | Return v, PackYieldFull => close_return call self v w
  | Return v, _ => Some (Finish v, w)
  end.

(** [repack]: the inner [while] yields as soon as its test holds, so one
    turn of it is a test. *)
Definition repack_while (self : ref) (packageSize : number)
    (buffer : list JSValue) : option stop :=
  if num_le packageSize (number_of_nat (length buffer))
  then Some (Yield (VArray (firstn (slice_index packageSize (length buffer)) buffer))
               (RepackGen self packageSize RepackYieldFull buffer))
  else None.

Fixpoint repack_loop (fuel : nat) (self : ref) (packageSize : number)
    (buffer : list JSValue) (w : world) : option stopped :=
  match fuel with
  | 0 => None
  | S fuel =>
      match call w self Next with
      | None => None
      | Some (Throw e, w) => Some (Raise e, w)
      | Some (Normal r, w) =>
          if done r then
            if 0 <? length buffer
            then Some (Yield (VArray buffer)
                         (RepackGen self packageSize RepackYieldRest buffer), w)
            else Some (Finish VUndefined, w)
          else
            match value r with
            | VArray page =>
                let buffer := buffer ++ page in
                match repack_while self packageSize buffer with
                | Some s => Some (s, w)
                | None => repack_loop fuel self packageSize buffer w
                end
            | _ =>
                close_throw call self
                  (TypeError "Input async generator must yield arrays for repack.") w
            end
      end
  end.

Definition repack_resume (fuel : nat) (self : ref) (packageSize : number)
    (at_ : repack_point) (buffer : list JSValue) (req : request) (w : world)
  : option stopped :=
  match req, at_ with
  | Next, RepackStart => repack_loop fuel self packageSize [] w
  | Next, RepackYieldFull =>
      let buffer := skipn (slice_index packageSize (length buffer)) buffer in
      match repack_while self packageSize buffer with
      | Some s => Some (s, w)
      | None => repack_loop fuel self packageSize buffer w
      end
  | Next, RepackYieldRest => Some (Finish VUndefined, w)
  | Return v, RepackYieldFull => close_return call self v w
  | Return v, _ => Some (Finish v, w)
  end.

(** [flat] *)
Fixpoint flat_loop (fuel : nat) (self : ref) (w : world) : option stopped :=
  match fuel with
  | 0 => None
  | S fuel =>
      match call w self Next with
      | None => None
      | Some (Throw e, w) => Some (Raise e, w)
      | Some (Normal r, w) =>
          if done r then Some (Finish VUndefined, w)
          else
            match value r with
            | VArray [] => flat_loop fuel self w
            | VArray (item :: page) =>
                Some (Yield item (FlatGen self (FlatYield page)), w)
            | _ =>
                close_throw call self
                  (TypeError "Input async generator must yield arrays for flattening.") w
            end
      end
  end.

Definition flat_resume (fuel : nat) (self : ref) (at_ : flat_point)
    (req : request) (w : world) : option stopped :=
  match req, at_ with
  | Next, FlatStart => flat_loop fuel self w
  | Next, FlatYield (item :: page) =>
      Some (Yield item (FlatGen self (FlatYield page)), w)
  | Next, FlatYield [] => flat_loop fuel self w
  | Return v, FlatStart => Some (Finish v, w)
  | Return v, FlatYield _ => close_return call self v w
  end.

(** [filter] *)
Fixpoint filter_loop (fuel : nat) (self : ref)
    (predicate : JSValue -> nat -> completion JSValue) (index : nat)
    (w : world) : option stopped :=
  match fuel with
  | 0 => None
  | S fuel =>
      match call w self Next with
      | None => None
      | Some (Throw e, w) => Some (Raise e, w)
      | Some (Normal r, w) =>
          if done r then Some (Finish VUndefined, w)
          else
            let item := value r in
            let w := log (Call item index) w in
            match predicate item index with
            | Throw e => close_throw call self e w
            | Normal b =>
                if truthy b
                then Some (Yield item
                             (FilterGen self predicate (FilterYield index)), w)
                else filter_loop fuel self predicate (S index) w
            end
      end
  end.

Definition filter_resume (fuel : nat) (self : ref)
    (predicate : JSValue -> nat -> completion JSValue) (at_ : filter_point)
    (req : request) (w : world) : option stopped :=
  match req, at_ with
  | Next, FilterStart => filter_loop fuel self predicate 0 w
  | Next, FilterYield index => filter_loop fuel self predicate (S index) w
  | Return v, FilterStart => Some (Finish v, w)
  | Return v, FilterYield _ => close_return call self v w
  end.

(** [skip]: the trailing [for await] hands on one item per resumption. *)
Definition skip_pass (self : ref) (n : number) (w : world) : option stopped :=
  match call w self Next with
  | None => None
  | Some (Throw e, w) => Some (Raise e, w)
  | Some (Normal r, w) =>
      if done r then Some (Finish VUndefined, w)
      else Some (Yield (value r) (SkipGen self n SkipYield), w)
  end.

Fixpoint skip_loop (fuel : nat) (self : ref) (n : number) (count : nat)
    (w : world) : option stopped :=
  match fuel with
  | 0 => None
  | S fuel =>
      if num_lt (number_of_nat count) n then
        match call w self Next with
        | None => None
        | Some (Throw e, w) => Some (Raise e, w)
        | Some (Normal r, w) =>
            if done r then Some (Finish VUndefined, w)
            else skip_loop fuel self n (S count) w
        end
      else skip_pass self n w
  end.

Definition skip_resume (fuel : nat) (self : ref) (n : number)
    (at_ : skip_point) (req : request) (w : world) : option stopped :=
  match req, at_ with
  | Next, SkipStart =>
      if num_lt (number_of_nat 0) n then skip_loop fuel self n 0 w
      else skip_pass self n w
  | Next, SkipYield => skip_pass self n w
  | Return v, SkipStart => Some (Finish v, w)
  | Return v, SkipYield => close_return call self v w
  end.

(** [take]: a plain [for] around [self.next()], one turn per
    resumption. *)
Definition take_turn (self : ref) (n : number) (count : nat) (w : world)
  : option stopped :=
  if num_lt (number_of_nat count) n then
    match call w self Next with
    | None => None
    | Some (Throw e, w) => Some (Raise e, w)
    | Some (Normal r, w) =>
        if done r then Some (Finish VUndefined, w)
        else Some (Yield (value r) (TakeGen self n (TakeYield count)), w)
    end
  else Some (Finish VUndefined, w).

Definition take_resume (self : ref) (n : number) (at_ : take_point)
    (req : request) (w : world) : option stopped :=
  match req, at_ with
  | Next, TakeStart => take_turn self n 0 w
  | Next, TakeYield count => take_turn self n (S count) w
  | Return v, _ => Some (Finish v, w)
  end.

(** [takeLast] *)
Definition takeLast_emit (self : ref) (n : number) (results : list JSValue)
  : stop :=
  match results with
  | [] => Finish VUndefined
  | item :: results' => Yield item (TakeLastGen self n (TakeLastYield results'))
  end.

Fixpoint takeLast_loop (fuel : nat) (self : ref) (n : number)
    (results : list JSValue) (w : world) : option stopped :=
  match fuel with
  | 0 => None
  | S fuel =>
      match call w self Next with
      | None => None
      | Some (Throw e, w) => Some (Raise e, w)
      | Some (Normal r, w) =>
          if done r then Some (takeLast_emit self n results, w)
          else
            let results := results ++ [value r] in
            let results :=
              if num_lt n (number_of_nat (length results))
              then tail results else results in
            takeLast_loop fuel self n results w
      end
  end.

Definition takeLast_resume (fuel : nat) (self : ref) (n : number)
    (at_ : takeLast_point) (req : request) (w : world) : option stopped :=
  match req, at_ with
  | Next, TakeLastStart => takeLast_loop fuel self n [] w
  | Next, TakeLastYield results => Some (takeLast_emit self n results, w)
  | Return v, _ => Some (Finish v, w)
  end.

(** Resuming a generator object with a request. *)
Definition resume (fuel : nat) (g : generator) (req : request) (w : world)
  : option stopped :=
  match g with
  | Completed =>
      match req with
      | Next => Some (Finish VUndefined, w)
      | Return v => Some (Finish v, w)
      end
  | SourceGen returns => source_resume returns req w
  | PackGen self packageSize at_ => pack_resume fuel self packageSize at_ req w
  | RepackGen self packageSize at_ buffer =>
      repack_resume fuel self packageSize at_ buffer req w
  | FlatGen self at_ => flat_resume fuel self at_ req w
  | FilterGen self predicate at_ => filter_resume fuel self predicate at_ req w
  | SkipGen self n at_ => skip_resume fuel self n at_ req w
  | TakeGen self n at_ => take_resume self n at_ req w
  | TakeLastGen self n at_ => takeLast_resume fuel self n at_ req w
  end.
End Bodies.

(** The generator object at [r] takes the state its body stopped in, and
    the request is settled accordingly. *)
Definition settle (r : ref) (s : stop) (w : world) : settled :=
  match s with
  | Yield v g => (Normal (yielded v), store r (Generator g) w)
  | Finish v => (Normal (finished v), store r (Generator Completed) w)
  | Raise e => (Throw e, store r (Generator Completed) w)
  end.

(** ** Requests on objects

    [AsyncStream.next] and [AsyncStream.return] forward to [#iter] (every
    iterator of this model has a [return] method, so the fallback of
    [AsyncStream.return] is never taken); a generator object resumes its
    body. *)
Fixpoint run (fuel : nat) (w : world) (r : ref) (req : request)
  : option settled :=
  match fuel with
  | 0 => None
  | S fuel =>
      match heap w !! r with
      | None => None
      | Some (Stream iter) =>
          match req with
          | Next => run fuel (log (Pull r) w) iter Next
          | Return v => run fuel w iter (Return v)
          end
      | Some (Generator g) =>
          match resume (run fuel) fuel g req w with
          | None => None
          | Some (s, w') => Some (settle r s w')
          end
      end
  end.

(** ** Calls that build objects

    A synchronous call either returns or throws, and may allocate. *)

Definition call_ (A : Type) : Type := world -> completion A * world.

Definition ret {A} (a : A) : call_ A := fun w => (Normal a, w).
Definition throw {A} (e : exn) : call_ A := fun w => (Throw e, w).
Definition bind {A B} (m : call_ A) (k : A -> call_ B) : call_ B :=
  fun w =>
    match m w with
    | (Normal a, w') => k a w'
    | (Throw e, w') => (Throw e, w')
    end.
Definition new_object (o : object) : call_ ref :=
  fun w => let (r, w') := alloc o w in (Normal r, w').

Notation "'let*' x := m 'in' k" := (bind m (fun x => k))
  (at level 10, x name, m at level 100, k at level 200).

(** [getGenerator(returns)()] of the test-suite: a generator object that
    has not started. *)
Definition getGenerator (returns : list JSValue) : call_ ref :=
  new_object (Generator (SourceGen returns)).

Module AsyncStream.

(** [new AsyncStream(iter)] *)
Definition new (iter : ref) : call_ ref := new_object (Stream iter).

(** [new AsyncStream(generator())] *)
Definition of_generator (g : generator) : call_ ref :=
  let* iter := new_object (Generator g) in new iter.

Definition pack (self : ref) (packageSize : number) : call_ ref :=
  if num_le packageSize (number_of_nat 0)
  then throw (RangeError "packageSize must be a positive integer.")
  else of_generator (PackGen self packageSize PackStart).

Definition repack (self : ref) (packageSize : number) : call_ ref :=
  if num_le packageSize (number_of_nat 0)
  then throw (RangeError "packageSize must be a positive integer.")
  else of_generator (RepackGen self packageSize RepackStart []).

Definition flat (self : ref) : call_ ref :=
  of_generator (FlatGen self FlatStart).

Definition filter (self : ref)
    (predicate : JSValue -> nat -> completion JSValue) : call_ ref :=
  of_generator (FilterGen self predicate FilterStart).

Definition skip (self : ref) (n : number) : call_ ref :=
  if num_lt n (number_of_nat 0)
  then throw (RangeError "n must be a non-negative integer.")
  else of_generator (SkipGen self n SkipStart).

Definition take (self : ref) (n : number) : call_ ref :=
  if num_lt n (number_of_nat 0)
  then throw (RangeError "n must be a non-negative integer.")
  else if num_eq n (number_of_nat 0) then ret self
  else of_generator (TakeGen self n TakeStart).

Definition takeLast (self : ref) (n : number) : call_ ref :=
  if num_le n (number_of_nat 0)
  then throw (RangeError "n must be a positive integer.")
  else of_generator (TakeLastGen self n TakeLastStart).

(** [this.next()] *)
Definition next (fuel : nat) (this : ref) (w : world) : option settled :=
  run fuel w this Next.

(** [collect]: [for await (const item of this) results.push(item)].  A
    rejected [next] rejects [collect]; the loop body cannot fail, so the
    loop never closes the iterator itself. *)
Fixpoint collect_loop (call : caller) (fuel : nat) (this : ref)
    (results : list JSValue) (w : world)
  : option (completion (list JSValue) * world) :=
  match fuel with
  | 0 => None
  | S fuel =>
      match call w this Next with
      | None => None
      | Some (Throw e, w) => Some (Throw e, w)
      | Some (Normal r, w) =>
          if done r then Some (Normal results, w)
          else collect_loop call fuel this (results ++ [value r]) w
      end
  end.

Definition collect (fuel : nat) (this : ref) (w : world)
  : option (completion (list JSValue) * world) :=
  collect_loop (run fuel) fuel this [] w.

End AsyncStream.

(** [new AsyncStream(getGenerator(returns)())] *)
Definition source (returns : list JSValue) : call_ ref :=
  let* g := getGenerator returns in AsyncStream.new g.

(** A consumer that awaits [stream.next()] a given number of times and
    keeps the settlements, oldest first. *)
Fixpoint pulls (fuel : nat) (count : nat) (stream : ref) (w : world)
  : option (list (completion IteratorResult) * world) :=
  match count with
  | 0 => Some ([], w)
  | S count =>
      match AsyncStream.next fuel stream w with
      | None => None
      | Some (c, w) =>
          match pulls fuel count stream w with
          | None => None
          | Some (cs, w) => Some (c :: cs, w)
          end
      end
  end.

(** The iterator behind [stream] is a generator that has completed. *)
Definition exhausted (stream : ref) (w : world) : Prop :=
  exists iter,
    heap w !! stream = Some (Stream iter) /\
    heap w !! iter = Some (Generator Completed).

(** The settlement of a pull on a stream that still has [X] to yield. *)
Definition head_of (X : list JSValue) : IteratorResult :=
  match X with
  | x :: _ => yielded x
  | [] => finished VUndefined
  end.

(** What the trace says. *)
Definition pulls_on (stream : ref) (t : list event) : nat :=
  length (List.filter (fun e => match e with
                                | Pull r => r =? stream
                                | Call _ _ => false
                                end) t).

Definition calls (t : list event) : list (JSValue * nat) :=
  rev (omap (fun e => match e with
                      | Call item index => Some (item, index)
                      | Pull _ => None
                      end) t).

(** * Properties *)

(** ** The expectations of the test-suite, evaluated *)

Definition num (z : Z) : JSValue := VNumber (Finite (inject_Z z)).

(** [await pipeline.collect()] in the empty world. *)
Definition collected (fuel : nat) (pipeline : call_ ref)
  : option (completion (list JSValue)) :=
  match pipeline empty_world with
  | (Normal s, w) => fst <$> AsyncStream.collect fuel s w
  | (Throw e, _) => Some (Throw e)
  end.

Example test_pack :
  collected 10 (let* s := source (map num [1; 2; 3; 4; 5]%Z) in
                AsyncStream.pack s (number_of_nat 2))
  = Some (Normal [VArray (map num [1; 2]%Z); VArray (map num [3; 4]%Z);
                  VArray (map num [5]%Z)]).
Proof. reflexivity. Qed.

Example test_pack_zero :
  collected 10 (let* s := source (map num [1; 2; 3]%Z) in
                AsyncStream.pack s (number_of_nat 0))
  = Some (Throw (RangeError "packageSize must be a positive integer.")).
Proof. reflexivity. Qed.

Example test_repack :
  collected 10
    (let* s := source [VArray (map num [1; 2]%Z); VArray (map num [3; 4]%Z);
                       VArray (map num [5]%Z)] in
     AsyncStream.repack s (number_of_nat 3))
  = Some (Normal [VArray (map num [1; 2; 3]%Z); VArray (map num [4; 5]%Z)]).
Proof. reflexivity. Qed.

Example test_repack_items :
  collected 10 (let* s := source (map num [1; 2; 3; 4; 5]%Z) in
                AsyncStream.repack s (number_of_nat 2))
  = Some (Throw (TypeError "Input async generator must yield arrays for repack.")).
Proof. reflexivity. Qed.

Example test_flat :
  collected 10
    (let* s := source [VArray (map num [1; 2]%Z); VArray (map num [3; 4]%Z);
                       VArray (map num [5]%Z)] in
     AsyncStream.flat s)
  = Some (Normal (map num [1; 2; 3; 4; 5]%Z)).
Proof. reflexivity. Qed.

Example test_filter_index :
  collected 10
    (let* s := source (map num [1; 2; 3; 4; 5]%Z) in
     AsyncStream.filter s (fun _ i => Normal (VBoolean (Nat.even i))))
  = Some (Normal (map num [1; 3; 5]%Z)).
Proof. reflexivity. Qed.

Example test_skip_skip :
  collected 10 (let* s := source (map num [1; 2; 3; 4; 5]%Z) in
                let* p := AsyncStream.skip s (number_of_nat 1) in
                AsyncStream.skip p (number_of_nat 2))
  = Some (Normal (map num [4; 5]%Z)).
Proof. reflexivity. Qed.

Example test_skip_past_end :
  collected 10 (let* s := source (map num [1; 2; 3; 4; 5]%Z) in
                AsyncStream.skip s (number_of_nat 10))
  = Some (Normal []).
Proof. reflexivity. Qed.

Example test_takeLast :
  collected 10 (let* s := source (map num [1; 2; 3; 4; 5]%Z) in
                AsyncStream.takeLast s (number_of_nat 3))
  = Some (Normal (map num [3; 4; 5]%Z)).
Proof. reflexivity. Qed.

(** [stream4.take(3).collect()], [stream4.take(2).collect()], then
    [stream4.collect()]. *)
Example test_take_take :
  match (let* s := source (map num [1; 2; 3; 4; 5; 6]%Z) in
         let* a := AsyncStream.take s (number_of_nat 3) in
         let* b := AsyncStream.take s (number_of_nat 2) in
         ret (s, a, b)) empty_world with
  | (Normal (s, a, b), w) =>
      '(first, w) ← AsyncStream.collect 10 a w;
      '(second, w) ← AsyncStream.collect 10 b w;
      '(rest, _) ← AsyncStream.collect 10 s w;
      Some (first, second, rest)
  | _ => None
  end
  = Some (Normal (map num [1; 2; 3]%Z), Normal (map num [4; 5]%Z),
          Normal (map num [6]%Z)).
Proof. reflexivity. Qed.

(** ** Numbers that are array lengths *)

Lemma Qle_bool_inject (a b : Z) :
  Qle_bool (inject_Z a) (inject_Z b) = (a <=? b)%Z.
Proof. unfold Qle_bool; simpl. by rewrite !Z.mul_1_r. Qed.

Lemma Qeq_bool_inject (a b : Z) :
  Qeq_bool (inject_Z a) (inject_Z b) = (a =? b)%Z.
Proof. unfold Qeq_bool; simpl. by rewrite !Z.mul_1_r. Qed.

Lemma num_lt_nat (a b : nat) :
  num_lt (number_of_nat a) (number_of_nat b) = (a <? b).
Proof.
  simpl. rewrite Qle_bool_inject.
  destruct (Nat.ltb_spec a b), (Z.leb_spec (Z.of_nat b) (Z.of_nat a)); simpl; lia.
Qed.

Lemma num_le_nat (a b : nat) :
  num_le (number_of_nat a) (number_of_nat b) = (a <=? b).
Proof.
  simpl. rewrite Qle_bool_inject.
  destruct (Nat.leb_spec a b), (Z.leb_spec (Z.of_nat a) (Z.of_nat b)); simpl; lia.
Qed.

Lemma num_eq_nat (a b : nat) :
  num_eq (number_of_nat a) (number_of_nat b) = (a =? b).
Proof.
  simpl. rewrite Qeq_bool_inject.
  destruct (Nat.eqb_spec a b), (Z.eqb_spec (Z.of_nat a) (Z.of_nat b)); simpl; lia.
Qed.

Lemma slice_index_nat (n len : nat) :
  slice_index (number_of_nat n) len = n `min` len.
Proof.
  unfold slice_index, number_of_nat, Qtrunc.
  replace 0%Q with (inject_Z 0) by reflexivity.
  rewrite Qle_bool_inject, Qfloor_Z.
  destruct (Z.leb_spec 0 (Z.of_nat n)); [|lia].
  destruct (Z.ltb_spec (Z.of_nat n) 0); lia.
Qed.

Arguments number_of_nat : simpl never.
Arguments num_lt : simpl never.
Arguments num_le : simpl never.
Arguments num_eq : simpl never.
Arguments slice_index : simpl never.

(** ** Enough fuel

    A computation [f] that is handed a caller and a turn budget settles
    on [a] when it returns [a] for every large enough fuel of [run] and
    every large enough budget. *)

Definition eventually {A} (f : caller -> nat -> option A) (a : A) : Prop :=
  exists k, forall F n, k <= F -> k <= n -> f (run F) n = Some a.

(** The request [req] on the object [r], made in the world [w], settles
    as [x]. *)
Definition run_to (w : world) (r : ref) (req : request) (x : settled) : Prop :=
  eventually (fun call _ => call w r req) x.

Lemma eventually_now {A} (f : caller -> nat -> option A) (a : A) :
  (forall call n, f call n = Some a) -> eventually f a.
Proof. intros H. exists 0. intros. apply H. Qed.

Lemma eventually_fun {A} (f : caller -> nat -> option A) (a b : A) :
  eventually f a -> eventually f b -> a = b.
Proof.
  intros [k Hk] [k' Hk'].
  specialize (Hk (k `max` k') (k `max` k')).
  specialize (Hk' (k `max` k') (k `max` k')).
  rewrite Hk in Hk' by lia. injection Hk' as ->; [done|lia..].
Qed.

(** ** Rules for [run] and for the generator bodies

    One rule per function: the settlement of the upstream call, and what
    the body does with it. *)

Ltac enough_fuel k :=
  exists (S k); intros Fr [|Fb] ? ?; [lia|]; simpl.

Lemma run_stream_next (w : world) (r iter : ref) (x : settled) :
  heap w !! r = Some (Stream iter) ->
  run_to (log (Pull r) w) iter Next x ->
  run_to w r Next x.
Proof.
  intros Hr [k Hk]. exists (S k). intros [|F] n ? ?; [lia|].
  simpl. rewrite Hr. apply (Hk F n); lia.
Qed.

Lemma run_stream_return (w : world) (r iter : ref) (v : JSValue) (x : settled) :
  heap w !! r = Some (Stream iter) ->
  run_to w iter (Return v) x ->
  run_to w r (Return v) x.
Proof.
  intros Hr [k Hk]. exists (S k). intros [|F] n ? ?; [lia|].
  simpl. rewrite Hr. apply (Hk F n); lia.
Qed.

Lemma run_generator (w : world) (r : ref) (g : generator) (req : request)
    (s : stop) (w' : world) (x : settled) :
  heap w !! r = Some (Generator g) ->
  eventually (fun call n => resume call n g req w) (s, w') ->
  x = settle r s w' ->
  run_to w r req x.
Proof.
  intros Hr [k Hk] ->. exists (S k). intros [|F] n ? ?; [lia|].
  simpl. rewrite Hr. by rewrite (Hk F F) by lia.
Qed.

(** [next] on a stream whose [#iter] is a generator: the body settles as
    [tac] shows. *)
Tactic Notation "stream_next" "by" tactic3(tac) :=
  eapply run_stream_next;
    [reflexivity|eapply run_generator; [reflexivity|tac|reflexivity]].

Section Rules.
Context {self : ref} {w w1 : world} {c : completion IteratorResult}.
Hypothesis Hnext : run_to w self Next (c, w1).

Lemma pack_loop_rule (packageSize : number) (buffer : list JSValue)
    (y : stopped) :
  match c with
  | Throw e => y = (Raise e, w1)
  | Normal r =>
      if done r then
        y = (if 0 <? length buffer
             then Yield (VArray buffer) (PackGen self packageSize PackYieldRest)
             else Finish VUndefined, w1)
      else if num_eq (number_of_nat (length (buffer ++ [value r]))) packageSize
      then y = (Yield (VArray (buffer ++ [value r]))
                  (PackGen self packageSize PackYieldFull), w1)
      else eventually
             (fun call n => pack_loop call n self packageSize
                              (buffer ++ [value r]) w1) y
  end ->
  eventually (fun call n => pack_loop call n self packageSize buffer w) y.
Proof.
  destruct Hnext as [k Hk]. intros HK.
  destruct c as [r|e]; [destruct (done r) eqn:Hd;
    [|destruct (num_eq _ _) eqn:Hq; [|destruct HK as [k' Hk']]]|].
  - subst y. enough_fuel k. rewrite (Hk Fr Fb) by lia. simpl. rewrite Hd.
    by destruct (0 <? _).
  - subst y. enough_fuel k. rewrite (Hk Fr Fb) by lia. simpl.
    by rewrite Hd, Hq.
  - enough_fuel (k `max` k'). rewrite (Hk Fr Fb) by lia. simpl.
    rewrite Hd, Hq. apply Hk'; lia.
  - subst y. enough_fuel k. by rewrite (Hk Fr Fb) by lia.
Qed.

Lemma repack_loop_rule (packageSize : number) (buffer : list JSValue)
    (y : stopped) :
  match c with
  | Throw e => y = (Raise e, w1)
  | Normal r =>
      if done r then
        y = (if 0 <? length buffer
             then Yield (VArray buffer)
                    (RepackGen self packageSize RepackYieldRest buffer)
             else Finish VUndefined, w1)
      else
        match value r with
        | VArray page =>
            match repack_while self packageSize (buffer ++ page) with
            | Some s => y = (s, w1)
            | None =>
                eventually
                  (fun call n => repack_loop call n self packageSize
                                   (buffer ++ page) w1) y
            end
        | _ =>
            exists c2 w2,
              run_to w1 self (Return VUndefined) (c2, w2) /\
              y = (Raise (TypeError
                     "Input async generator must yield arrays for repack."), w2)
        end
  end ->
  eventually (fun call n => repack_loop call n self packageSize buffer w) y.
Proof.
  destruct Hnext as [k Hk]. intros HK.
  destruct c as [r|e]; [destruct (done r) eqn:Hd|].
  - subst y. enough_fuel k. rewrite (Hk Fr Fb) by lia. simpl. rewrite Hd.
    by destruct (0 <? _).
  - destruct (value r) eqn:Hv;
      try (destruct HK as (c2 & w2 & [k' Hk'] & ->);
           enough_fuel (k `max` k'); rewrite (Hk Fr Fb) by lia; simpl;
           rewrite Hd, Hv; unfold close_throw;
           by rewrite (Hk' Fr Fb) by lia).
    destruct (repack_while _ _ _) eqn:Hw.
    + subst y. enough_fuel k. rewrite (Hk Fr Fb) by lia. simpl.
      by rewrite Hd, Hv, Hw.
    + destruct HK as [k' Hk']. enough_fuel (k `max` k').
      rewrite (Hk Fr Fb) by lia. simpl. rewrite Hd, Hv, Hw. apply Hk'; lia.
  - subst y. enough_fuel k. by rewrite (Hk Fr Fb) by lia.
Qed.

Lemma flat_loop_rule (y : stopped) :
  match c with
  | Throw e => y = (Raise e, w1)
  | Normal r =>
      if done r then y = (Finish VUndefined, w1)
      else
        match value r with
        | VArray [] => eventually (fun call n => flat_loop call n self w1) y
        | VArray (item :: page) =>
            y = (Yield item (FlatGen self (FlatYield page)), w1)
        | _ =>
            exists c2 w2,
              run_to w1 self (Return VUndefined) (c2, w2) /\
              y = (Raise (TypeError
                     "Input async generator must yield arrays for flattening."), w2)
        end
  end ->
  eventually (fun call n => flat_loop call n self w) y.
Proof.
  destruct Hnext as [k Hk]. intros HK.
  destruct c as [r|e]; [destruct (done r) eqn:Hd|].
  - subst y. enough_fuel k. rewrite (Hk Fr Fb) by lia. simpl. by rewrite Hd.
  - destruct (value r) as [| | | |[|item page]] eqn:Hv;
      try (destruct HK as (c2 & w2 & [k' Hk'] & ->);
           enough_fuel (k `max` k'); rewrite (Hk Fr Fb) by lia; simpl;
           rewrite Hd, Hv; unfold close_throw;
           by rewrite (Hk' Fr Fb) by lia).
    + destruct HK as [k' Hk']. enough_fuel (k `max` k').
      rewrite (Hk Fr Fb) by lia. simpl. rewrite Hd, Hv. apply Hk'; lia.
    + subst y. enough_fuel k. rewrite (Hk Fr Fb) by lia. simpl.
      by rewrite Hd, Hv.
  - subst y. enough_fuel k. by rewrite (Hk Fr Fb) by lia.
Qed.

Lemma filter_loop_rule
    (predicate : JSValue -> nat -> completion JSValue) (index : nat)
    (y : stopped) :
  match c with
  | Throw e => y = (Raise e, w1)
  | Normal r =>
      if done r then y = (Finish VUndefined, w1)
      else
        match predicate (value r) index with
        | Throw e =>
            exists c2 w2,
              run_to (log (Call (value r) index) w1) self
                (Return VUndefined) (c2, w2) /\
              y = (Raise e, w2)
        | Normal b =>
            if truthy b
            then y = (Yield (value r)
                        (FilterGen self predicate (FilterYield index)),
                      log (Call (value r) index) w1)
            else eventually
                   (fun call n => filter_loop call n self predicate (S index)
                                    (log (Call (value r) index) w1)) y
        end
  end ->
  eventually (fun call n => filter_loop call n self predicate index w) y.
Proof.
  destruct Hnext as [k Hk]. intros HK.
  destruct c as [r|e]; [destruct (done r) eqn:Hd|].
  - subst y. enough_fuel k. rewrite (Hk Fr Fb) by lia. simpl. by rewrite Hd.
  - destruct (predicate (value r) index) as [b|e] eqn:Hp;
      [destruct (truthy b) eqn:Ht|].
    + subst y. enough_fuel k. rewrite (Hk Fr Fb) by lia. simpl.
      by rewrite Hd, Hp, Ht.
    + destruct HK as [k' Hk']. enough_fuel (k `max` k').
      rewrite (Hk Fr Fb) by lia. simpl. rewrite Hd, Hp, Ht. apply Hk'; lia.
    + destruct HK as (c2 & w2 & [k' Hk'] & ->).
      enough_fuel (k `max` k'). rewrite (Hk Fr Fb) by lia. simpl.
      rewrite Hd, Hp. unfold close_throw. by rewrite (Hk' Fr Fb) by lia.
  - subst y. enough_fuel k. by rewrite (Hk Fr Fb) by lia.
Qed.

Lemma skip_pass_rule (n : number) :
  eventually (fun call _ => skip_pass call self n w)
    (match c with
     | Throw e => Raise e
     | Normal r =>
         if done r then Finish VUndefined
         else Yield (value r) (SkipGen self n SkipYield)
     end, w1).
Proof.
  destruct Hnext as [k Hk]. exists k. intros F m ? ?.
  unfold skip_pass. rewrite (Hk F m) by lia.
  destruct c as [r|e]; [by destruct (done r)|done].
Qed.

Lemma skip_loop_rule (n : number) (count : nat) (y : stopped) :
  num_lt (number_of_nat count) n = true ->
  match c with
  | Throw e => y = (Raise e, w1)
  | Normal r =>
      if done r then y = (Finish VUndefined, w1)
      else eventually (fun call m => skip_loop call m self n (S count) w1) y
  end ->
  eventually (fun call m => skip_loop call m self n count w) y.
Proof.
  destruct Hnext as [k Hk]. intros Hlt HK.
  destruct c as [r|e]; [destruct (done r) eqn:Hd|].
  - subst y. enough_fuel k. rewrite Hlt, (Hk Fr Fb) by lia. simpl.
    by rewrite Hd.
  - destruct HK as [k' Hk']. enough_fuel (k `max` k').
    rewrite Hlt, (Hk Fr Fb) by lia. simpl. rewrite Hd. apply Hk'; lia.
  - subst y. enough_fuel k. by rewrite Hlt, (Hk Fr Fb) by lia.
Qed.

Lemma take_turn_rule (n : number) (count : nat) :
  num_lt (number_of_nat count) n = true ->
  eventually (fun call _ => take_turn call self n count w)
    (match c with
     | Throw e => Raise e
     | Normal r =>
         if done r then Finish VUndefined
         else Yield (value r) (TakeGen self n (TakeYield count))
     end, w1).
Proof.
  destruct Hnext as [k Hk]. intros Hlt. exists k. intros F m ? ?.
  unfold take_turn. rewrite Hlt, (Hk F m) by lia.
  destruct c as [r|e]; [by destruct (done r)|done].
Qed.

Lemma takeLast_loop_rule (n : number) (results : list JSValue)
    (y : stopped) :
  match c with
  | Throw e => y = (Raise e, w1)
  | Normal r =>
      if done r then y = (takeLast_emit self n results, w1)
      else
        eventually
          (fun call m =>
             takeLast_loop call m self n
               (if num_lt n (number_of_nat (length (results ++ [value r])))
                then tail (results ++ [value r])
                else results ++ [value r]) w1) y
  end ->
  eventually (fun call m => takeLast_loop call m self n results w) y.
Proof.
  destruct Hnext as [k Hk]. intros HK.
  destruct c as [r|e]; [destruct (done r) eqn:Hd|].
  - subst y. enough_fuel k. rewrite (Hk Fr Fb) by lia. simpl. by rewrite Hd.
  - destruct HK as [k' Hk']. enough_fuel (k `max` k').
    rewrite (Hk Fr Fb) by lia. simpl. rewrite Hd. apply Hk'; lia.
  - subst y. enough_fuel k. by rewrite (Hk Fr Fb) by lia.
Qed.

Lemma collect_loop_rule (results : list JSValue)
    (y : completion (list JSValue) * world) :
  match c with
  | Throw e => y = (Throw e, w1)
  | Normal r =>
      if done r then y = (Normal results, w1)
      else eventually
             (fun call m =>
                AsyncStream.collect_loop call m self (results ++ [value r]) w1) y
  end ->
  eventually (fun call m => AsyncStream.collect_loop call m self results w) y.
Proof.
  destruct Hnext as [k Hk]. intros HK.
  destruct c as [r|e]; [destruct (done r) eqn:Hd|].
  - subst y. enough_fuel k. rewrite (Hk Fr Fb) by lia. simpl. by rewrite Hd.
  - destruct HK as [k' Hk']. enough_fuel (k `max` k').
    rewrite (Hk Fr Fb) by lia. simpl. rewrite Hd. apply Hk'; lia.
  - subst y. enough_fuel k. by rewrite (Hk Fr Fb) by lia.
Qed.

Lemma pulls_rule (count : nat) (cs : list (completion IteratorResult))
    (w2 : world) :
  eventually (fun _ fuel => pulls fuel count self w1) (cs, w2) ->
  eventually (fun _ fuel => pulls fuel (S count) self w) (c :: cs, w2).
Proof.
  destruct Hnext as [k Hk]. intros [k' Hk'].
  exists (k `max` k'). intros F n ? ?. simpl. unfold AsyncStream.next.
  rewrite (Hk n n) by lia. by rewrite (Hk' F n) by lia.
Qed.
End Rules.

Lemma skip_loop_exit (self : ref) (n : number) (count : nat) (w : world)
    (y : stopped) :
  num_lt (number_of_nat count) n = false ->
  eventually (fun call _ => skip_pass call self n w) y ->
  eventually (fun call m => skip_loop call m self n count w) y.
Proof.
  intros Hlt [k Hk]. enough_fuel k. rewrite Hlt. apply (Hk Fr Fb); lia.
Qed.

Lemma close_return_rule (self : ref) (v : JSValue) (w w1 : world)
    (c : completion IteratorResult) :
  run_to w self (Return VUndefined) (c, w1) ->
  eventually (fun call _ => close_return call self v w)
    (match c with Throw e => Raise e | Normal _ => Finish v end, w1).
Proof.
  intros [k Hk]. exists k. intros F n ? ?. unfold close_return.
  rewrite (Hk F n) by lia. by destruct c.
Qed.

(** The terminal operation, once enough fuel is given. *)
Definition collects (this : ref) (w : world)
    (y : completion (list JSValue) * world) : Prop :=
  exists k, forall fuel, k <= fuel -> AsyncStream.collect fuel this w = Some y.

Lemma collects_intro (this : ref) (w : world)
    (y : completion (list JSValue) * world) :
  eventually (fun call m => AsyncStream.collect_loop call m this [] w) y ->
  collects this w y.
Proof. intros [k Hk]. exists k. intros fuel ?. apply Hk; lia. Qed.

(** [count] awaited calls of [next], once enough fuel is given. *)
Definition pulled (count : nat) (stream : ref) (w : world)
    (y : list (completion IteratorResult) * world) : Prop :=
  exists k, forall fuel, k <= fuel -> pulls fuel count stream w = Some y.

Lemma pulled_intro (count : nat) (stream : ref) (w : world)
    (y : list (completion IteratorResult) * world) :
  eventually (fun _ fuel => pulls fuel count stream w) y ->
  pulled count stream w y.
Proof. intros [k Hk]. exists k. intros fuel ?. apply (Hk fuel); lia. Qed.

(** ** The source stream

    [new AsyncStream(getGenerator(returns)())] in the empty world puts
    the generator at reference [0] and the stream at reference [1];
    stages built on it come after, in [above]. *)

Definition on_source (g : generator) (above : list object) (t : list event)
  : world :=
  {| heap := Generator g :: Stream 0 :: above; trace := t |}.

Lemma source_spec (returns : list JSValue) :
  source returns empty_world = (Normal 1, on_source (SourceGen returns) [] []).
Proof. reflexivity. Qed.

Lemma source_next_item (x : JSValue) (R : list JSValue) above t :
  run_to (on_source (SourceGen (x :: R)) above t) 1 Next
    (Normal (yielded x), on_source (SourceGen R) above (Pull 1 :: t)).
Proof.
  eapply run_stream_next; [reflexivity|].
  eapply run_generator; [reflexivity|by apply eventually_now|reflexivity].
Qed.

Lemma source_next_end above t :
  run_to (on_source (SourceGen []) above t) 1 Next
    (Normal (finished VUndefined), on_source Completed above (Pull 1 :: t)).
Proof.
  eapply run_stream_next; [reflexivity|].
  eapply run_generator; [reflexivity|by apply eventually_now|reflexivity].
Qed.

Lemma source_next_completed above t :
  run_to (on_source Completed above t) 1 Next
    (Normal (finished VUndefined), on_source Completed above (Pull 1 :: t)).
Proof.
  eapply run_stream_next; [reflexivity|].
  eapply run_generator; [reflexivity|by apply eventually_now|reflexivity].
Qed.

Lemma source_return (R : list JSValue) (v : JSValue) above t :
  run_to (on_source (SourceGen R) above t) 1 (Return v)
    (Normal (finished v), on_source Completed above t).
Proof.
  eapply run_stream_return; [reflexivity|].
  eapply run_generator; [reflexivity|by apply eventually_now|reflexivity].
Qed.

(** A stage built directly on the source stream: its generator is at
    reference [2] and its stream at reference [3]. *)
Definition staged (g stage : generator) (above : list object) (t : list event)
  : world :=
  on_source g (Generator stage :: Stream 2 :: above) t.

Lemma staged_next_completed (g : generator) above t :
  run_to (staged g Completed above t) 3 Next
    (Normal (finished VUndefined), staged g Completed above (Pull 3 :: t)).
Proof.
  eapply run_stream_next; [reflexivity|].
  eapply run_generator; [reflexivity|by apply eventually_now|reflexivity].
Qed.

(** ** [pack] over the source *)

(** [groups] cuts [R] into consecutive runs of [n] items, the last one
    possibly shorter. *)
Inductive Chunked {A} (n : nat) : list A -> list (list A) -> Prop :=
| Chunked_nil : Chunked n [] []
| Chunked_full R groups :
    n <= length R -> Chunked n (skipn n R) groups ->
    Chunked n R (firstn n R :: groups)
| Chunked_rest R :
    0 < length R < n -> Chunked n R [R].

Section Chunked.
Context {A : Type}.
Implicit Types (R : list A) (groups : list (list A)).

Lemma Chunked_concat n R groups : Chunked n R groups -> concat groups = R.
Proof.
  induction 1 as [|R groups _ _ IH|R _]; simpl.
  - done.
  - by rewrite IH, take_drop.
  - by rewrite app_nil_r.
Qed.

Lemma Chunked_empty n R : Chunked n R [] -> R = [].
Proof. by inversion 1. Qed.

Lemma Chunked_count n R groups :
  0 < n -> Chunked n R groups -> length groups = (length R + n - 1) / n.
Proof.
  intros Hn. induction 1 as [|R groups Hlen _ IH|R Hlen]; simpl.
  - symmetry. apply Nat.div_small. lia.
  - rewrite IH, length_skipn.
    replace (length R + n - 1) with (1 * n + (length R - n + n - 1)) by lia.
    rewrite Nat.div_add_l by lia. done.
  - apply (Nat.div_unique _ _ 1 (length R - 1)); lia.
Qed.

Lemma Chunked_sizes n R groups :
  Chunked n R groups ->
  forall i g, groups !! i = Some g -> S i < length groups -> length g = n.
Proof.
  induction 1 as [|R groups Hlen _ IH|R Hlen]; intros i g Hi Hlt.
  - done.
  - destruct i as [|i]; simpl in *.
    + injection Hi as <-. rewrite length_firstn. lia.
    + apply (IH i g Hi). lia.
  - simpl in Hlt. lia.
Qed.

Lemma Chunked_last n R groups :
  0 < n -> Chunked n R groups ->
  forall g, last groups = Some g ->
    length g = if length R mod n =? 0 then n else length R mod n.
Proof.
  intros Hn. induction 1 as [|R groups Hlen Hch IH|R Hlen]; intros g Hg.
  - done.
  - assert (length R mod n = length (skipn n R) mod n) as ->.
    { rewrite length_skipn.
      replace (length R) with (length R - n + 1 * n) at 1 by lia.
      apply Nat.Div0.mod_add. }
    destruct groups as [|g' groups].
    + apply Chunked_empty in Hch. rewrite Hch. simpl in *.
      injection Hg as <-. rewrite Nat.Div0.mod_0_l. simpl.
      rewrite length_firstn. lia.
    + apply IH. by rewrite last_cons_cons in Hg.
  - simpl in Hg. injection Hg as <-.
    rewrite Nat.mod_small by lia.
    destruct (Nat.eqb_spec (length R) 0); lia.
Qed.
End Chunked.

Section PackOnSource.
Variable n : nat.
Hypothesis n_pos : 0 < n.

Let size := number_of_nat n.

Lemma pack_positive (self : ref) :
  AsyncStream.pack self size =
    AsyncStream.of_generator (PackGen self size PackStart).
Proof.
  unfold AsyncStream.pack, size. rewrite num_le_nat.
  by destruct (Nat.leb_spec n 0); [lia|].
Qed.

(** One run of the loop of [pack], entered with [buffer]. *)
Lemma pack_loop_source (R buffer : list JSValue) above t :
  length buffer < n ->
  exists t',
    eventually
      (fun call m => pack_loop call m 1 size buffer
                       (on_source (SourceGen R) above t))
      (if n - length buffer <=? length R
       then (Yield (VArray (buffer ++ firstn (n - length buffer) R))
               (PackGen 1 size PackYieldFull),
             on_source (SourceGen (skipn (n - length buffer) R)) above t')
       else (if 0 <? length (buffer ++ R)
             then Yield (VArray (buffer ++ R)) (PackGen 1 size PackYieldRest)
             else Finish VUndefined,
             on_source Completed above t')).
Proof.
  revert buffer t. induction R as [|x R IH]; intros buffer t Hlen.
  - exists (Pull 1 :: t).
    eapply pack_loop_rule; [apply source_next_end|]. simpl.
    destruct (Nat.leb_spec (n - length buffer) 0); [lia|].
    by rewrite app_nil_r.
  - destruct (decide (S (length buffer) = n)) as [Heq|Hne].
    + exists (Pull 1 :: t).
      eapply pack_loop_rule; [apply source_next_item|]. simpl.
      unfold size. rewrite num_eq_nat, length_app. simpl.
      destruct (Nat.eqb_spec (length buffer + 1) n); [|lia].
      replace (n - length buffer) with 1 by lia. simpl.
      by rewrite drop_0.
    + destruct (IH (buffer ++ [x]) (Pull 1 :: t)) as [t' Ht'].
      { rewrite length_app. simpl. lia. }
      exists t'.
      eapply pack_loop_rule; [apply source_next_item|]. simpl.
      unfold size. rewrite num_eq_nat, length_app. simpl.
      destruct (Nat.eqb_spec (length buffer + 1) n); [lia|].
      rewrite length_app in Ht'. simpl in Ht'.
      replace (n - length buffer) with (S (n - (length buffer + 1))) by lia.
      simpl. rewrite <- !app_assoc in Ht'. simpl in Ht'.
      destruct (n - (length buffer + 1) <=? length R); exact Ht'.
Qed.

Lemma pack_next (R : list JSValue) (at_ : pack_point) above t :
  at_ <> PackYieldRest ->
  exists t',
    run_to (staged (SourceGen R) (PackGen 1 size at_) above t) 3 Next
      (if n <=? length R
       then (Normal (yielded (VArray (firstn n R))),
             staged (SourceGen (skipn n R)) (PackGen 1 size PackYieldFull)
               above t')
       else if 0 <? length R
       then (Normal (yielded (VArray R)),
             staged Completed (PackGen 1 size PackYieldRest) above t')
       else (Normal (finished VUndefined),
             staged Completed Completed above t')).
Proof.
  intros Hat.
  destruct (pack_loop_source R [] (Generator (PackGen 1 size at_)
              :: Stream 2 :: above) (Pull 3 :: t)) as [t' Ht']; [simpl; lia|].
  simpl in Ht'. rewrite Nat.sub_0_r in Ht'. exists t'.
  destruct (n <=? length R); [|destruct (0 <? length R)];
    (eapply run_stream_next; [reflexivity|];
     eapply run_generator;
       [reflexivity|destruct at_; [exact Ht'|exact Ht'|done]|reflexivity]).
Qed.

Lemma pack_next_rest above t :
  run_to (staged Completed (PackGen 1 size PackYieldRest) above t) 3 Next
    (Normal (finished VUndefined),
     staged Completed Completed above (Pull 3 :: t)).
Proof.
  eapply run_stream_next; [reflexivity|].
  eapply run_generator; [reflexivity|by apply eventually_now|reflexivity].
Qed.

(** Collecting the groups. *)
Lemma collect_pack (R : list JSValue) :
  forall (at_ : pack_point) (results : list JSValue) above t,
    at_ <> PackYieldRest ->
    exists groups w',
      Chunked n R groups /\
      eventually
        (fun call m =>
           AsyncStream.collect_loop call m 3 results
             (staged (SourceGen R) (PackGen 1 size at_) above t))
        (Normal (results ++ map VArray groups), w').
Proof.
  remember (length R) as len eqn:Hlen. revert R Hlen.
  induction len as [len IH] using lt_wf_ind.
  intros R -> at_ results above t Hat.
  destruct (pack_next R at_ above t Hat) as [t' Hnext].
  destruct (Nat.leb_spec n (length R)) as [Hfull|Hshort].
  - destruct (IH (length (skipn n R))) with (R := skipn n R)
      (at_ := PackYieldFull) (results := results ++ [VArray (firstn n R)])
      (above := above) (t := t') as (groups & w' & Hch & Hev);
      [rewrite length_skipn; lia|done|done|].
    exists (firstn n R :: groups), w'. split; [by constructor|].
    eapply collect_loop_rule; [exact Hnext|]. simpl.
    by rewrite <- app_assoc in Hev.
  - destruct (Nat.ltb_spec 0 (length R)).
    + exists [R]. eexists. split; [by apply Chunked_rest|].
      eapply collect_loop_rule; [exact Hnext|]. simpl.
      eapply collect_loop_rule; [apply pack_next_rest|]. reflexivity.
    + destruct R; [|simpl in *; lia]. exists []. eexists.
      split; [constructor|].
      eapply collect_loop_rule; [exact Hnext|]. simpl.
      by rewrite app_nil_r.
Qed.
End PackOnSource.

(** C2. For a positive integer [n] and a source [items] of length [L],
    collecting [pack(n)] answers [ceil(L/n)] groups that hold the items
    in arrival order; every group but the last has exactly [n] items, the
    last has [L mod n] items ([n] when [n] divides [L]); an empty source
    gives no group. *)
Theorem pack_groups (items : list JSValue) (n : nat) :
  0 < n ->
  exists p w groups w',
    (let* s := source items in AsyncStream.pack s (number_of_nat n)) empty_world
      = (Normal p, w) /\
    collects p w (Normal (map VArray groups), w') /\
    concat groups = items /\
    length groups = (length items + n - 1) / n /\
    (forall i g, groups !! i = Some g -> S i < length groups -> length g = n) /\
    (forall g, last groups = Some g ->
       length g = if length items mod n =? 0 then n else length items mod n) /\
    (items = [] -> groups = []).
Proof.
  intros Hn.
  destruct (collect_pack n Hn items PackStart [] [] []) as (groups & w' & Hch & Hev);
    [done|].
  exists 3, (staged (SourceGen items) (PackGen 1 (number_of_nat n) PackStart) [] []),
    groups, w'.
  split; [|split; [|split; [|split; [|split; [|split]]]]].
  - unfold bind. rewrite source_spec, pack_positive by done. reflexivity.
  - by apply collects_intro.
  - by eapply Chunked_concat.
  - by apply Chunked_count.
  - by eapply Chunked_sizes.
  - by apply Chunked_last.
  - intros ->. inversion Hch; simpl in *; [done|lia|lia].
Qed.

Lemma pack_groups_witness :
  0 < 2 /\
  exists p w groups w',
    (let* s := source [VNumber (Finite 1); VNumber (Finite 2); VNumber (Finite 3)] in
     AsyncStream.pack s (number_of_nat 2)) empty_world = (Normal p, w) /\
    collects p w (Normal (map VArray groups), w') /\
    concat groups = [VNumber (Finite 1); VNumber (Finite 2); VNumber (Finite 3)] /\
    length groups = (3 + 2 - 1) / 2 /\
    (forall i g, groups !! i = Some g -> S i < length groups -> length g = 2) /\
    (forall g, last groups = Some g -> length g = 1) /\
    ([VNumber (Finite 1); VNumber (Finite 2); VNumber (Finite 3)] = [] -> groups = []).
Proof.
  split; [lia|].
  apply (pack_groups [VNumber (Finite 1); VNumber (Finite 2); VNumber (Finite 3)] 2).
  lia.
Defined.

(** ** [flat] over [pack] over the source *)

(** A second stage, built on the first: generator at [4], stream at
    [5]. *)
Definition staged2 (g stage1 stage2 : generator) (above : list object)
    (t : list event) : world :=
  staged g stage1 (Generator stage2 :: Stream 4 :: above) t.

Definition at_loop_head (at_ : flat_point) : Prop :=
  at_ = FlatStart \/ at_ = FlatYield [].

Lemma flat_next_loop (g stage1 : generator) (at_ : flat_point) above t
    (s : stop) (w1 : world) (x : settled) :
  at_loop_head at_ ->
  eventually
    (fun call m => flat_loop call m 3
                     (staged2 g stage1 (FlatGen 3 at_) above (Pull 5 :: t)))
    (s, w1) ->
  x = settle 4 s w1 ->
  run_to (staged2 g stage1 (FlatGen 3 at_) above t) 5 Next x.
Proof.
  intros Hat Hloop ->.
  eapply run_stream_next; [reflexivity|].
  eapply run_generator; [reflexivity| |reflexivity].
  by destruct Hat as [-> | ->].
Qed.

Lemma flat_next_pending (g stage1 : generator) (x : JSValue)
    (page : list JSValue) above t :
  run_to (staged2 g stage1 (FlatGen 3 (FlatYield (x :: page))) above t) 5 Next
    (Normal (yielded x),
     staged2 g stage1 (FlatGen 3 (FlatYield page)) above (Pull 5 :: t)).
Proof.
  eapply run_stream_next; [reflexivity|].
  eapply run_generator; [reflexivity|by apply eventually_now|reflexivity].
Qed.

(** Collecting what is left of the current page, then going on. *)
Lemma collect_flat_pending (g stage1 : generator) above
    (c : completion (list JSValue)) (page : list JSValue) :
  forall (results : list JSValue) t,
    (forall t', exists w',
        eventually
          (fun call m =>
             AsyncStream.collect_loop call m 5 (results ++ page)
               (staged2 g stage1 (FlatGen 3 (FlatYield [])) above t'))
          (c, w')) ->
    exists w',
      eventually
        (fun call m =>
           AsyncStream.collect_loop call m 5 results
             (staged2 g stage1 (FlatGen 3 (FlatYield page)) above t))
        (c, w').
Proof.
  induction page as [|x page IH]; intros results t Hrest.
  - specialize (Hrest t). by rewrite app_nil_r in Hrest.
  - destruct (IH (results ++ [x]) (Pull 5 :: t)) as [w' Hw'].
    { intros t'. specialize (Hrest t'). by rewrite <- app_assoc. }
    exists w'. eapply collect_loop_rule; [apply flat_next_pending|]. exact Hw'.
Qed.

Section FlatPack.
Variable n : nat.
Hypothesis n_pos : 0 < n.

Let size := number_of_nat n.

Lemma collect_flat_pack_rest above t (results : list JSValue) :
  exists w',
    eventually
      (fun call m =>
         AsyncStream.collect_loop call m 5 results
           (staged2 Completed (PackGen 1 size PackYieldRest)
              (FlatGen 3 (FlatYield [])) above t))
      (Normal results, w').
Proof.
  eexists. eapply collect_loop_rule.
  - eapply flat_next_loop;
      [by right
      |eapply flat_loop_rule; [apply pack_next_rest|reflexivity]
      |reflexivity].
  - reflexivity.
Qed.

Lemma collect_flat_pack (R : list JSValue) :
  forall (at1 : pack_point) (at2 : flat_point) (results : list JSValue)
         above t,
    at1 <> PackYieldRest -> at_loop_head at2 ->
    exists w',
      eventually
        (fun call m =>
           AsyncStream.collect_loop call m 5 results
             (staged2 (SourceGen R) (PackGen 1 size at1) (FlatGen 3 at2)
                above t))
        (Normal (results ++ R), w').
Proof.
  remember (length R) as len eqn:Hlen. revert R Hlen.
  induction len as [len IH] using lt_wf_ind.
  intros R -> at1 at2 results above t Hat1 Hat2.
  destruct (pack_next n n_pos R at1 (Generator (FlatGen 3 at2) :: Stream 4 :: above)
              (Pull 5 :: t) Hat1) as [t' Hnext].
  fold size in Hnext.
  destruct (Nat.leb_spec n (length R)) as [Hfull|Hshort].
  - destruct (firstn n R) as [|x page] eqn:Hpage.
    { apply (f_equal length) in Hpage. rewrite length_firstn in Hpage.
      simpl in Hpage. lia. }
    destruct (collect_flat_pending (SourceGen (skipn n R))
                (PackGen 1 size PackYieldFull) above
                (Normal (results ++ R)) page (results ++ [x]) t')
      as [w' Hw'].
    { intros t''.
      destruct (IH (length (skipn n R))) with (R := skipn n R)
        (at1 := PackYieldFull) (at2 := FlatYield [])
        (results := (results ++ [x]) ++ page) (above := above) (t := t'')
        as [w' Hw']; [rewrite length_skipn; lia|done|done|by right|].
      exists w'.
      replace (results ++ R) with (((results ++ [x]) ++ page) ++ skipn n R);
        [done|].
      rewrite <- !app_assoc. simpl.
      by rewrite app_comm_cons, <- Hpage, take_drop. }
    exists w'. eapply collect_loop_rule.
    + eapply flat_next_loop;
        [done|eapply flat_loop_rule; [exact Hnext|reflexivity]|reflexivity].
    + exact Hw'.
  - destruct R as [|x page]; simpl in Hnext.
    + eexists. eapply collect_loop_rule.
      * eapply flat_next_loop;
          [done|eapply flat_loop_rule; [exact Hnext|reflexivity]|reflexivity].
      * simpl. by rewrite app_nil_r.
    + destruct (collect_flat_pending Completed
                  (PackGen 1 size PackYieldRest) above
                  (Normal (results ++ x :: page)) page (results ++ [x]) t')
        as [w' Hw'].
      { intros t''.
        destruct (collect_flat_pack_rest above t'' ((results ++ [x]) ++ page))
          as [w' Hw'].
        exists w'. by rewrite <- !app_assoc in *. }
      exists w'. eapply collect_loop_rule.
      * eapply flat_next_loop;
          [done|eapply flat_loop_rule; [exact Hnext|reflexivity]|reflexivity].
      * exact Hw'.
Qed.
End FlatPack.

(** C1. For a positive integer [n], collecting [flat()] of [pack(n)] of a
    finite source answers the items of the source, unchanged. *)
Theorem flat_pack_roundtrip (items : list JSValue) (n : nat) :
  0 < n ->
  exists f w w',
    (let* s := source items in
     let* p := AsyncStream.pack s (number_of_nat n) in
     AsyncStream.flat p) empty_world = (Normal f, w) /\
    collects f w (Normal items, w').
Proof.
  intros Hn.
  destruct (collect_flat_pack n Hn items PackStart FlatStart [] [] [])
    as [w' Hw']; [done|by left|].
  exists 5, (staged2 (SourceGen items) (PackGen 1 (number_of_nat n) PackStart)
               (FlatGen 3 FlatStart) [] []), w'.
  split.
  - unfold bind. rewrite source_spec, pack_positive by done. reflexivity.
  - by apply collects_intro.
Qed.

Lemma flat_pack_roundtrip_witness :
  0 < 2 /\
  exists f w w',
    (let* s := source [VString "a"; VString "b"; VString "c"] in
     let* p := AsyncStream.pack s (number_of_nat 2) in
     AsyncStream.flat p) empty_world = (Normal f, w) /\
    collects f w (Normal [VString "a"; VString "b"; VString "c"], w').
Proof.
  split; [lia|].
  apply (flat_pack_roundtrip [VString "a"; VString "b"; VString "c"] 2). lia.
Defined.

(** ** Collecting the source itself *)

Lemma collect_source (R : list JSValue) :
  forall (results : list JSValue) above t,
  exists t',
    eventually
      (fun call m =>
         AsyncStream.collect_loop call m 1 results
           (on_source (SourceGen R) above t))
      (Normal (results ++ R), on_source Completed above t').
Proof.
  induction R as [|x R IH]; intros results above t.
  - eexists. eapply collect_loop_rule; [apply source_next_end|]. simpl.
    by rewrite app_nil_r.
  - destruct (IH (results ++ [x]) above (Pull 1 :: t)) as [t' Ht'].
    exists t'. eapply collect_loop_rule; [apply source_next_item|]. simpl.
    by rewrite <- app_assoc in Ht'.
Qed.

Lemma collects_fun (this : ref) (w : world)
    (y y' : completion (list JSValue) * world) :
  collects this w y -> collects this w y' -> y = y'.
Proof.
  intros [k Hk] [k' Hk'].
  specialize (Hk (k `max` k')). specialize (Hk' (k `max` k')).
  rewrite Hk in Hk' by lia. injection Hk' as ->; [done|lia].
Qed.

(** ** [take] over the source *)

(** The value of [count] when the body of [take] is resumed. *)
Definition taken (at_ : take_point) : nat :=
  match at_ with TakeStart => 0 | TakeYield count => S count end.

(** What the source is left as after [m] more items were asked of it, and
    how often it was asked. *)
Definition source_after (m : nat) (R : list JSValue) : generator :=
  if m <=? length R then SourceGen (skipn m R) else Completed.

Section TakeOnSource.
Variable n : nat.
Hypothesis n_pos : 0 < n.

Let size := number_of_nat n.

Lemma take_positive (self : ref) :
  AsyncStream.take self size =
    AsyncStream.of_generator (TakeGen self size TakeStart).
Proof.
  unfold AsyncStream.take, size. rewrite num_lt_nat, num_eq_nat.
  by destruct (Nat.eqb_spec n 0); [lia|].
Qed.

Lemma take_next_exit (g : generator) (at_ : take_point) above t :
  n <= taken at_ ->
  run_to (staged g (TakeGen 1 size at_) above t) 3 Next
    (Normal (finished VUndefined), staged g Completed above (Pull 3 :: t)).
Proof.
  intros Hle.
  assert (num_lt (number_of_nat (taken at_)) size = false) as Hlt.
  { unfold size. rewrite num_lt_nat.
    by destruct (Nat.ltb_spec (taken at_) n); [lia|]. }
  eapply run_stream_next; [reflexivity|].
  eapply run_generator;
    [reflexivity
    |apply eventually_now; intros call ?;
     destruct at_; simpl in *; unfold take_turn; by rewrite Hlt
    |reflexivity].
Qed.

Lemma take_next_pull (g : generator) (at_ : take_point) above t
    (c : completion IteratorResult) (w1 : world) (x : settled) :
  taken at_ < n ->
  run_to (staged g (TakeGen 1 size at_) above (Pull 3 :: t)) 1 Next (c, w1) ->
  x = settle 2
        (match c with
         | Throw e => Raise e
         | Normal r =>
             if done r then Finish VUndefined
             else Yield (value r) (TakeGen 1 size (TakeYield (taken at_)))
         end) w1 ->
  run_to (staged g (TakeGen 1 size at_) above t) 3 Next x.
Proof.
  intros Hlt Hnext ->.
  assert (num_lt (number_of_nat (taken at_)) size = true) as Hlt'.
  { unfold size. rewrite num_lt_nat.
    by destruct (Nat.ltb_spec (taken at_) n); [|lia]. }
  pose proof (take_turn_rule Hnext size (taken at_) Hlt') as Hturn.
  eapply run_stream_next; [reflexivity|].
  eapply run_generator; [reflexivity|by destruct at_|reflexivity].
Qed.

Lemma collect_take (m : nat) :
  forall (R : list JSValue) (at_ : take_point) (results : list JSValue)
         above t,
    taken at_ + m = n ->
    exists t',
      eventually
        (fun call k =>
           AsyncStream.collect_loop call k 3 results
             (staged (SourceGen R) (TakeGen 1 size at_) above t))
        (Normal (results ++ firstn m R),
         staged (source_after m R) Completed above t') /\
      pulls_on 1 t' = pulls_on 1 t + m `min` S (length R).
Proof.
  induction m as [|m IH]; intros R at_ results above t Hm.
  - eexists. split.
    + eapply collect_loop_rule; [apply take_next_exit; lia|]. simpl.
      unfold source_after. simpl. by rewrite app_nil_r, drop_0.
    + unfold pulls_on. simpl. lia.
  - destruct R as [|x R].
    + eexists. split.
      * eapply collect_loop_rule.
        { eapply take_next_pull; [lia|apply source_next_end|reflexivity]. }
        simpl. by rewrite app_nil_r.
      * unfold pulls_on. simpl. lia.
    + destruct (IH R (TakeYield (taken at_)) (results ++ [x]) above
                  (Pull 1 :: Pull 3 :: t)) as (t' & Hev & Hpulls);
        [simpl; lia|].
      exists t'. split.
      * eapply collect_loop_rule.
        { eapply take_next_pull; [lia|apply source_next_item|reflexivity]. }
        simpl. rewrite <- app_assoc in Hev. exact Hev.
      * rewrite Hpulls. unfold pulls_on. simpl. lia.
Qed.
End TakeOnSource.

Lemma source_next_after (m : nat) (R : list JSValue) above t :
  run_to (on_source (source_after m R) above t) 1 Next
    (Normal (match R !! m with
             | Some x => yielded x
             | None => finished VUndefined
             end),
     on_source (source_after (S m) R) above (Pull 1 :: t)).
Proof.
  unfold source_after.
  destruct (R !! m) as [x|] eqn:Hm.
  - pose proof (lookup_lt_Some _ _ _ Hm).
    destruct (Nat.leb_spec m (length R)); [|lia].
    destruct (Nat.leb_spec (S m) (length R)); [|lia].
    rewrite (drop_S _ _ _ Hm). apply source_next_item.
  - apply lookup_ge_None in Hm.
    destruct (Nat.leb_spec (S m) (length R)); [lia|].
    destruct (Nat.leb_spec m (length R)).
    + rewrite drop_ge by lia. apply source_next_end.
    + apply source_next_completed.
Qed.

(** The behaviour C3 describes for [take(n)] on a source [items]:
    collecting the stage answers the first [min(n, L)] items; the next
    pull on the original stream then answers item [n], or reports
    exhaustion; and the stage has pulled its upstream [n] times when the
    source held that many items, or [L + 1] times (the last pull being
    the one that met the end) when it did not. *)
Definition take_law (items : list JSValue) (n : nat) : Prop :=
  exists s tk w w' w'',
    (let* s := source items in
     let* tk := AsyncStream.take s (number_of_nat n) in
     ret (s, tk)) empty_world = (Normal (s, tk), w) /\
    collects tk w (Normal (firstn n items), w') /\
    run_to w' s Next
      (Normal (match items !! n with
               | Some x => yielded x
               | None => finished VUndefined
               end), w'') /\
    pulls_on s (trace w') = n `min` S (length items).

(** C3, amended to a positive [n].  For every positive integer [n] and
    every finite source [items] of length [L]: collecting [take(n)]
    answers the first [min(n, L)] items in order; the next pull on the
    original stream answers item [n], or reports exhaustion when
    [n >= L]; and the stage pulls its upstream [n] times, no more, when
    the source holds [n] items ([L + 1] times when it holds fewer). *)
Theorem take_positive_law (items : list JSValue) (n : nat) :
  0 < n -> take_law items n.
Proof.
  intros Hn.
  destruct (collect_take n Hn n items TakeStart [] [] []) as (t' & Hev & Hpulls);
    [done|].
  exists 1, 3. do 3 eexists. split; [|split; [|split]].
  - unfold bind. rewrite source_spec, take_positive by done. reflexivity.
  - apply collects_intro. exact Hev.
  - apply source_next_after.
  - exact Hpulls.
Qed.

Lemma take_positive_law_witness :
  0 < 2 /\ take_law [VString "a"; VString "b"; VString "c"] 2.
Proof. split; [lia|]. apply take_positive_law. lia. Defined.

(** C3 fails for [n = 0]: [take(0)] is the stream itself, and collecting
    it answers every item of the source, not none. *)
Lemma take_zero_not_law : ~ take_law [VString "a"] 0.
Proof.
  intros (s & tk & w & w' & w'' & Hcall & Hcollect & _).
  injection Hcall as <- <- <-.
  destruct (collect_source [VString "a"] [] [] []) as [t' Ht'].
  apply collects_intro in Ht'.
  pose proof (collects_fun _ _ _ _ Hcollect Ht') as Heq.
  discriminate Heq.
Qed.

(** ** [takeLast] over the source *)

Definition lastn {A} (n : nat) (l : list A) : list A :=
  skipn (length l - n) l.

Lemma lastn_slide {A} (n : nat) (window R : list A) (x : A) :
  0 < n -> length window <= n ->
  lastn n ((if n <? length (window ++ [x])
            then tail (window ++ [x]) else window ++ [x]) ++ R)
  = lastn n (window ++ x :: R).
Proof.
  intros Hn Hlen. unfold lastn.
  destruct (Nat.ltb_spec n (length (window ++ [x]))) as [H|H];
    rewrite length_app in H; simpl in H.
  - destruct window as [|a window]; simpl in *; [lia|].
    rewrite !length_app. simpl.
    replace (length window + 1 + length R - n) with (length R) by lia.
    replace (S (length window + S (length R)) - n) with (S (length R)) by lia.
    simpl. by rewrite <- app_assoc.
  - by rewrite <- app_assoc.
Qed.

Section TakeLastOnSource.
Variable n : nat.
Hypothesis n_pos : 0 < n.

Let size := number_of_nat n.

Lemma takeLast_positive (self : ref) :
  AsyncStream.takeLast self size =
    AsyncStream.of_generator (TakeLastGen self size TakeLastStart).
Proof.
  unfold AsyncStream.takeLast, size. rewrite num_le_nat.
  by destruct (Nat.leb_spec n 0); [lia|].
Qed.

(** The loop of [takeLast] runs the source dry before it stops. *)
Lemma takeLast_loop_source (R : list JSValue) :
  forall (results : list JSValue) above t,
    length results <= n ->
    exists t',
      eventually
        (fun call m => takeLast_loop call m 1 size results
                         (on_source (SourceGen R) above t))
        (takeLast_emit 1 size (lastn n (results ++ R)),
         on_source Completed above t') /\
      pulls_on 1 t' = pulls_on 1 t + S (length R).
Proof.
  induction R as [|x R IH]; intros results above t Hlen.
  - eexists. split.
    + eapply takeLast_loop_rule; [apply source_next_end|]. simpl.
      unfold lastn. rewrite app_nil_r.
      replace (length results - n) with 0 by lia. by rewrite drop_0.
    + unfold pulls_on. simpl. lia.
  - destruct (IH (if n <? length (results ++ [x])
                  then tail (results ++ [x]) else results ++ [x])
                above (Pull 1 :: t)) as (t' & Hev & Hpulls).
    { destruct (Nat.ltb_spec n (length (results ++ [x]))) as [H|H];
        [|done].
      rewrite length_tl, length_app in *. simpl in *. lia. }
    exists t'. split.
    + eapply takeLast_loop_rule; [apply source_next_item|]. simpl.
      unfold size. rewrite num_lt_nat.
      by rewrite lastn_slide in Hev.
    + rewrite Hpulls. unfold pulls_on. simpl. lia.
Qed.

Lemma takeLast_next_start (R : list JSValue) above t :
  exists t',
    run_to (staged (SourceGen R) (TakeLastGen 1 size TakeLastStart) above t)
      3 Next
      (settle 2 (takeLast_emit 1 size (lastn n R))
         (staged Completed (TakeLastGen 1 size TakeLastStart) above t')) /\
    pulls_on 1 t' = pulls_on 1 t + S (length R).
Proof.
  destruct (takeLast_loop_source R []
              (Generator (TakeLastGen 1 size TakeLastStart) :: Stream 2 :: above)
              (Pull 3 :: t)) as (t' & Hev & Hpulls); [simpl; lia|].
  exists t'. split; [|rewrite Hpulls; unfold pulls_on; simpl; lia].
  eapply run_stream_next; [reflexivity|].
  eapply run_generator; [reflexivity|exact Hev|reflexivity].
Qed.

(** Once the loop is over, the window is handed out item by item. *)
Lemma collect_takeLast_window (g : generator) (window : list JSValue) :
  forall (results : list JSValue) above t,
  exists t',
    eventually
      (fun call m =>
         AsyncStream.collect_loop call m 3 results
           (staged g (TakeLastGen 1 size (TakeLastYield window)) above t))
      (Normal (results ++ window), staged g Completed above t') /\
    pulls_on 1 t' = pulls_on 1 t.
Proof.
  induction window as [|x window IH]; intros results above t.
  - eexists. split.
    + eapply collect_loop_rule.
      * eapply run_stream_next; [reflexivity|].
        eapply run_generator;
          [reflexivity|by apply eventually_now|reflexivity].
      * simpl. by rewrite app_nil_r.
    + done.
  - destruct (IH (results ++ [x]) above (Pull 3 :: t)) as (t' & Hev & Hpulls).
    exists t'. split; [|by rewrite Hpulls].
    eapply collect_loop_rule.
    + eapply run_stream_next; [reflexivity|].
      eapply run_generator;
        [reflexivity|by apply eventually_now|reflexivity].
    + simpl. by rewrite <- app_assoc in Hev.
Qed.

Lemma collect_takeLast (R : list JSValue) above t :
  exists t',
    eventually
      (fun call m =>
         AsyncStream.collect_loop call m 3 []
           (staged (SourceGen R) (TakeLastGen 1 size TakeLastStart) above t))
      (Normal (lastn n R), staged Completed Completed above t').
Proof.
  destruct (takeLast_next_start R above t) as (t1 & Hnext & _).
  destruct (lastn n R) as [|x window].
  - eexists. eapply collect_loop_rule; [exact Hnext|]. reflexivity.
  - destruct (collect_takeLast_window Completed window [x] above t1)
      as (t' & Hev & _).
    exists t'. eapply collect_loop_rule; [exact Hnext|]. exact Hev.
Qed.

(** On a source that has already completed. *)
Lemma collect_takeLast_exhausted above t :
  exists t',
    eventually
      (fun call m =>
         AsyncStream.collect_loop call m 3 []
           (staged Completed (TakeLastGen 1 size TakeLastStart) above t))
      (Normal [], staged Completed Completed above t').
Proof.
  eexists. eapply collect_loop_rule.
  - eapply run_stream_next; [reflexivity|].
    eapply run_generator;
      [reflexivity
      |eapply takeLast_loop_rule; [apply source_next_completed|reflexivity]
      |reflexivity].
  - reflexivity.
Qed.
End TakeLastOnSource.

Lemma length_lastn {A} (n : nat) (l : list A) :
  length (lastn n l) = n `min` length l.
Proof. unfold lastn. rewrite length_skipn. lia. Qed.

(** C4. For a positive integer [n] and a source [items] of length [L]:
    the first pull on [takeLast(n)] is settled only after the source has
    been pulled [L + 1] times and has completed; collecting the stage
    answers the last [min(n, L)] items, in their order in the source; and
    on a source stream that was already run to its end, the stage yields
    no item. *)
Theorem takeLast_law (items : list JSValue) (n : nat) :
  0 < n ->
  exists s tk w c w1 w',
    (let* s := source items in
     let* tk := AsyncStream.takeLast s (number_of_nat n) in
     ret (s, tk)) empty_world = (Normal (s, tk), w) /\
    run_to w tk Next (c, w1) /\
    c = Normal (head_of (lastn n items)) /\
    exhausted s w1 /\
    pulls_on s (trace w1) = S (length items) /\
    collects tk w (Normal (lastn n items), w') /\
    length (lastn n items) = n `min` length items /\
    exists w_src w0 tk0 w2 w3,
      source items empty_world = (Normal s, w_src) /\
      collects s w_src (Normal items, w0) /\
      exhausted s w0 /\
      AsyncStream.takeLast s (number_of_nat n) w0 = (Normal tk0, w2) /\
      collects tk0 w2 (Normal [], w3).
Proof.
  intros Hn.
  destruct (takeLast_next_start n Hn items [] []) as (t1 & Hnext & Hpulls).
  destruct (collect_takeLast n Hn items [] []) as [t' Ht'].
  destruct (collect_source items [] [] []) as [t0 Ht0].
  destruct (collect_takeLast_exhausted n [] t0) as [t3 Ht3].
  exists 1, 3. eexists.
  exists (Normal (head_of (lastn n items))),
    (store 2 (Generator
                match lastn n items with
                | x :: window =>
                    TakeLastGen 1 (number_of_nat n) (TakeLastYield window)
                | [] => Completed
                end)
       (staged Completed (TakeLastGen 1 (number_of_nat n) TakeLastStart) [] t1)).
  eexists. split; [|split; [|split; [|split; [|split; [|split; [|split]]]]]].
  - unfold bind. rewrite source_spec, takeLast_positive by done. reflexivity.
  - destruct (lastn n items); exact Hnext.
  - done.
  - by exists 0.
  - exact Hpulls.
  - apply collects_intro. exact Ht'.
  - apply length_lastn.
  - exists (on_source (SourceGen items) [] []), (on_source Completed [] t0), 3.
    do 2 eexists. split; [|split; [|split; [|split]]].
    + reflexivity.
    + apply collects_intro. exact Ht0.
    + by exists 0.
    + rewrite takeLast_positive by done. reflexivity.
    + apply collects_intro. exact Ht3.
Qed.

Lemma takeLast_law_witness :
  0 < 2 /\
  exists s tk w c w1 w',
    (let* s := source [VString "a"; VString "b"; VString "c"] in
     let* tk := AsyncStream.takeLast s (number_of_nat 2) in
     ret (s, tk)) empty_world = (Normal (s, tk), w) /\
    run_to w tk Next (c, w1) /\
    c = Normal (head_of (lastn 2 [VString "a"; VString "b"; VString "c"])) /\
    exhausted s w1 /\
    pulls_on s (trace w1) = 4 /\
    collects tk w (Normal (lastn 2 [VString "a"; VString "b"; VString "c"]), w') /\
    length (lastn 2 [VString "a"; VString "b"; VString "c"]) = 2 /\
    exists w_src w0 tk0 w2 w3,
      source [VString "a"; VString "b"; VString "c"] empty_world
        = (Normal s, w_src) /\
      collects s w_src (Normal [VString "a"; VString "b"; VString "c"], w0) /\
      exhausted s w0 /\
      AsyncStream.takeLast s (number_of_nat 2) w0 = (Normal tk0, w2) /\
      collects tk0 w2 (Normal [], w3).
Proof.
  split; [lia|].
  apply (takeLast_law [VString "a"; VString "b"; VString "c"] 2). lia.
Defined.

(** ** Argument checks *)

Lemma num_eq_not_lt (a b : number) : num_eq a b = true -> num_lt a b = false.
Proof.
  unfold num_eq, num_lt. destruct a as [| | |x], b as [| | |y]; try done.
  intros H. apply Qeq_bool_iff in H.
  apply negb_false_iff, Qle_bool_iff. rewrite H. apply Qle_refl.
Qed.

(** C7. For every stream [s], in every world, [take(n)] with [n === 0]
    answers [s] itself and leaves the world as it was: no stage is
    created, and the trace records no pull, so the position of the
    upstream is unchanged. *)
Theorem take_zero_same_stream (n : number) (s : ref) (w : world) :
  num_eq n (number_of_nat 0) = true ->
  AsyncStream.take s n w = (Normal s, w).
Proof.
  intros Hzero. unfold AsyncStream.take.
  by rewrite (num_eq_not_lt _ _ Hzero), Hzero.
Qed.

Lemma take_zero_same_stream_witness :
  num_eq (number_of_nat 0) (number_of_nat 0) = true /\
  AsyncStream.take 1 (number_of_nat 0) (on_source (SourceGen [VString "a"]) [] [])
  = (Normal 1, on_source (SourceGen [VString "a"]) [] []).
Proof.
  split; [reflexivity|].
  apply (take_zero_same_stream (number_of_nat 0) 1
           (on_source (SourceGen [VString "a"]) [] [])).
  reflexivity.
Defined.

(** [x] is one of 1, 2, 3, ... *)
Definition positive_integer (x : number) : Prop :=
  exists k : nat, 0 < k /\ num_eq x (number_of_nat k) = true.

(** What C5 says of [pack]: a [packageSize] that is not a positive
    integer makes the call throw a [RangeError] and leaves the world as
    it was. *)
Definition pack_rejects (packageSize : number) : Prop :=
  ~ positive_integer packageSize ->
  forall (self : ref) (w : world),
  exists message,
    AsyncStream.pack self packageSize w = (Throw (RangeError message), w).

Lemma fraction_not_integer (k : nat) :
  num_eq (number_of_nat k) (Finite (5 # 2)) = false.
Proof.
  unfold num_eq, number_of_nat, Qeq_bool. simpl.
  apply Z.eqb_neq. lia.
Qed.

(** C5 fails for a positive [packageSize] that is not an integer: the
    guard of [pack] is [packageSize <= 0], and [2.5] passes it. *)
Lemma pack_accepts_fraction : ~ pack_rejects (Finite (5 # 2)).
Proof.
  intros Hrej.
  destruct (Hrej) with (self := 1) (w := on_source (SourceGen []) [] [])
    as [message Hthrow].
  - intros (k & _ & Hk).
    unfold num_eq, number_of_nat, Qeq_bool in Hk.
    apply Z.eqb_eq in Hk. simpl in Hk. lia.
  - discriminate Hthrow.
Qed.

(** C5, amended to the tests the code makes: [packageSize <= 0] for
    [pack] and [repack], [n < 0] for [skip] and [take], [n <= 0] for
    [takeLast].  The call throws, and the world (objects and trace) is
    the one it was made in. *)
Theorem guards_reject (size n : number) (self : ref) (w : world) :
  num_le size (number_of_nat 0) = true ->
  num_lt n (number_of_nat 0) = true ->
  AsyncStream.pack self size w
    = (Throw (RangeError "packageSize must be a positive integer."), w) /\
  AsyncStream.repack self size w
    = (Throw (RangeError "packageSize must be a positive integer."), w) /\
  AsyncStream.skip self n w
    = (Throw (RangeError "n must be a non-negative integer."), w) /\
  AsyncStream.take self n w
    = (Throw (RangeError "n must be a non-negative integer."), w) /\
  AsyncStream.takeLast self size w
    = (Throw (RangeError "n must be a positive integer."), w).
Proof.
  intros Hsize Hn.
  unfold AsyncStream.pack, AsyncStream.repack, AsyncStream.skip,
    AsyncStream.take, AsyncStream.takeLast.
  by rewrite Hsize, Hn.
Qed.

Lemma guards_reject_witness :
  num_le (number_of_nat 0) (number_of_nat 0) = true /\
  num_lt (Finite (-1)) (number_of_nat 0) = true /\
  AsyncStream.pack 1 (number_of_nat 0) (on_source (SourceGen [VString "a"]) [] [])
    = (Throw (RangeError "packageSize must be a positive integer."),
       on_source (SourceGen [VString "a"]) [] []) /\
  AsyncStream.repack 1 (number_of_nat 0) (on_source (SourceGen [VString "a"]) [] [])
    = (Throw (RangeError "packageSize must be a positive integer."),
       on_source (SourceGen [VString "a"]) [] []) /\
  AsyncStream.skip 1 (Finite (-1)) (on_source (SourceGen [VString "a"]) [] [])
    = (Throw (RangeError "n must be a non-negative integer."),
       on_source (SourceGen [VString "a"]) [] []) /\
  AsyncStream.take 1 (Finite (-1)) (on_source (SourceGen [VString "a"]) [] [])
    = (Throw (RangeError "n must be a non-negative integer."),
       on_source (SourceGen [VString "a"]) [] []) /\
  AsyncStream.takeLast 1 (number_of_nat 0) (on_source (SourceGen [VString "a"]) [] [])
    = (Throw (RangeError "n must be a positive integer."),
       on_source (SourceGen [VString "a"]) [] []).
Proof.
  split; [reflexivity|]. split; [reflexivity|].
  apply (guards_reject (number_of_nat 0) (Finite (-1)) 1
           (on_source (SourceGen [VString "a"]) [] [])); reflexivity.
Defined.

(** ** [pack] with a size no array length can equal *)

Lemma num_lt_not_le (a b : number) : num_lt a b = true -> num_le b a = false.
Proof.
  unfold num_lt, num_le.
  destruct a, b; try done. by destruct (Qle_bool _ _).
Qed.

Section PackNeverFull.
Variable size : number.
Hypothesis size_pos : num_lt (number_of_nat 0) size = true.
Hypothesis size_odd : forall k : nat, num_eq (number_of_nat k) size = false.

Lemma pack_accepts :
  forall self, AsyncStream.pack self size
               = AsyncStream.of_generator (PackGen self size PackStart).
Proof.
  intros self. unfold AsyncStream.pack.
  by rewrite (num_lt_not_le _ _ size_pos).
Qed.

Lemma pack_loop_never_full (R : list JSValue) :
  forall (buffer : list JSValue) above t,
  exists t',
    eventually
      (fun call m => pack_loop call m 1 size buffer
                       (on_source (SourceGen R) above t))
      (if 0 <? length (buffer ++ R)
       then Yield (VArray (buffer ++ R)) (PackGen 1 size PackYieldRest)
       else Finish VUndefined,
       on_source Completed above t').
Proof.
  induction R as [|x R IH]; intros buffer above t.
  - eexists. eapply pack_loop_rule; [apply source_next_end|]. simpl.
    by rewrite app_nil_r.
  - destruct (IH (buffer ++ [x]) above (Pull 1 :: t)) as [t' Ht'].
    exists t'. eapply pack_loop_rule; [apply source_next_item|]. simpl.
    rewrite size_odd. by rewrite <- app_assoc in Ht'.
Qed.

Lemma pack_next_never_full (x : JSValue) (R : list JSValue) above t :
  exists t',
    run_to (staged (SourceGen (x :: R)) (PackGen 1 size PackStart) above t)
      3 Next
      (Normal (yielded (VArray (x :: R))),
       staged Completed (PackGen 1 size PackYieldRest) above t').
Proof.
  destruct (pack_loop_never_full (x :: R) []
              (Generator (PackGen 1 size PackStart) :: Stream 2 :: above)
              (Pull 3 :: t)) as [t' Ht'].
  exists t'. stream_next by exact Ht'.
Qed.

Lemma collect_pack_never_full (x : JSValue) (R : list JSValue) above t :
  exists w',
    eventually
      (fun call m =>
         AsyncStream.collect_loop call m 3 []
           (staged (SourceGen (x :: R)) (PackGen 1 size PackStart) above t))
      (Normal [VArray (x :: R)], w').
Proof.
  destruct (pack_next_never_full x R above t) as [t' Ht'].
  eexists. eapply collect_loop_rule; [exact Ht'|].
  simpl. eapply collect_loop_rule.
  - stream_next by (by apply eventually_now).
  - reflexivity.
Qed.
End PackNeverFull.

(** C10. A [packageSize] greater than [0] that no array length equals (a
    non-integer such as [2.5]) passes the guard of [pack]; on a source
    that is not empty, the first pull on the stage is answered with one
    group holding every item of the source in order, once the source has
    completed, and collecting the stage answers that group alone. *)
Theorem pack_fraction_single_group (size : number) (items : list JSValue) :
  num_lt (number_of_nat 0) size = true ->
  (forall k : nat, num_eq (number_of_nat k) size = false) ->
  items <> [] ->
  exists s p w w1 w',
    (let* s := source items in
     let* p := AsyncStream.pack s size in
     ret (s, p)) empty_world = (Normal (s, p), w) /\
    run_to w p Next (Normal (yielded (VArray items)), w1) /\
    exhausted s w1 /\
    collects p w (Normal [VArray items], w').
Proof.
  intros Hpos Hodd Hitems. destruct items as [|x R]; [done|].
  destruct (pack_next_never_full size Hodd x R [] []) as [t1 Hnext].
  destruct (collect_pack_never_full size Hodd x R [] []) as [w' Hw'].
  exists 1, 3. do 3 eexists. split; [|split; [|split]].
  - unfold bind. rewrite source_spec, pack_accepts by done. reflexivity.
  - exact Hnext.
  - by exists 0.
  - by apply collects_intro.
Qed.

Lemma pack_fraction_single_group_witness :
  num_lt (number_of_nat 0) (Finite (5 # 2)) = true /\
  (forall k : nat, num_eq (number_of_nat k) (Finite (5 # 2)) = false) /\
  [VString "a"; VString "b"; VString "c"] <> [] /\
  exists s p w w1 w',
    (let* s := source [VString "a"; VString "b"; VString "c"] in
     let* p := AsyncStream.pack s (Finite (5 # 2)) in
     ret (s, p)) empty_world = (Normal (s, p), w) /\
    run_to w p Next
      (Normal (yielded (VArray [VString "a"; VString "b"; VString "c"])), w1) /\
    exhausted s w1 /\
    collects p w (Normal [VArray [VString "a"; VString "b"; VString "c"]], w').
Proof.
  split; [reflexivity|]. split; [exact fraction_not_integer|].
  split; [discriminate|].
  apply (pack_fraction_single_group (Finite (5 # 2))
           [VString "a"; VString "b"; VString "c"]);
    [reflexivity|exact fraction_not_integer|discriminate].
Defined.

(** ** [filter] over the source *)

Lemma calls_Pull (r : ref) (t : list event) : calls (Pull r :: t) = calls t.
Proof. reflexivity. Qed.

Lemma calls_Call (x : JSValue) (i : nat) (t : list event) :
  calls (Call x i :: t) = calls t ++ [(x, i)].
Proof. reflexivity. Qed.

(** The items of [R] paired with their positions, counted from
    [index]. *)
Fixpoint indexed (index : nat) (R : list JSValue) : list (JSValue * nat) :=
  match R with
  | [] => []
  | x :: R => (x, index) :: indexed (S index) R
  end.

Section FilterOnSource.
Variable predicate : JSValue -> nat -> completion JSValue.

(** The predicate resolves, and to a truthy value. *)
Definition accepts (x : JSValue) (i : nat) : bool :=
  match predicate x i with
  | Normal b => truthy b
  | Throw _ => false
  end.

(** The items of [R] the predicate accepts, each tested with its position
    in [R] counted from [index]. *)
Fixpoint kept (index : nat) (R : list JSValue) : list JSValue :=
  match R with
  | [] => []
  | x :: R =>
      if accepts x index then x :: kept (S index) R else kept (S index) R
  end.

(** The first accepted item, its position, and the items after it. *)
Fixpoint first_kept (index : nat) (R : list JSValue)
  : option (JSValue * nat * list JSValue) :=
  match R with
  | [] => None
  | x :: R =>
      if accepts x index then Some (x, index, R) else first_kept (S index) R
  end.

(** The predicate resolves (does not reject) on every item of [R] at its
    position. *)
Definition resolves (index : nat) (R : list JSValue) : Prop :=
  forall i x, R !! i = Some x -> exists b, predicate x (index + i) = Normal b.

Lemma resolves_tail (index : nat) (x : JSValue) (R : list JSValue) :
  resolves index (x :: R) -> resolves (S index) R.
Proof.
  intros H i y Hy. destruct (H (S i) y Hy) as [b Hb].
  exists b. by replace (S index + i) with (index + S i) by lia.
Qed.

Lemma first_kept_shorter (R : list JSValue) :
  forall index x i rest,
    first_kept index R = Some (x, i, rest) -> length rest < length R.
Proof.
  induction R as [|y R IH]; intros index x i rest H; simpl in *; [done|].
  destruct (accepts y index).
  - injection H as _ _ <-. lia.
  - apply IH in H. lia.
Qed.

(** The position the body of [filter] goes on from when resumed. *)
Definition entry (at_ : filter_point) : nat :=
  match at_ with FilterStart => 0 | FilterYield index => S index end.

(** One run of the loop of [filter]: up to the first accepted item, or to
    the end of the source. *)
Lemma filter_loop_source (R : list JSValue) :
  forall (index : nat) above t,
    resolves index R ->
    exists s t',
      eventually
        (fun call m => filter_loop call m 1 predicate index
                         (on_source (SourceGen R) above t))
        (s, on_source
              (match first_kept index R with
               | Some (_, _, rest) => SourceGen rest
               | None => Completed
               end) above t') /\
      match first_kept index R with
      | Some (x, i, rest) =>
          s = Yield x (FilterGen 1 predicate (FilterYield i)) /\
          calls t' ++ indexed (S i) rest = calls t ++ indexed index R /\
          resolves (S i) rest /\
          kept index R = x :: kept (S i) rest
      | None =>
          s = Finish VUndefined /\
          calls t' = calls t ++ indexed index R /\
          kept index R = []
      end.
Proof.
  induction R as [|x R IH]; intros index above t Hres.
  - do 2 eexists. split.
    + eapply filter_loop_rule; [apply source_next_end|]. reflexivity.
    + simpl. by rewrite calls_Pull, app_nil_r.
  - destruct (Hres 0 x eq_refl) as [b Hb]. rewrite Nat.add_0_r in Hb.
    simpl. unfold accepts. rewrite Hb.
    destruct (truthy b) eqn:Hb'.
    + do 2 eexists. split.
      * eapply filter_loop_rule; [apply source_next_item|]. simpl.
        rewrite Hb, Hb'. reflexivity.
      * simpl. rewrite calls_Call, calls_Pull, <- app_assoc.
        split; [done|]. split; [done|]. split; [|done].
        by eapply resolves_tail.
    + destruct (IH (S index) above (Call x index :: Pull 1 :: t))
        as (s & t' & Hev & Hs); [by eapply resolves_tail|].
      exists s, t'. split.
      * eapply filter_loop_rule; [apply source_next_item|]. simpl.
        rewrite Hb, Hb'. exact Hev.
      * rewrite calls_Call, calls_Pull, <- app_assoc in Hs. exact Hs.
Qed.

Lemma collect_filter (R : list JSValue) :
  forall (at_ : filter_point) (results : list JSValue) above t,
    resolves (entry at_) R ->
    exists t',
      eventually
        (fun call m =>
           AsyncStream.collect_loop call m 3 results
             (staged (SourceGen R) (FilterGen 1 predicate at_) above t))
        (Normal (results ++ kept (entry at_) R),
         staged Completed Completed above t') /\
      calls t' = calls t ++ indexed (entry at_) R.
Proof.
  remember (length R) as len eqn:Hlen. revert R Hlen.
  induction len as [len IH] using lt_wf_ind.
  intros R -> at_ results above t Hres.
  destruct (filter_loop_source R (entry at_)
              (Generator (FilterGen 1 predicate at_) :: Stream 2 :: above)
              (Pull 3 :: t) Hres) as (s & t1 & Hloop & Hs).
  assert (run_to (staged (SourceGen R) (FilterGen 1 predicate at_) above t)
            3 Next
            (settle 2 s
               (on_source
                  (match first_kept (entry at_) R with
                   | Some (_, _, rest) => SourceGen rest
                   | None => Completed
                   end)
                  (Generator (FilterGen 1 predicate at_) :: Stream 2 :: above)
                  t1))) as Hnext.
  { eapply run_stream_next; [reflexivity|].
    eapply run_generator; [reflexivity| |reflexivity].
    by destruct at_. }
  destruct (first_kept (entry at_) R) as [[[x i] rest]|] eqn:Hfirst.
  - destruct Hs as (-> & Hcalls & Hres' & Hkept).
    destruct (IH (length rest)) with (R := rest) (at_ := FilterYield i)
      (results := results ++ [x]) (above := above) (t := t1)
      as (t' & Hev & Hcalls');
      [by eapply first_kept_shorter|done|done|].
    exists t'. split.
    + eapply collect_loop_rule; [exact Hnext|]. simpl.
      rewrite Hkept. by rewrite <- app_assoc in Hev.
    + rewrite Hcalls'. simpl. rewrite Hcalls. by rewrite calls_Pull.
  - destruct Hs as (-> & Hcalls & Hkept).
    exists t1. split.
    + eapply collect_loop_rule; [exact Hnext|]. simpl.
      by rewrite Hkept, app_nil_r.
    + rewrite Hcalls. by rewrite calls_Pull.
Qed.
End FilterOnSource.

(** C8. For a predicate that resolves on every item, collecting
    [filter(predicate)] over a source [items] calls the predicate exactly
    once per item, in order, with the item and its zero-based position in
    the source (rejected items counted), and answers the accepted items
    in source order. *)
Theorem filter_law (predicate : JSValue -> nat -> completion JSValue)
    (items : list JSValue) :
  (forall i x, items !! i = Some x -> exists b, predicate x i = Normal b) ->
  exists f w w',
    (let* s := source items in AsyncStream.filter s predicate) empty_world
      = (Normal f, w) /\
    collects f w (Normal (kept predicate 0 items), w') /\
    calls (trace w') = indexed 0 items.
Proof.
  intros Hres.
  destruct (collect_filter predicate items FilterStart [] [] [])
    as (t' & Hev & Hcalls); [exact Hres|].
  exists 3. do 2 eexists. split; [reflexivity|]. split.
  - apply collects_intro. exact Hev.
  - exact Hcalls.
Qed.

(** The predicate of the test-suite that keeps the items at even
    positions. *)
Definition even_index (item : JSValue) (index : nat) : completion JSValue :=
  Normal (VBoolean (Nat.even index)).

Example kept_even_index :
  kept even_index 0 [VString "a"; VString "b"; VString "c"]
  = [VString "a"; VString "c"].
Proof. reflexivity. Qed.

Lemma filter_law_witness :
  (forall i x, [VString "a"; VString "b"; VString "c"] !! i = Some x ->
               exists b, even_index x i = Normal b) /\
  exists f w w',
    (let* s := source [VString "a"; VString "b"; VString "c"] in
     AsyncStream.filter s even_index) empty_world = (Normal f, w) /\
    collects f w
      (Normal (kept even_index 0 [VString "a"; VString "b"; VString "c"]), w') /\
    calls (trace w') = indexed 0 [VString "a"; VString "b"; VString "c"].
Proof.
  split; [intros i x _; by eexists|].
  apply (filter_law even_index [VString "a"; VString "b"; VString "c"]).
  intros i x _. by eexists.
Defined.

(** ** [flat] and [repack] over a source with an item that is no array *)

Definition answers (items : list JSValue) : list (completion IteratorResult) :=
  map (fun v => Normal (yielded v)) items.

Definition arrays (groups : list (list JSValue)) : list JSValue :=
  map VArray groups.

Lemma pulls_on_Pull_other (t : list event) :
  pulls_on 1 (Pull 3 :: t) = pulls_on 1 t.
Proof. reflexivity. Qed.

Lemma pulls_on_Pull_source (t : list event) :
  pulls_on 1 (Pull 1 :: t) = S (pulls_on 1 t).
Proof. reflexivity. Qed.

Section FlatOnSource.
Variable tail_ : list JSValue.

(** The page [flat] is in the middle of. *)
Definition pending (at_ : flat_point) : list JSValue :=
  match at_ with FlatStart => [] | FlatYield page => page end.

Lemma flat_loop_item (groups : list (list JSValue)) :
  forall above t x X,
    concat groups = x :: X ->
    exists page groups' t',
      eventually
        (fun call m => flat_loop call m 1
                         (on_source (SourceGen (arrays groups ++ tail_)) above t))
        (Yield x (FlatGen 1 (FlatYield page)),
         on_source (SourceGen (arrays groups' ++ tail_)) above t') /\
      page ++ concat groups' = X /\
      pulls_on 1 t' + length groups' = pulls_on 1 t + length groups.
Proof.
  induction groups as [|[|y page] groups IH]; intros above t x X HX;
    simpl in HX.
  - done.
  - destruct (IH above (Pull 1 :: t) x X HX) as (page & groups' & t' & Hev & HX' & Hp).
    exists page, groups', t'. split; [|split; [done|]].
    + eapply flat_loop_rule; [apply source_next_item|]. exact Hev.
    + rewrite Hp, pulls_on_Pull_source. simpl. lia.
  - injection HX as -> <-.
    exists page, groups, (Pull 1 :: t). split; [|split; [done|]].
    + eapply flat_loop_rule; [apply source_next_item|]. reflexivity.
    + rewrite pulls_on_Pull_source. simpl. lia.
Qed.

Lemma flat_next_item (groups : list (list JSValue)) (at_ : flat_point)
    above t x X :
  pending at_ ++ concat groups = x :: X ->
  exists at' groups' t',
    run_to (staged (SourceGen (arrays groups ++ tail_)) (FlatGen 1 at_) above t)
      3 Next
      (Normal (yielded x),
       staged (SourceGen (arrays groups' ++ tail_)) (FlatGen 1 at') above t') /\
    pending at' ++ concat groups' = X /\
    pulls_on 1 t' + length groups' = pulls_on 1 t + length groups.
Proof.
  intros HX.
  destruct (pending at_) as [|y page] eqn:Hat.
  - destruct (flat_loop_item groups
                (Generator (FlatGen 1 at_) :: Stream 2 :: above) (Pull 3 :: t)
                x X HX) as (page & groups' & t' & Hev & HX' & Hp).
    exists (FlatYield page), groups', t'. split; [|split; [done|]].
    + stream_next by (destruct at_ as [|[|? ?]]; [exact Hev|exact Hev|done]).
    + by rewrite Hp, pulls_on_Pull_other.
  - injection HX as -> <-.
    exists (FlatYield page), groups, (Pull 3 :: t). split; [|split; [done|]].
    + destruct at_ as [|[|? ?]]; simpl in Hat; [done|done|].
      injection Hat as -> ->.
      eapply run_stream_next; [reflexivity|].
      eapply run_generator; [reflexivity|by apply eventually_now|reflexivity].
    + by rewrite pulls_on_Pull_other.
Qed.

(** As many pulls as there are items left in the arrays. *)
Lemma flat_pulled (X : list JSValue) :
  forall (groups : list (list JSValue)) (at_ : flat_point) above t,
    pending at_ ++ concat groups = X ->
    exists at' groups' t',
      eventually
        (fun _ fuel =>
           pulls fuel (length X) 3
             (staged (SourceGen (arrays groups ++ tail_)) (FlatGen 1 at_) above t))
        (answers X,
         staged (SourceGen (arrays groups' ++ tail_)) (FlatGen 1 at') above t') /\
      pending at' ++ concat groups' = [] /\
      pulls_on 1 t' + length groups' = pulls_on 1 t + length groups.
Proof.
  induction X as [|x X IH]; intros groups at_ above t HX.
  - exists at_, groups, t. split; [|done]. by apply eventually_now.
  - destruct (flat_next_item groups at_ above t x X HX)
      as (at1 & groups1 & t1 & Hnext & HX1 & Hp1).
    destruct (IH groups1 at1 above t1 HX1)
      as (at' & groups' & t' & Hev & HX' & Hp').
    exists at', groups', t'. split; [|split; [done|lia]].
    simpl. eapply pulls_rule; [exact Hnext|exact Hev].
Qed.
End FlatOnSource.

Section ShapeError.
Variable bad : JSValue.
Variable post : list JSValue.
Hypothesis bad_shape : isArray bad = false.

Lemma flat_loop_bad (groups : list (list JSValue)) :
  forall above t,
    concat groups = [] ->
    exists t',
      eventually
        (fun call m =>
           flat_loop call m 1
             (on_source (SourceGen (arrays groups ++ bad :: post)) above t))
        (Raise (TypeError
                  "Input async generator must yield arrays for flattening."),
         on_source Completed above t') /\
      pulls_on 1 t' = pulls_on 1 t + S (length groups).
Proof.
  induction groups as [|[|y page] groups IH]; intros above t HX;
    simpl in HX; [| |done].
  - exists (Pull 1 :: t). split; [|rewrite pulls_on_Pull_source; simpl; lia].
    eapply flat_loop_rule; [apply source_next_item|]. simpl.
    destruct bad; try done; do 2 eexists; (split; [apply source_return|done]).
  - destruct (IH above (Pull 1 :: t) HX) as (t' & Hev & Hp).
    exists t'. split; [|rewrite Hp, pulls_on_Pull_source; simpl; lia].
    eapply flat_loop_rule; [apply source_next_item|]. exact Hev.
Qed.

Lemma flat_next_bad (groups : list (list JSValue)) (at_ : flat_point) above t :
  pending at_ ++ concat groups = [] ->
  exists t',
    run_to (staged (SourceGen (arrays groups ++ bad :: post)) (FlatGen 1 at_)
              above t) 3 Next
      (Throw (TypeError
                "Input async generator must yield arrays for flattening."),
       staged Completed Completed above t') /\
    pulls_on 1 t' = pulls_on 1 t + S (length groups).
Proof.
  intros HX. apply app_eq_nil in HX as [Hat HX].
  destruct (flat_loop_bad groups
              (Generator (FlatGen 1 at_) :: Stream 2 :: above) (Pull 3 :: t) HX)
    as (t' & Hev & Hp).
  exists t'. split; [|by rewrite Hp, pulls_on_Pull_other].
  stream_next by (destruct at_ as [|[|? ?]]; [exact Hev|exact Hev|done]).
Qed.
End ShapeError.

(** What C6 says of a stage built on a source whose items are the arrays
    [groups], then [bad], then [post]: building the stage succeeds and
    pulls nothing; the first pulls answer [emitted], and by then the
    source has been asked for at most the items before [bad]; the next
    pull asks for [bad] and throws the [TypeError]; and on the source
    that holds the arrays [groups] only, the same number of pulls
    answers the same [emitted]. *)
Definition shape_error_law (stage : ref -> call_ ref)
    (groups : list (list JSValue)) (bad : JSValue) (post : list JSValue)
    (emitted : list JSValue) (message : string) : Prop :=
  exists s f w w1 w2 w0 w1',
    (let* s := source (arrays groups ++ bad :: post) in
     let* f := stage s in
     ret (s, f)) empty_world = (Normal (s, f), w) /\
    trace w = [] /\
    pulled (length emitted) f w (answers emitted, w1) /\
    pulls_on s (trace w1) <= length groups /\
    run_to w1 f Next (Throw (TypeError message), w2) /\
    pulls_on s (trace w2) = S (length groups) /\
    (let* s := source (arrays groups) in stage s) empty_world = (Normal f, w0) /\
    pulled (length emitted) f w0 (answers emitted, w1').

Lemma flat_shape_error (groups : list (list JSValue)) (bad : JSValue)
    (post : list JSValue) :
  isArray bad = false ->
  shape_error_law AsyncStream.flat groups bad post (concat groups)
    "Input async generator must yield arrays for flattening.".
Proof.
  intros Hbad.
  destruct (flat_pulled (bad :: post) (concat groups) groups FlatStart [] [])
    as (at1 & groups1 & t1 & Hev1 & HX1 & Hp1); [done|].
  destruct (flat_next_bad bad post Hbad groups1 at1 [] t1 HX1) as (t2 & Hnext & Hp2).
  destruct (flat_pulled [] (concat groups) groups FlatStart [] [])
    as (at0 & groups0 & t0 & Hev0 & _); [done|].
  exists 1, 3. do 5 eexists.
  split; [reflexivity|]. split; [reflexivity|].
  split; [apply pulled_intro; exact Hev1|].
  split; [simpl in *; lia|].
  split; [exact Hnext|].
  split; [simpl in *; lia|].
  split; [reflexivity|].
  apply pulled_intro. rewrite app_nil_r in Hev0. exact Hev0.
Qed.

Lemma Chunked_exists {A} (n : nat) (X : list A) :
  0 < n -> exists chunks, Chunked n X chunks.
Proof.
  intros Hn. remember (length X) as len eqn:Hlen. revert X Hlen.
  induction len as [len IH] using lt_wf_ind. intros X ->.
  destruct (Nat.leb_spec n (length X)).
  - destruct (IH (length (skipn n X))) with (X := skipn n X) as [chunks Hch];
      [rewrite length_skipn; lia|done|].
    eexists. by apply Chunked_full.
  - destruct X as [|x X].
    + eexists. apply Chunked_nil.
    + eexists. apply Chunked_rest. simpl in *. lia.
Qed.

Section RepackOnSource.
Variable n : nat.
Hypothesis n_pos : 0 < n.

Let size := number_of_nat n.

Variable tail_ : list JSValue.

Lemma repack_positive (self : ref) :
  AsyncStream.repack self size =
    AsyncStream.of_generator (RepackGen self size RepackStart []).
Proof.
  unfold AsyncStream.repack, size. rewrite num_le_nat.
  by destruct (Nat.leb_spec n 0); [lia|].
Qed.

Lemma repack_while_full (buffer : list JSValue) :
  n <= length buffer ->
  repack_while 1 size buffer =
    Some (Yield (VArray (firstn n buffer))
            (RepackGen 1 size RepackYieldFull buffer)).
Proof.
  intros Hlen. unfold repack_while, size.
  rewrite num_le_nat, slice_index_nat.
  destruct (Nat.leb_spec n (length buffer)); [|lia].
  by rewrite Nat.min_l.
Qed.

Lemma repack_while_short (buffer : list JSValue) :
  length buffer < n -> repack_while 1 size buffer = None.
Proof.
  intros Hlen. unfold repack_while, size. rewrite num_le_nat.
  by destruct (Nat.leb_spec n (length buffer)); [lia|].
Qed.

(** The loop of [repack], entered with fewer than [n] items buffered,
    when the arrays ahead hold enough to fill a group. *)
Lemma repack_loop_full (groups : list (list JSValue)) :
  forall (buffer : list JSValue) above t,
    length buffer < n ->
    n <= length (buffer ++ concat groups) ->
    exists buffer' groups' t',
      eventually
        (fun call m =>
           repack_loop call m 1 size buffer
             (on_source (SourceGen (arrays groups ++ tail_)) above t))
        (Yield (VArray (firstn n (buffer ++ concat groups)))
           (RepackGen 1 size RepackYieldFull buffer'),
         on_source (SourceGen (arrays groups' ++ tail_)) above t') /\
      skipn n buffer' ++ concat groups' = skipn n (buffer ++ concat groups) /\
      pulls_on 1 t' + length groups' = pulls_on 1 t + length groups.
Proof.
  induction groups as [|page groups IH]; intros buffer above t Hlt Hle;
    simpl in Hle.
  - rewrite app_nil_r in Hle. lia.
  - destruct (Nat.leb_spec n (length (buffer ++ page))) as [Hfull|Hshort].
    + exists (buffer ++ page), groups, (Pull 1 :: t).
      split; [|split].
      * eapply repack_loop_rule; [apply source_next_item|]. simpl.
        rewrite repack_while_full by done.
        by rewrite app_assoc, take_app_le.
      * simpl. rewrite (app_assoc buffer page).
        by rewrite (drop_app_le (buffer ++ page)).
      * rewrite pulls_on_Pull_source. simpl. lia.
    + destruct (IH (buffer ++ page) above (Pull 1 :: t))
        as (buffer' & groups' & t' & Hev & Hrest & Hp);
        [done|by rewrite <- app_assoc|].
      exists buffer', groups', t'. split; [|split].
      * eapply repack_loop_rule; [apply source_next_item|]. simpl.
        rewrite repack_while_short by done.
        by rewrite <- app_assoc in Hev.
      * simpl. by rewrite <- app_assoc in Hrest.
      * rewrite Hp, pulls_on_Pull_source. simpl. lia.
Qed.

(** The items [repack] holds that it has not handed out. *)
Definition unsent (at_ : repack_point) (buffer : list JSValue)
  : list JSValue :=
  match at_ with RepackYieldFull => skipn n buffer | _ => [] end.

Lemma drop_slice_index (buffer : list JSValue) :
  skipn (slice_index size (length buffer)) buffer = skipn n buffer.
Proof.
  unfold size. rewrite slice_index_nat.
  destruct (Nat.le_ge_cases n (length buffer)).
  - by rewrite Nat.min_l.
  - rewrite Nat.min_r by done. by rewrite !drop_ge.
Qed.

Lemma repack_next_full (groups : list (list JSValue)) (at_ : repack_point)
    (buffer : list JSValue) above t :
  at_ <> RepackYieldRest ->
  n <= length (unsent at_ buffer ++ concat groups) ->
  exists buffer' groups' t',
    run_to (staged (SourceGen (arrays groups ++ tail_))
              (RepackGen 1 size at_ buffer) above t) 3 Next
      (Normal (yielded (VArray (firstn n (unsent at_ buffer ++ concat groups)))),
       staged (SourceGen (arrays groups' ++ tail_))
         (RepackGen 1 size RepackYieldFull buffer') above t') /\
    skipn n buffer' ++ concat groups'
      = skipn n (unsent at_ buffer ++ concat groups) /\
    pulls_on 1 t' + length groups' = pulls_on 1 t + length groups.
Proof.
  intros Hat Hle.
  destruct (Nat.leb_spec n (length (unsent at_ buffer))) as [Hfull|Hshort].
  - destruct at_; simpl in Hfull; [lia| |done].
    exists (skipn n buffer), groups, (Pull 3 :: t). split; [|split].
    + simpl. rewrite (take_app_le (skipn n buffer)) by done.
      stream_next by
        (apply eventually_now; intros call m; simpl;
         by rewrite drop_slice_index, repack_while_full).
    + simpl. by rewrite (drop_app_le (skipn n buffer)).
    + by rewrite pulls_on_Pull_other.
  - destruct (repack_loop_full groups (unsent at_ buffer)
                (Generator (RepackGen 1 size at_ buffer) :: Stream 2 :: above)
                (Pull 3 :: t) Hshort Hle)
      as (buffer' & groups' & t' & Hev & Hrest & Hp).
    exists buffer', groups', t'. split; [|split; [done|]].
    + stream_next by
        (destruct at_; simpl;
           [exact Hev
           |by rewrite drop_slice_index, repack_while_short
           |done]).
    + by rewrite Hp, pulls_on_Pull_other.
Qed.
End RepackOnSource.

Section RepackPulls.
Variable n : nat.
Hypothesis n_pos : 0 < n.

Let size := number_of_nat n.

(** As many pulls as the items at hand fill groups. *)
Lemma repack_pulled (tail_ : list JSValue) (X : list JSValue)
    (chunks : list (list JSValue)) :
  Chunked n X chunks ->
  forall (groups : list (list JSValue)) (at_ : repack_point)
         (buffer : list JSValue) above t,
    at_ <> RepackYieldRest ->
    unsent n at_ buffer ++ concat groups = X ->
    exists at' buffer' groups' t',
      eventually
        (fun _ fuel =>
           pulls fuel (length X / n) 3
             (staged (SourceGen (arrays groups ++ tail_))
                (RepackGen 1 size at_ buffer) above t))
        (answers (arrays (firstn (length X / n) chunks)),
         staged (SourceGen (arrays groups' ++ tail_))
           (RepackGen 1 size at' buffer') above t') /\
      at' <> RepackYieldRest /\
      length (unsent n at' buffer' ++ concat groups') < n /\
      pulls_on 1 t' + length groups' = pulls_on 1 t + length groups.
Proof.
  induction 1 as [|X chunks Hlen _ IH|X Hlen];
    intros groups at_ buffer above t Hat HX.
  - simpl length. rewrite Nat.Div0.div_0_l.
    exists at_, buffer, groups, t. split; [by apply eventually_now|].
    rewrite HX. simpl. split; [done|]. split; [lia|done].
  - subst X.
    destruct (repack_next_full n n_pos tail_ groups at_ buffer above t Hat Hlen)
      as (buffer1 & groups1 & t1 & Hnext & Hrest & Hp1).
    destruct (IH groups1 RepackYieldFull buffer1 above t1)
      as (at' & buffer' & groups' & t' & Hev & Hat' & Hlt & Hp'); [done|done|].
    exists at', buffer', groups', t'. split; [|split; [done|split; [done|lia]]].
    assert (length (unsent n at_ buffer ++ concat groups) / n
            = S (length (skipn n (unsent n at_ buffer ++ concat groups)) / n))
      as ->.
    { rewrite length_skipn.
      replace (length (unsent n at_ buffer ++ concat groups))
        with (1 * n + (length (unsent n at_ buffer ++ concat groups) - n))
        at 1 by lia.
      by rewrite Nat.div_add_l by lia. }
    simpl. eapply pulls_rule; [exact Hnext|exact Hev].
  - rewrite Nat.div_small by lia.
    exists at_, buffer, groups, t. split; [by apply eventually_now|].
    rewrite HX. split; [done|]. split; [lia|done].
Qed.

Section Bad.
Variable bad : JSValue.
Variable post : list JSValue.
Hypothesis bad_shape : isArray bad = false.

Lemma repack_loop_bad (groups : list (list JSValue)) :
  forall (buffer : list JSValue) above t,
    length (buffer ++ concat groups) < n ->
    exists t',
      eventually
        (fun call m =>
           repack_loop call m 1 size buffer
             (on_source (SourceGen (arrays groups ++ bad :: post)) above t))
        (Raise (TypeError "Input async generator must yield arrays for repack."),
         on_source Completed above t') /\
      pulls_on 1 t' = pulls_on 1 t + S (length groups).
Proof.
  induction groups as [|page groups IH]; intros buffer above t Hlt.
  - exists (Pull 1 :: t). split; [|rewrite pulls_on_Pull_source; simpl; lia].
    eapply repack_loop_rule; [apply source_next_item|]. simpl.
    destruct bad; try done; do 2 eexists; (split; [apply source_return|done]).
  - simpl in Hlt. rewrite app_assoc in Hlt.
    destruct (IH (buffer ++ page) above (Pull 1 :: t) Hlt) as (t' & Hev & Hp).
    exists t'. split; [|rewrite Hp, pulls_on_Pull_source; simpl; lia].
    eapply repack_loop_rule; [apply source_next_item|]. simpl.
    unfold size. rewrite repack_while_short; [exact Hev|..]; try done.
    rewrite !length_app in *. lia.
Qed.

Lemma repack_next_bad (groups : list (list JSValue)) (at_ : repack_point)
    (buffer : list JSValue) above t :
  at_ <> RepackYieldRest ->
  length (unsent n at_ buffer ++ concat groups) < n ->
  exists t',
    run_to (staged (SourceGen (arrays groups ++ bad :: post))
              (RepackGen 1 size at_ buffer) above t) 3 Next
      (Throw (TypeError "Input async generator must yield arrays for repack."),
       staged Completed Completed above t') /\
    pulls_on 1 t' = pulls_on 1 t + S (length groups).
Proof.
  intros Hat Hlt.
  destruct (repack_loop_bad groups (unsent n at_ buffer)
              (Generator (RepackGen 1 size at_ buffer) :: Stream 2 :: above)
              (Pull 3 :: t) Hlt) as (t' & Hev & Hp).
  exists t'. split; [|by rewrite Hp, pulls_on_Pull_other].
  stream_next by
    (destruct at_; simpl;
       [exact Hev
       |unfold size; rewrite drop_slice_index, repack_while_short;
          [exact Hev|..]; try done;
          simpl in Hlt; rewrite length_app in Hlt; lia
       |done]).
Qed.
End Bad.
End RepackPulls.

Lemma repack_shape_error (groups : list (list JSValue)) (bad : JSValue)
    (post : list JSValue) (n : nat) (chunks : list (list JSValue)) :
  isArray bad = false ->
  0 < n ->
  Chunked n (concat groups) chunks ->
  shape_error_law (fun s => AsyncStream.repack s (number_of_nat n))
    groups bad post
    (arrays (firstn (length (concat groups) / n) chunks))
    "Input async generator must yield arrays for repack.".
Proof.
  intros Hbad Hn Hch.
  assert (length (arrays (firstn (length (concat groups) / n) chunks))
          = length (concat groups) / n) as Hlen.
  { unfold arrays. rewrite length_map, length_firstn.
    rewrite (Chunked_count n _ chunks Hn Hch).
    apply Nat.min_l, Nat.Div0.div_le_mono. lia. }
  destruct (repack_pulled n Hn (bad :: post) (concat groups) chunks Hch
              groups RepackStart [] [] [])
    as (at1 & buffer1 & groups1 & t1 & Hev1 & Hat1 & Hlt1 & Hp1); [done|done|].
  destruct (repack_next_bad n Hn bad post Hbad groups1 at1 buffer1 [] t1 Hat1 Hlt1)
    as (t2 & Hnext & Hp2).
  destruct (repack_pulled n Hn [] (concat groups) chunks Hch
              groups RepackStart [] [] [])
    as (at0 & buffer0 & groups0 & t0 & Hev0 & _); [done|done|].
  exists 1, 3. do 5 eexists.
  split; [unfold bind; rewrite source_spec, repack_positive by done; reflexivity|].
  split; [reflexivity|].
  split; [apply pulled_intro; rewrite Hlen; exact Hev1|].
  split; [simpl in *; lia|].
  split; [exact Hnext|].
  split; [simpl in *; lia|].
  split; [unfold bind; rewrite source_spec, repack_positive by done; reflexivity|].
  apply pulled_intro. rewrite Hlen. rewrite app_nil_r in Hev0. exact Hev0.
Qed.

(** C6. On a source whose item [k] is the first that is no array (the
    arrays [groups] come before it, [k = length groups]), [flat()] and
    [repack(n)] are built without error and without a pull; [flat] first
    answers every element of the arrays before item [k], [repack(n)]
    every full group of [n] of them; up to there the source has been
    asked for no more than those [k] arrays, and the same pulls on the
    well-shaped prefix answer the same values; the pull after that asks
    the source for item [k] and throws the [TypeError]. *)
Theorem shape_error_at_offending_pull (groups : list (list JSValue))
    (bad : JSValue) (post : list JSValue) (n : nat) :
  isArray bad = false ->
  0 < n ->
  shape_error_law AsyncStream.flat groups bad post (concat groups)
    "Input async generator must yield arrays for flattening." /\
  exists chunks,
    Chunked n (concat groups) chunks /\
    shape_error_law (fun s => AsyncStream.repack s (number_of_nat n))
      groups bad post
      (arrays (firstn (length (concat groups) / n) chunks))
      "Input async generator must yield arrays for repack.".
Proof.
  intros Hbad Hn. split; [by apply flat_shape_error|].
  destruct (Chunked_exists n (concat groups) Hn) as [chunks Hch].
  exists chunks. split; [done|]. by apply repack_shape_error.
Qed.

Lemma shape_error_at_offending_pull_witness :
  isArray (VString "x") = false /\
  0 < 2 /\
  shape_error_law AsyncStream.flat
    [[VString "a"; VString "b"]; [VString "c"]] (VString "x") [VArray []]
    (concat [[VString "a"; VString "b"]; [VString "c"]])
    "Input async generator must yield arrays for flattening." /\
  exists chunks,
    Chunked 2 (concat [[VString "a"; VString "b"]; [VString "c"]]) chunks /\
    shape_error_law (fun s => AsyncStream.repack s (number_of_nat 2))
      [[VString "a"; VString "b"]; [VString "c"]] (VString "x") [VArray []]
      (arrays (firstn (3 / 2) chunks))
      "Input async generator must yield arrays for repack.".
Proof.
  split; [reflexivity|]. split; [lia|].
  apply (shape_error_at_offending_pull
           [[VString "a"; VString "b"]; [VString "c"]] (VString "x")
           [VArray []] 2); [reflexivity|lia].
Defined.

(** ** [skip] over any upstream

    [skip(a).skip(b)] puts a stage on a stage, so [skip] is proved here
    over an upstream that is only known by what it does: its objects
    take the first [base] references, [up] is its stream, and a state
    [st] of those objects tells the items it will still yield. *)

Section Upstream.
Variable St : Type.
Variable objects : St -> list object.
Variable base : nat.
Variable up : ref.
Variable remaining : St -> list JSValue.

Hypothesis objects_length : forall st, length (objects st) = base.

Definition upstream_world (st : St) (above : list object) (t : list event)
  : world :=
  {| heap := objects st ++ above; trace := t |}.

(** A pull answers the first remaining item and leaves the others, or
    reports the end; no object above the upstream is touched. *)
Hypothesis up_next :
  forall st above t,
  exists st' t',
    run_to (upstream_world st above t) up Next
      (Normal (head_of (remaining st)), upstream_world st' above t') /\
    remaining st' = tail (remaining st).

Lemma lookup_stage_generator st (o : object) above t :
  heap (upstream_world st (o :: above) t) !! base = Some o.
Proof.
  simpl. rewrite <- (objects_length st). apply list_lookup_middle. done.
Qed.

Lemma lookup_stage_stream st (o o' : object) above t :
  heap (upstream_world st (o :: o' :: above) t) !! S base = Some o'.
Proof.
  simpl. rewrite <- (objects_length st).
  rewrite (lookup_app_r (objects st)) by lia.
  by replace (S (length (objects st)) - length (objects st)) with 1 by lia.
Qed.

Lemma store_stage_generator st (o o' : object) above t :
  store base o' (upstream_world st (o :: above) t)
  = upstream_world st (o' :: above) t.
Proof.
  unfold store, upstream_world. simpl. f_equal.
  rewrite <- (objects_length st).
  rewrite insert_app_r_alt by lia. by rewrite Nat.sub_diag.
Qed.

(** Collecting the upstream answers what remains. *)
Lemma collect_upstream (X : list JSValue) :
  forall st (results : list JSValue) above t,
    remaining st = X ->
    exists st' t',
      eventually
        (fun call m =>
           AsyncStream.collect_loop call m up results
             (upstream_world st above t))
        (Normal (results ++ X), upstream_world st' above t').
Proof.
  induction X as [|x X IH]; intros st results above t HX;
    destruct (up_next st above t) as (st1 & t1 & Hnext & Hrest);
    rewrite HX in Hnext, Hrest; simpl in Hrest.
  - exists st1, t1. eapply collect_loop_rule; [exact Hnext|]. simpl.
    by rewrite app_nil_r.
  - destruct (IH st1 (results ++ [x]) above t1 Hrest) as (st' & t' & Hev).
    exists st', t'. eapply collect_loop_rule; [exact Hnext|]. simpl.
    by rewrite <- app_assoc in Hev.
Qed.

Variable n : nat.
Let size := number_of_nat n.

(** The states of the stage: [None] once its generator has completed. *)
Definition skip_generator (sk : option skip_point) : generator :=
  match sk with
  | Some at_ => SkipGen up size at_
  | None => Completed
  end.

Definition skip_objects (s : St * option skip_point) : list object :=
  objects (fst s) ++ [Generator (skip_generator (snd s)); Stream base].

Definition skip_remaining (s : St * option skip_point) : list JSValue :=
  match snd s with
  | Some SkipStart => skipn n (remaining (fst s))
  | Some SkipYield => remaining (fst s)
  | None => []
  end.

Lemma skip_pass_upstream st above t :
  exists st' t',
    eventually (fun call _ => skip_pass call up size (upstream_world st above t))
      (match remaining st with
       | x :: _ => Yield x (SkipGen up size SkipYield)
       | [] => Finish VUndefined
       end, upstream_world st' above t') /\
    remaining st' = tail (remaining st).
Proof.
  destruct (up_next st above t) as (st' & t' & Hnext & Hrest).
  exists st', t'. split; [|done].
  pose proof (skip_pass_rule Hnext size) as Hpass.
  by destruct (remaining st).
Qed.

Lemma skip_loop_upstream (m : nat) :
  forall st (count : nat) above t,
    count + m = n ->
    exists st' t',
      eventually
        (fun call k => skip_loop call k up size count (upstream_world st above t))
        (match skipn m (remaining st) with
         | x :: _ => Yield x (SkipGen up size SkipYield)
         | [] => Finish VUndefined
         end, upstream_world st' above t') /\
      remaining st' = tail (skipn m (remaining st)).
Proof.
  induction m as [|m IH]; intros st count above t Hm.
  - destruct (skip_pass_upstream st above t) as (st' & t' & Hpass & Hrest).
    exists st', t'. split; [|by rewrite drop_0].
    rewrite drop_0. apply skip_loop_exit; [|exact Hpass].
    unfold size. rewrite num_lt_nat. by destruct (Nat.ltb_spec count n); [lia|].
  - assert (num_lt (number_of_nat count) size = true) as Hlt.
    { unfold size. rewrite num_lt_nat. by destruct (Nat.ltb_spec count n); [|lia]. }
    destruct (up_next st above t) as (st1 & t1 & Hnext & Hrest).
    destruct (remaining st) as [|x X] eqn:HX.
    + exists st1, t1. split; [|done].
      eapply skip_loop_rule; [exact Hnext|exact Hlt|]. reflexivity.
    + destruct (IH st1 (S count) above t1) as (st' & t' & Hev & Hrest'); [lia|].
      simpl in Hrest. rewrite Hrest in Hev, Hrest'.
      exists st', t'. split; [|done].
      eapply skip_loop_rule; [exact Hnext|exact Hlt|]. exact Hev.
Qed.

(** The stage is again an upstream: it yields what [skip_remaining]
    says. *)
Lemma skip_next (s : St * option skip_point) above t :
  exists s' t',
    run_to {| heap := skip_objects s ++ above; trace := t |} (S base) Next
      (Normal (head_of (skip_remaining s)),
       {| heap := skip_objects s' ++ above; trace := t' |}) /\
    skip_remaining s' = tail (skip_remaining s).
Proof.
  destruct s as [st sk]. unfold skip_objects, skip_remaining. simpl.
  assert (forall st0 sk0 t0,
            {| heap := (objects st0 ++ [Generator (skip_generator sk0); Stream base])
                         ++ above;
               trace := t0 |}
            = upstream_world st0
                (Generator (skip_generator sk0) :: Stream base :: above) t0)
    as Hworld.
  { intros. unfold upstream_world. by rewrite <- app_assoc. }
  rewrite Hworld.
  assert (exists s st' t',
            eventually
              (fun call k =>
                 resume call k (skip_generator sk) Next
                   (upstream_world st
                      (Generator (skip_generator sk) :: Stream base :: above)
                      (Pull (S base) :: t)))
              (s, upstream_world st'
                    (Generator (skip_generator sk) :: Stream base :: above) t') /\
            exists sk',
              settle base s
                (upstream_world st'
                   (Generator (skip_generator sk) :: Stream base :: above) t')
              = (Normal (head_of (skip_remaining (st, sk))),
                 upstream_world st'
                   (Generator (skip_generator sk') :: Stream base :: above) t') /\
              skip_remaining (st', sk') = tail (skip_remaining (st, sk)))
    as (s & st' & t' & Hev & sk' & Hsettle & Hrest).
  { unfold skip_remaining. simpl.
    destruct sk as [[|]|].
    - (* not started *)
      destruct (skip_loop_upstream n st 0
                  (Generator (skip_generator (Some SkipStart)) :: Stream base :: above)
                  (Pull (S base) :: t)) as (st' & t' & Hloop & Hrest); [done|].
      destruct (skip_pass_upstream st
                  (Generator (skip_generator (Some SkipStart)) :: Stream base :: above)
                  (Pull (S base) :: t)) as (st0 & t0 & Hpass & Hrest0).
      destruct (Nat.ltb_spec 0 n) as [Hpos|Hzero].
      + do 3 eexists. split.
        { simpl. unfold size. rewrite num_lt_nat.
          destruct (Nat.ltb_spec 0 n); [exact Hloop|lia]. }
        destruct (skipn n (remaining st)) as [|x X].
        * exists None. unfold settle. by rewrite store_stage_generator.
        * exists (Some SkipYield). unfold settle. by rewrite store_stage_generator.
      + replace (skipn n (remaining st)) with (remaining st)
          by (by replace n with 0 by lia).
        do 3 eexists. split.
        { simpl. unfold size. rewrite num_lt_nat.
          destruct (Nat.ltb_spec 0 n); [lia|exact Hpass]. }
        destruct (remaining st) as [|x X].
        * exists None. unfold settle. by rewrite store_stage_generator.
        * exists (Some SkipYield). unfold settle. by rewrite store_stage_generator.
    - (* passing items on *)
      destruct (skip_pass_upstream st
                  (Generator (skip_generator (Some SkipYield)) :: Stream base :: above)
                  (Pull (S base) :: t)) as (st0 & t0 & Hpass & Hrest0).
      do 3 eexists. split; [exact Hpass|].
      destruct (remaining st) as [|x X].
      + exists None. unfold settle. by rewrite store_stage_generator.
      + exists (Some SkipYield). unfold settle. by rewrite store_stage_generator.
    - (* completed *)
      exists (Finish VUndefined), st, (Pull (S base) :: t).
      split; [by apply eventually_now|].
      exists None. unfold settle. by rewrite store_stage_generator. }
  exists (st', sk'), t'. simpl. rewrite Hworld. split; [|exact Hrest].
  eapply run_stream_next; [apply lookup_stage_stream|].
  eapply run_generator; [apply lookup_stage_generator|exact Hev|].
  by rewrite Hsettle.
Qed.
End Upstream.

(** The source stream as an upstream. *)
Inductive source_state : Type :=
| Live (R : list JSValue)
| Dead.

Definition source_objects (st : source_state) : list object :=
  [Generator (match st with Live R => SourceGen R | Dead => Completed end);
   Stream 0].

Definition source_remaining (st : source_state) : list JSValue :=
  match st with Live R => R | Dead => [] end.

Lemma source_upstream (st : source_state) above t :
  exists st' t',
    run_to (upstream_world source_state source_objects st above t) 1 Next
      (Normal (head_of (source_remaining st)),
       upstream_world source_state source_objects st' above t') /\
    source_remaining st' = tail (source_remaining st).
Proof.
  destruct st as [[|x R]|].
  - exists Dead, (Pull 1 :: t). split; [apply source_next_end|done].
  - exists (Live R), (Pull 1 :: t). split; [apply source_next_item|done].
  - exists Dead, (Pull 1 :: t). split; [apply source_next_completed|done].
Qed.

Lemma skip_accepts (self : ref) (n : nat) :
  AsyncStream.skip self (number_of_nat n) =
    AsyncStream.of_generator (SkipGen self (number_of_nat n) SkipStart).
Proof. unfold AsyncStream.skip. by rewrite num_lt_nat. Qed.

(** [skip(n)] on the source stream, as an upstream. *)
Definition skip1_objects (n : nat) :=
  skip_objects source_state source_objects 2 1 n.

Definition skip1_remaining (n : nat) :=
  skip_remaining source_state source_remaining n.

Lemma skip1_upstream (n : nat) s above t :
  exists s' t',
    run_to (upstream_world _ (skip1_objects n) s above t) 3 Next
      (Normal (head_of (skip1_remaining n s)),
       upstream_world _ (skip1_objects n) s' above t') /\
    skip1_remaining n s' = tail (skip1_remaining n s).
Proof.
  apply (skip_next source_state source_objects 2 1 source_remaining).
  - by intros [|].
  - apply source_upstream.
Qed.

(** [skip(b)] on [skip(a)] on the source stream. *)
Lemma skip2_upstream (a b : nat) s above t :
  exists s' t',
    run_to (upstream_world _ (skip_objects _ (skip1_objects a) 4 3 b) s above t)
      5 Next
      (Normal (head_of (skip_remaining _ (skip1_remaining a) b s)),
       upstream_world _ (skip_objects _ (skip1_objects a) 4 3 b) s' above t') /\
    skip_remaining _ (skip1_remaining a) b s'
    = tail (skip_remaining _ (skip1_remaining a) b s).
Proof.
  apply (skip_next _ (skip1_objects a) 4 3 (skip1_remaining a)).
  - by intros [[|] ?].
  - apply skip1_upstream.
Qed.

(** C9. For non-negative integers [a] and [b], collecting
    [skip(a).skip(b)] and collecting [skip(a + b)] over the same source
    answer the same items: the source without its first [a + b]. *)
Theorem skip_skip_adds (items : list JSValue) (a b : nat) :
  exists s2 w2 s1 w1 w2' w1',
    (let* s := source items in
     let* p := AsyncStream.skip s (number_of_nat a) in
     AsyncStream.skip p (number_of_nat b)) empty_world = (Normal s2, w2) /\
    (let* s := source items in
     AsyncStream.skip s (number_of_nat (a + b))) empty_world = (Normal s1, w1) /\
    collects s2 w2 (Normal (skipn (a + b) items), w2') /\
    collects s1 w1 (Normal (skipn (a + b) items), w1').
Proof.
  destruct (collect_upstream _ (skip_objects _ (skip1_objects a) 4 3 b) 5
              (skip_remaining _ (skip1_remaining a) b) (skip2_upstream a b)
              (skipn (a + b) items)
              (Live items, Some SkipStart, Some SkipStart) [] [] [])
    as (s2' & t2 & Hev2).
  { unfold skip1_remaining, skip_remaining. simpl.
    by rewrite drop_drop. }
  destruct (collect_upstream _ (skip1_objects (a + b)) 3
              (skip1_remaining (a + b)) (skip1_upstream (a + b))
              (skipn (a + b) items) (Live items, Some SkipStart) [] [] [])
    as (s1' & t1 & Hev1); [done|].
  exists 5. eexists. exists 3. do 3 eexists.
  split; [|split; [|split]].
  - unfold bind. rewrite source_spec, skip_accepts.
    unfold AsyncStream.of_generator, bind. simpl.
    rewrite skip_accepts. reflexivity.
  - unfold bind. rewrite source_spec, skip_accepts. reflexivity.
  - apply collects_intro. exact Hev2.
  - apply collects_intro. exact Hev1.
Qed.

(** * The terminal operations

    [reduce], [forEach], [drain], [first], [last] and [count] drive the
    stream they are called on, like [collect].  Those that run a user
    callback inside [for await] leave the loop by a throw when the
    callback rejects, and the loop then calls [this.return()] before the
    rejection reaches the caller. *)

Module Terminal.

(** Leaving [for await (... of this)] by a throw, in an [async] method. *)
Definition close_rejecting {A} (call : caller) (this : ref) (e : exn)
    (w : world) : option (completion A * world) :=
  match call w this (Return VUndefined) with
  | None => None
  | Some (_, w') => Some (Throw e, w')
  end.

(** [reduce]; the call of the reducer is recorded with the item and the
    index it is given. *)
Fixpoint reduce_loop {U} (call : caller) (fuel : nat) (this : ref)
    (reducer : U -> JSValue -> nat -> completion U) (accumulator : U)
    (index : nat) (w : world) : option (completion U * world) :=
  match fuel with
  | 0 => None
  | S fuel =>
      match call w this Next with
      | None => None
      | Some (Throw e, w) => Some (Throw e, w)
      | Some (Normal r, w) =>
          if done r then Some (Normal accumulator, w)
          else
            let item := value r in
            let w := log (Call item index) w in
            match reducer accumulator item index with
            | Throw e => close_rejecting call this e w
            | Normal accumulator =>
                reduce_loop call fuel this reducer accumulator (S index) w
            end
      end
  end.

Definition reduce {U} (fuel : nat) (this : ref)
    (reducer : U -> JSValue -> nat -> completion U) (initialValue : U)
    (w : world) : option (completion U * world) :=
  reduce_loop (run fuel) fuel this reducer initialValue 0 w.

(** [forEach] *)
Fixpoint forEach_loop (call : caller) (fuel : nat) (this : ref)
    (action : JSValue -> nat -> completion unit) (index : nat) (w : world)
  : option (completion unit * world) :=
  match fuel with
  | 0 => None
  | S fuel =>
      match call w this Next with
      | None => None
      | Some (Throw e, w) => Some (Throw e, w)
      | Some (Normal r, w) =>
          if done r then Some (Normal tt, w)
          else
            let item := value r in
            let w := log (Call item index) w in
            match action item index with
            | Throw e => close_rejecting call this e w
            | Normal _ => forEach_loop call fuel this action (S index) w
            end
      end
  end.

Definition forEach (fuel : nat) (this : ref)
    (action : JSValue -> nat -> completion unit) (w : world)
  : option (completion unit * world) :=
  forEach_loop (run fuel) fuel this action 0 w.

(** [drain]: [for await (const _ of this);] *)
Fixpoint drain_loop (call : caller) (fuel : nat) (this : ref) (w : world)
  : option (completion unit * world) :=
  match fuel with
  | 0 => None
  | S fuel =>
      match call w this Next with
      | None => None
      | Some (Throw e, w) => Some (Throw e, w)
      | Some (Normal r, w) =>
          if done r then Some (Normal tt, w)
          else drain_loop call fuel this w
      end
  end.

Definition drain (fuel : nat) (this : ref) (w : world)
  : option (completion unit * world) :=
  drain_loop (run fuel) fuel this w.

(** [first]: [(await this.next()).value] *)
Definition first (fuel : nat) (this : ref) (w : world)
  : option (completion JSValue * world) :=
  match run fuel w this Next with
  | None => None
  | Some (Throw e, w) => Some (Throw e, w)
  | Some (Normal r, w) => Some (Normal (value r), w)
  end.

(** [last]; [lastItem] starts as [undefined]. *)
Fixpoint last_loop (call : caller) (fuel : nat) (this : ref)
    (lastItem : JSValue) (w : world) : option (completion JSValue * world) :=
  match fuel with
  | 0 => None
  | S fuel =>
      match call w this Next with
      | None => None
      | Some (Throw e, w) => Some (Throw e, w)
      | Some (Normal r, w) =>
          if done r then Some (Normal lastItem, w)
          else last_loop call fuel this (value r) w
      end
  end.

Definition last (fuel : nat) (this : ref) (w : world)
  : option (completion JSValue * world) :=
  last_loop (run fuel) fuel this VUndefined w.

(** [count] *)
Fixpoint count_loop (call : caller) (fuel : nat) (this : ref) (count : nat)
    (w : world) : option (completion nat * world) :=
  match fuel with
  | 0 => None
  | S fuel =>
      match call w this Next with
      | None => None
      | Some (Throw e, w) => Some (Throw e, w)
      | Some (Normal r, w) =>
          if done r then Some (Normal count, w)
          else count_loop call fuel this (S count) w
      end
  end.

Definition count (fuel : nat) (this : ref) (w : world)
  : option (completion nat * world) :=
  count_loop (run fuel) fuel this 0 w.

(** [this.return(value)] *)
Definition return_ (fuel : nat) (this : ref) (v : JSValue) (w : world)
  : option settled :=
  run fuel w this (Return v).

End Terminal.

(** An awaited operation, once enough fuel is given. *)
Definition settles {A} (f : nat -> option A) (a : A) : Prop :=
  exists k, forall fuel, k <= fuel -> f fuel = Some a.

Lemma settles_intro {A} (f : caller -> nat -> option A) (a : A) :
  eventually f a -> settles (fun fuel => f (run fuel) fuel) a.
Proof. intros [k Hk]. exists k. intros fuel ?. apply Hk; lia. Qed.

Lemma settles_fun {A} (f : nat -> option A) (a b : A) :
  settles f a -> settles f b -> a = b.
Proof.
  intros [k Hk] [k' Hk'].
  specialize (Hk (k `max` k')). specialize (Hk' (k `max` k')).
  rewrite Hk in Hk' by lia. injection Hk' as ->; [done|lia].
Qed.

Lemma settles_collects (this : ref) (w : world)
    (y : completion (list JSValue) * world) :
  collects this w y <-> settles (fun fuel => AsyncStream.collect fuel this w) y.
Proof. done. Qed.

Section TerminalRules.
Context {self : ref} {w w1 : world} {c : completion IteratorResult}.
Hypothesis Hnext : run_to w self Next (c, w1).

Lemma reduce_loop_rule {U} (reducer : U -> JSValue -> nat -> completion U)
    (accumulator : U) (index : nat) (y : completion U * world) :
  match c with
  | Throw e => y = (Throw e, w1)
  | Normal r =>
      if done r then y = (Normal accumulator, w1)
      else
        match reducer accumulator (value r) index with
        | Throw e =>
            exists c2 w2,
              run_to (log (Call (value r) index) w1) self
                (Return VUndefined) (c2, w2) /\
              y = (Throw e, w2)
        | Normal accumulator' =>
            eventually
              (fun call m =>
                 Terminal.reduce_loop call m self reducer accumulator'
                   (S index) (log (Call (value r) index) w1)) y
        end
  end ->
  eventually
    (fun call m => Terminal.reduce_loop call m self reducer accumulator index w)
    y.
Proof.
  destruct Hnext as [k Hk]. intros HK.
  destruct c as [r|e]; [destruct (done r) eqn:Hd|].
  - subst y. enough_fuel k. rewrite (Hk Fr Fb) by lia. simpl. by rewrite Hd.
  - destruct (reducer accumulator (value r) index) as [a'|e] eqn:Hr.
    + destruct HK as [k' Hk']. enough_fuel (k `max` k').
      rewrite (Hk Fr Fb) by lia. simpl. rewrite Hd, Hr. apply Hk'; lia.
    + destruct HK as (c2 & w2 & [k' Hk'] & ->).
      enough_fuel (k `max` k'). rewrite (Hk Fr Fb) by lia. simpl.
      rewrite Hd, Hr. unfold Terminal.close_rejecting.
      by rewrite (Hk' Fr Fb) by lia.
  - subst y. enough_fuel k. by rewrite (Hk Fr Fb) by lia.
Qed.

Lemma forEach_loop_rule (action : JSValue -> nat -> completion unit)
    (index : nat) (y : completion unit * world) :
  match c with
  | Throw e => y = (Throw e, w1)
  | Normal r =>
      if done r then y = (Normal tt, w1)
      else
        match action (value r) index with
        | Throw e =>
            exists c2 w2,
              run_to (log (Call (value r) index) w1) self
                (Return VUndefined) (c2, w2) /\
              y = (Throw e, w2)
        | Normal _ =>
            eventually
              (fun call m =>
                 Terminal.forEach_loop call m self action (S index)
                   (log (Call (value r) index) w1)) y
        end
  end ->
  eventually (fun call m => Terminal.forEach_loop call m self action index w) y.
Proof.
  destruct Hnext as [k Hk]. intros HK.
  destruct c as [r|e]; [destruct (done r) eqn:Hd|].
  - subst y. enough_fuel k. rewrite (Hk Fr Fb) by lia. simpl. by rewrite Hd.
  - destruct (action (value r) index) as [u|e] eqn:Hr.
    + destruct HK as [k' Hk']. enough_fuel (k `max` k').
      rewrite (Hk Fr Fb) by lia. simpl. rewrite Hd, Hr. apply Hk'; lia.
    + destruct HK as (c2 & w2 & [k' Hk'] & ->).
      enough_fuel (k `max` k'). rewrite (Hk Fr Fb) by lia. simpl.
      rewrite Hd, Hr. unfold Terminal.close_rejecting.
      by rewrite (Hk' Fr Fb) by lia.
  - subst y. enough_fuel k. by rewrite (Hk Fr Fb) by lia.
Qed.

Lemma drain_loop_rule (y : completion unit * world) :
  match c with
  | Throw e => y = (Throw e, w1)
  | Normal r =>
      if done r then y = (Normal tt, w1)
      else eventually (fun call m => Terminal.drain_loop call m self w1) y
  end ->
  eventually (fun call m => Terminal.drain_loop call m self w) y.
Proof.
  destruct Hnext as [k Hk]. intros HK.
  destruct c as [r|e]; [destruct (done r) eqn:Hd|].
  - subst y. enough_fuel k. rewrite (Hk Fr Fb) by lia. simpl. by rewrite Hd.
  - destruct HK as [k' Hk']. enough_fuel (k `max` k').
    rewrite (Hk Fr Fb) by lia. simpl. rewrite Hd. apply Hk'; lia.
  - subst y. enough_fuel k. by rewrite (Hk Fr Fb) by lia.
Qed.

Lemma last_loop_rule (lastItem : JSValue) (y : completion JSValue * world) :
  match c with
  | Throw e => y = (Throw e, w1)
  | Normal r =>
      if done r then y = (Normal lastItem, w1)
      else eventually
             (fun call m => Terminal.last_loop call m self (value r) w1) y
  end ->
  eventually (fun call m => Terminal.last_loop call m self lastItem w) y.
Proof.
  destruct Hnext as [k Hk]. intros HK.
  destruct c as [r|e]; [destruct (done r) eqn:Hd|].
  - subst y. enough_fuel k. rewrite (Hk Fr Fb) by lia. simpl. by rewrite Hd.
  - destruct HK as [k' Hk']. enough_fuel (k `max` k').
    rewrite (Hk Fr Fb) by lia. simpl. rewrite Hd. apply Hk'; lia.
  - subst y. enough_fuel k. by rewrite (Hk Fr Fb) by lia.
Qed.

Lemma count_loop_rule (count : nat) (y : completion nat * world) :
  match c with
  | Throw e => y = (Throw e, w1)
  | Normal r =>
      if done r then y = (Normal count, w1)
      else eventually
             (fun call m => Terminal.count_loop call m self (S count) w1) y
  end ->
  eventually (fun call m => Terminal.count_loop call m self count w) y.
Proof.
  destruct Hnext as [k Hk]. intros HK.
  destruct c as [r|e]; [destruct (done r) eqn:Hd|].
  - subst y. enough_fuel k. rewrite (Hk Fr Fb) by lia. simpl. by rewrite Hd.
  - destruct HK as [k' Hk']. enough_fuel (k `max` k').
    rewrite (Hk Fr Fb) by lia. simpl. rewrite Hd. apply Hk'; lia.
  - subst y. enough_fuel k. by rewrite (Hk Fr Fb) by lia.
Qed.

Lemma first_rule :
  settles (fun fuel => Terminal.first fuel self w)
    (match c with
     | Throw e => Throw e
     | Normal r => Normal (value r)
     end, w1).
Proof.
  destruct Hnext as [k Hk]. exists k. intros fuel Hfuel.
  unfold Terminal.first. rewrite (Hk fuel fuel) by lia. by destruct c.
Qed.
End TerminalRules.

(** ** The terminal operations on the source stream *)

Lemma exhausted_on_source above t : exhausted 1 (on_source Completed above t).
Proof. by exists 0. Qed.

Lemma count_source (R : list JSValue) :
  forall (count : nat) above t,
  exists t',
    eventually
      (fun call m =>
         Terminal.count_loop call m 1 count (on_source (SourceGen R) above t))
      (Normal (count + length R), on_source Completed above t') /\
    pulls_on 1 t' = pulls_on 1 t + S (length R).
Proof.
  induction R as [|x R IH]; intros count above t.
  - exists (Pull 1 :: t). split; [|by rewrite pulls_on_Pull_source; simpl; lia].
    eapply count_loop_rule; [apply source_next_end|]. simpl.
    by rewrite Nat.add_0_r.
  - destruct (IH (S count) above (Pull 1 :: t)) as (t' & Hev & Hp).
    exists t'. split; [|rewrite Hp, pulls_on_Pull_source; simpl; lia].
    eapply count_loop_rule; [apply source_next_item|]. simpl.
    by replace (count + S (length R)) with (S count + length R) by lia.
Qed.

Lemma default_last_cons {A} (a x : A) (R : list A) :
  default a (last (x :: R)) = default x (last R).
Proof.
  revert a x. induction R as [|y R IH]; intros a x; [done|].
  by rewrite last_cons_cons, !IH.
Qed.

Lemma last_source (R : list JSValue) :
  forall (lastItem : JSValue) above t,
  exists t',
    eventually
      (fun call m =>
         Terminal.last_loop call m 1 lastItem (on_source (SourceGen R) above t))
      (Normal (default lastItem (last R)), on_source Completed above t') /\
    pulls_on 1 t' = pulls_on 1 t + S (length R).
Proof.
  induction R as [|x R IH]; intros lastItem above t.
  - exists (Pull 1 :: t). split; [|by rewrite pulls_on_Pull_source; simpl; lia].
    eapply last_loop_rule; [apply source_next_end|]. done.
  - destruct (IH x above (Pull 1 :: t)) as (t' & Hev & Hp).
    exists t'. split; [|rewrite Hp, pulls_on_Pull_source; simpl; lia].
    eapply last_loop_rule; [apply source_next_item|]. simpl.
    by rewrite default_last_cons.
Qed.

Lemma drain_source (R : list JSValue) :
  forall above t,
  exists t',
    eventually
      (fun call m =>
         Terminal.drain_loop call m 1 (on_source (SourceGen R) above t))
      (Normal tt, on_source Completed above t') /\
    pulls_on 1 t' = pulls_on 1 t + S (length R).
Proof.
  induction R as [|x R IH]; intros above t.
  - exists (Pull 1 :: t). split; [|by rewrite pulls_on_Pull_source; simpl; lia].
    eapply drain_loop_rule; [apply source_next_end|]. done.
  - destruct (IH above (Pull 1 :: t)) as (t' & Hev & Hp).
    exists t'. split; [|rewrite Hp, pulls_on_Pull_source; simpl; lia].
    eapply drain_loop_rule; [apply source_next_item|]. exact Hev.
Qed.

(** On a stream that has completed, [collect] answers the empty array. *)
Lemma collect_completed above t :
  eventually
    (fun call m =>
       AsyncStream.collect_loop call m 1 [] (on_source Completed above t))
    (Normal [], on_source Completed above (Pull 1 :: t)).
Proof. eapply collect_loop_rule; [apply source_next_completed|]. done. Qed.

(** X1. [count()] on a source of [L] items answers [L], which is the
    length of what [collect()] answers on a stream built the same way; it
    pulls the source [L + 1] times and leaves it completed. *)
Theorem count_is_length (items : list JSValue) :
  exists s w w' w'' collected,
    source items empty_world = (Normal s, w) /\
    settles (fun fuel => Terminal.count fuel s w) (Normal (length items), w') /\
    exhausted s w' /\
    pulls_on s (trace w') = S (length items) /\
    collects s w (Normal collected, w'') /\
    length collected = length items.
Proof.
  destruct (count_source items 0 [] []) as (t' & Hev & Hp).
  destruct (collect_source items [] [] []) as [t'' Hcol].
  exists 1. do 3 eexists. exists items.
  split; [reflexivity|]. split; [apply (settles_intro _ _ Hev)|].
  split; [apply exhausted_on_source|]. split; [exact Hp|].
  split; [apply collects_intro; exact Hcol|done].
Qed.

(** X2. [first()] makes exactly one pull and answers the first item
    ([undefined] on an empty source); the stream is not drained: a
    [collect()] after it answers the items from the second on. *)
Theorem first_then_collect (items : list JSValue) :
  exists s w w' w'',
    source items empty_world = (Normal s, w) /\
    settles (fun fuel => Terminal.first fuel s w)
      (Normal (default VUndefined (head items)), w') /\
    pulls_on s (trace w') = 1 /\
    collects s w' (Normal (tail items), w'').
Proof.
  destruct items as [|x R].
  - exists 1. do 3 eexists. split; [reflexivity|].
    split; [apply (first_rule (source_next_end [] []))|].
    split; [reflexivity|].
    apply collects_intro, collect_completed.
  - destruct (collect_source R [] [] [Pull 1]) as [t'' Hcol].
    exists 1. do 3 eexists. split; [reflexivity|].
    split; [apply (first_rule (source_next_item x R [] []))|].
    split; [reflexivity|].
    apply collects_intro. exact Hcol.
Qed.

(** X3. [last()] answers the last item of the source ([undefined] on an
    empty source) after pulling it [L + 1] times, and leaves the stream
    completed: a [last()] or [collect()] after it finds nothing. *)
Theorem last_consumes (items : list JSValue) :
  exists s w w' w2 w3,
    source items empty_world = (Normal s, w) /\
    settles (fun fuel => Terminal.last fuel s w)
      (Normal (default VUndefined (last items)), w') /\
    exhausted s w' /\
    pulls_on s (trace w') = S (length items) /\
    settles (fun fuel => Terminal.last fuel s w') (Normal VUndefined, w2) /\
    collects s w' (Normal [], w3).
Proof.
  destruct (last_source items VUndefined [] []) as (t' & Hev & Hp).
  exists 1. do 4 eexists.
  split; [reflexivity|]. split; [apply (settles_intro _ _ Hev)|].
  split; [apply exhausted_on_source|]. split; [exact Hp|]. split.
  - apply (settles_intro
             (fun call m => Terminal.last_loop call m 1 VUndefined _)).
    eapply last_loop_rule; [apply source_next_completed|]. done.
  - apply collects_intro, collect_completed.
Qed.

(** X4. [drain()] answers nothing, pulls the source [L + 1] times and
    leaves the stream completed: a [collect()] after it answers the empty
    array, and a further [next()] reports [done]. *)
Theorem drain_exhausts (items : list JSValue) :
  exists s w w' w2 w3,
    source items empty_world = (Normal s, w) /\
    settles (fun fuel => Terminal.drain fuel s w) (Normal tt, w') /\
    exhausted s w' /\
    pulls_on s (trace w') = S (length items) /\
    collects s w' (Normal [], w2) /\
    run_to w2 s Next (Normal (finished VUndefined), w3).
Proof.
  destruct (drain_source items [] []) as (t' & Hev & Hp).
  exists 1. do 4 eexists.
  split; [reflexivity|]. split; [apply (settles_intro _ _ Hev)|].
  split; [apply exhausted_on_source|]. split; [exact Hp|]. split.
  - apply collects_intro, collect_completed.
  - apply source_next_completed.
Qed.

(** ** [reduce] and [forEach] on the source stream *)

(** The left fold [reduce] computes: the reducer is given the position of
    the item, counted from [index]; the first rejection ends it. *)
Fixpoint fold_indexed {U} (reducer : U -> JSValue -> nat -> completion U)
    (accumulator : U) (index : nat) (R : list JSValue) : completion U :=
  match R with
  | [] => Normal accumulator
  | x :: R =>
      match reducer accumulator x index with
      | Normal accumulator => fold_indexed reducer accumulator (S index) R
      | Throw e => Throw e
      end
  end.

(** The number of items the reducer is called on. *)
Fixpoint fold_reach {U} (reducer : U -> JSValue -> nat -> completion U)
    (accumulator : U) (index : nat) (R : list JSValue) : nat :=
  match R with
  | [] => 0
  | x :: R =>
      match reducer accumulator x index with
      | Normal accumulator => S (fold_reach reducer accumulator (S index) R)
      | Throw _ => 1
      end
  end.

Lemma indexed_app (index : nat) (R R' : list JSValue) :
  indexed index (R ++ R') = indexed index R ++ indexed (index + length R) R'.
Proof.
  revert index. induction R as [|x R IH]; intros index; simpl.
  - by rewrite Nat.add_0_r.
  - rewrite IH. by replace (S index + length R) with (index + S (length R)) by lia.
Qed.

Lemma reduce_source {U} (reducer : U -> JSValue -> nat -> completion U)
    (R : list JSValue) :
  forall (accumulator : U) (index : nat) above t,
  exists t',
    eventually
      (fun call m =>
         Terminal.reduce_loop call m 1 reducer accumulator index
           (on_source (SourceGen R) above t))
      (fold_indexed reducer accumulator index R, on_source Completed above t') /\
    calls t' = calls t
               ++ indexed index (firstn (fold_reach reducer accumulator index R) R) /\
    pulls_on 1 t' = pulls_on 1 t +
                    match fold_indexed reducer accumulator index R with
                    | Normal _ => S (length R)
                    | Throw _ => fold_reach reducer accumulator index R
                    end.
Proof.
  induction R as [|x R IH]; intros accumulator index above t.
  - exists (Pull 1 :: t). split; [|split].
    + eapply reduce_loop_rule; [apply source_next_end|]. done.
    + simpl. by rewrite calls_Pull, app_nil_r.
    + rewrite pulls_on_Pull_source. simpl. lia.
  - simpl. destruct (reducer accumulator x index) as [a'|e] eqn:Hr.
    + destruct (IH a' (S index) above (Call x index :: Pull 1 :: t))
        as (t' & Hev & Hcalls & Hp).
      exists t'. split; [|split].
      * eapply reduce_loop_rule; [apply source_next_item|]. simpl.
        rewrite Hr. exact Hev.
      * rewrite Hcalls, calls_Call, calls_Pull, <- app_assoc. done.
      * rewrite Hp. unfold pulls_on. simpl.
        destruct (fold_indexed reducer a' (S index) R); lia.
    + exists (Call x index :: Pull 1 :: t). split; [|split].
      * eapply reduce_loop_rule; [apply source_next_item|]. simpl.
        rewrite Hr. do 2 eexists. split; [apply source_return|done].
      * by rewrite calls_Call, calls_Pull.
      * unfold pulls_on. simpl. lia.
Qed.

Lemma fold_indexed_resolved {U}
    (reducer : U -> JSValue -> nat -> completion U) (R : list JSValue) :
  forall accumulator index result,
    fold_indexed reducer accumulator index R = Normal result ->
    fold_reach reducer accumulator index R = length R.
Proof.
  induction R as [|x R IH]; intros accumulator index result H; simpl in *;
    [done|].
  destruct (reducer accumulator x index) as [a'|e]; [|done].
  by rewrite (IH _ _ _ H).
Qed.

Lemma fold_indexed_rejected {U}
    (reducer : U -> JSValue -> nat -> completion U) (pre : list JSValue) :
  forall accumulator index reached x post e,
    fold_indexed reducer accumulator index pre = Normal reached ->
    reducer reached x (index + length pre) = Throw e ->
    fold_indexed reducer accumulator index (pre ++ x :: post) = Throw e /\
    fold_reach reducer accumulator index (pre ++ x :: post) = S (length pre).
Proof.
  induction pre as [|y pre IH]; intros accumulator index reached x post e Hpre Hx;
    simpl in *.
  - injection Hpre as ->. rewrite Nat.add_0_r in Hx. by rewrite Hx.
  - destruct (reducer accumulator y index) as [a'|e']; [|done].
    destruct (IH a' (S index) reached x post e Hpre) as [-> ->]; [|done].
    by replace (S index + length pre) with (index + S (length pre)) by lia.
Qed.

(** X5. When the reducer resolves at every step, [reduce(reducer,
    initialValue)] answers the left fold of the items, the reducer being
    called once per item, in order, with the zero-based position of the
    item; the stream is left completed. *)
Theorem reduce_folds {U} (reducer : U -> JSValue -> nat -> completion U)
    (initialValue result : U) (items : list JSValue) :
  fold_indexed reducer initialValue 0 items = Normal result ->
  exists s w w',
    source items empty_world = (Normal s, w) /\
    settles (fun fuel => Terminal.reduce fuel s reducer initialValue w)
      (Normal result, w') /\
    calls (trace w') = indexed 0 items /\
    exhausted s w'.
Proof.
  intros Hfold.
  destruct (reduce_source reducer items initialValue 0 [] [])
    as (t' & Hev & Hcalls & _).
  rewrite Hfold in Hev.
  rewrite (fold_indexed_resolved _ _ _ _ _ Hfold), firstn_all in Hcalls.
  exists 1. do 2 eexists. split; [reflexivity|].
  split; [apply (settles_intro _ _ Hev)|].
  split; [exact Hcalls|apply exhausted_on_source].
Qed.

(** The reducer of the test-suite: [(acc, val, i) => acc + val + i], on
    integers. *)
Definition sum_with_index (acc : Z) (item : JSValue) (index : nat)
  : completion Z :=
  match item with
  | VNumber (Finite q) => Normal (acc + Qfloor q + Z.of_nat index)%Z
  | _ => Throw (TypeError "not a number")
  end.

Lemma reduce_folds_witness :
  fold_indexed sum_with_index 0%Z 0 (map num [1; 2; 3; 4]%Z) = Normal 16%Z /\
  exists s w w',
    source (map num [1; 2; 3; 4]%Z) empty_world = (Normal s, w) /\
    settles (fun fuel => Terminal.reduce fuel s sum_with_index 0%Z w)
      (Normal 16%Z, w') /\
    calls (trace w') = indexed 0 (map num [1; 2; 3; 4]%Z) /\
    exhausted s w'.
Proof.
  split; [reflexivity|].
  apply (reduce_folds sum_with_index 0%Z 16%Z (map num [1; 2; 3; 4]%Z)).
  reflexivity.
Defined.

(** X6. When the reducer rejects at the item of position [k] (having
    resolved before), [reduce] rejects with that error; the reducer has
    been called on the items up to position [k] and no further item is
    pulled; the loop has closed the stream, so a [collect()] after the
    failure answers the empty array. *)
Theorem reduce_rejects {U} (reducer : U -> JSValue -> nat -> completion U)
    (initialValue reached : U) (pre post : list JSValue) (x : JSValue)
    (e : exn) :
  fold_indexed reducer initialValue 0 pre = Normal reached ->
  reducer reached x (length pre) = Throw e ->
  exists s w w' w'',
    source (pre ++ x :: post) empty_world = (Normal s, w) /\
    settles (fun fuel => Terminal.reduce fuel s reducer initialValue w)
      (Throw e, w') /\
    calls (trace w') = indexed 0 (pre ++ [x]) /\
    pulls_on s (trace w') = S (length pre) /\
    exhausted s w' /\
    collects s w' (Normal [], w'').
Proof.
  intros Hpre Hx.
  destruct (fold_indexed_rejected reducer pre initialValue 0 reached x post e
              Hpre Hx) as [Hfold Hreach].
  destruct (reduce_source reducer (pre ++ x :: post) initialValue 0 [] [])
    as (t' & Hev & Hcalls & Hp).
  rewrite Hfold in Hev, Hp. rewrite Hreach in Hcalls, Hp.
  exists 1. do 3 eexists. split; [reflexivity|].
  split; [apply (settles_intro _ _ Hev)|].
  split; [|split; [exact Hp|split; [apply exhausted_on_source|]]].
  - simpl. rewrite Hcalls. simpl. f_equal.
    replace (S (length pre)) with (length (pre ++ [x]))
      by (rewrite length_app; simpl; lia).
    by rewrite (cons_middle x pre post), app_assoc, take_app_length.
  - apply collects_intro, collect_completed.
Qed.

Lemma reduce_rejects_witness :
  fold_indexed sum_with_index 0%Z 0 (map num [1; 2]%Z) = Normal 4%Z /\
  sum_with_index 4%Z (VString "x") (length (map num [1; 2]%Z))
    = Throw (TypeError "not a number") /\
  exists s w w' w'',
    source (map num [1; 2]%Z ++ VString "x" :: map num [5]%Z) empty_world
      = (Normal s, w) /\
    settles (fun fuel => Terminal.reduce fuel s sum_with_index 0%Z w)
      (Throw (TypeError "not a number"), w') /\
    calls (trace w') = indexed 0 (map num [1; 2]%Z ++ [VString "x"]) /\
    pulls_on s (trace w') = S (length (map num [1; 2]%Z)) /\
    exhausted s w' /\
    collects s w' (Normal [], w'').
Proof.
  split; [reflexivity|]. split; [reflexivity|].
  apply (reduce_rejects sum_with_index 0%Z 4%Z (map num [1; 2]%Z)
           (map num [5]%Z) (VString "x") (TypeError "not a number"));
    reflexivity.
Defined.

(** [forEach] runs the loop of [reduce] with nothing to accumulate. *)
Lemma forEach_loop_reduce (call : caller)
    (action : JSValue -> nat -> completion unit) (fuel : nat) :
  forall (this : ref) (index : nat) (w : world),
    Terminal.forEach_loop call fuel this action index w
    = Terminal.reduce_loop call fuel this (fun _ => action) tt index w.
Proof.
  induction fuel as [|fuel IH]; intros this index w; simpl; [done|].
  destruct (call w this Next) as [[[r|e] w1]|]; try done.
  destruct (done r); [done|].
  destruct (action (value r) index) as [[]|e]; [apply IH|done].
Qed.

Lemma fold_indexed_unit (action : JSValue -> nat -> completion unit)
    (R : list JSValue) :
  forall index,
    (forall i x, R !! i = Some x -> action x (index + i) = Normal tt) ->
    fold_indexed (fun _ : unit => action) tt index R = Normal tt.
Proof.
  induction R as [|x R IH]; intros index Hres; simpl; [done|].
  pose proof (Hres 0 x eq_refl) as H0. rewrite Nat.add_0_r in H0.
  rewrite H0. apply IH. intros i y Hy.
  replace (S index + i) with (index + S i) by lia. by apply Hres.
Qed.

(** X7. When the action resolves on every item, [forEach(action)] calls
    it exactly once per item, in source order, with the item and its
    zero-based position, then resolves; the stream is left completed. *)
Theorem forEach_visits (action : JSValue -> nat -> completion unit)
    (items : list JSValue) :
  (forall i x, items !! i = Some x -> action x i = Normal tt) ->
  exists s w w',
    source items empty_world = (Normal s, w) /\
    settles (fun fuel => Terminal.forEach fuel s action w) (Normal tt, w') /\
    calls (trace w') = indexed 0 items /\
    exhausted s w'.
Proof.
  intros Hres.
  pose proof (fold_indexed_unit action items 0 Hres) as Hfold.
  destruct (reduce_source (fun _ : unit => action) items tt 0 [] [])
    as (t' & [k Hk] & Hcalls & _).
  rewrite Hfold in Hk.
  rewrite (fold_indexed_resolved _ _ _ _ _ Hfold), firstn_all in Hcalls.
  exists 1, (on_source (SourceGen items) [] []), (on_source Completed [] t').
  split; [reflexivity|].
  split; [|split; [exact Hcalls|apply exhausted_on_source]].
  exists k. intros fuel Hfuel. unfold Terminal.forEach.
  rewrite forEach_loop_reduce. apply Hk; lia.
Qed.

Lemma forEach_visits_witness :
  (forall i x, [VString "a"; VString "b"] !! i = Some x ->
               (fun _ _ => Normal tt) x i = Normal tt) /\
  exists s w w',
    source [VString "a"; VString "b"] empty_world = (Normal s, w) /\
    settles (fun fuel => Terminal.forEach fuel s (fun _ _ => Normal tt) w)
      (Normal tt, w') /\
    calls (trace w') = indexed 0 [VString "a"; VString "b"] /\
    exhausted s w'.
Proof.
  split; [done|].
  apply (forEach_visits (fun _ _ => Normal tt) [VString "a"; VString "b"]).
  done.
Defined.

(** X8. When the action rejects at the item of position [k] (having
    resolved before), [forEach] rejects with that error; the items after
    position [k] are neither visited nor pulled, and the stream has been
    closed: a [collect()] after the failure answers the empty array. *)
Theorem forEach_rejects (action : JSValue -> nat -> completion unit)
    (pre post : list JSValue) (x : JSValue) (e : exn) :
  (forall i y, pre !! i = Some y -> action y i = Normal tt) ->
  action x (length pre) = Throw e ->
  exists s w w' w'',
    source (pre ++ x :: post) empty_world = (Normal s, w) /\
    settles (fun fuel => Terminal.forEach fuel s action w) (Throw e, w') /\
    calls (trace w') = indexed 0 (pre ++ [x]) /\
    pulls_on s (trace w') = S (length pre) /\
    exhausted s w' /\
    collects s w' (Normal [], w'').
Proof.
  intros Hpre Hx.
  destruct (fold_indexed_rejected (fun _ : unit => action) pre tt 0 tt x post e)
    as [Hfold Hreach]; [by apply fold_indexed_unit|done|].
  destruct (reduce_source (fun _ : unit => action) (pre ++ x :: post) tt 0 [] [])
    as (t' & [k Hk] & Hcalls & Hp).
  rewrite Hfold in Hk, Hp. rewrite Hreach in Hcalls, Hp.
  exists 1. do 3 eexists. split; [reflexivity|]. split.
  { exists k. intros fuel Hfuel. unfold Terminal.forEach.
    rewrite forEach_loop_reduce. apply Hk; lia. }
  split; [|split; [exact Hp|split; [apply exhausted_on_source|]]].
  - simpl. rewrite Hcalls. simpl. f_equal.
    replace (S (length pre)) with (length (pre ++ [x]))
      by (rewrite length_app; simpl; lia).
    by rewrite (cons_middle x pre post), app_assoc, take_app_length.
  - apply collects_intro, collect_completed.
Qed.

(** An action that accepts only numbers. *)
Definition numbers_only (item : JSValue) (index : nat) : completion unit :=
  match item with
  | VNumber _ => Normal tt
  | _ => Throw (UserError item)
  end.

Lemma forEach_rejects_witness :
  (forall i y, map num [1; 2]%Z !! i = Some y -> numbers_only y i = Normal tt) /\
  numbers_only (VString "x") (length (map num [1; 2]%Z))
    = Throw (UserError (VString "x")) /\
  exists s w w' w'',
    source (map num [1; 2]%Z ++ VString "x" :: map num [5]%Z) empty_world
      = (Normal s, w) /\
    settles (fun fuel => Terminal.forEach fuel s numbers_only w)
      (Throw (UserError (VString "x")), w') /\
    calls (trace w') = indexed 0 (map num [1; 2]%Z ++ [VString "x"]) /\
    pulls_on s (trace w') = S (length (map num [1; 2]%Z)) /\
    exhausted s w' /\
    collects s w' (Normal [], w'').
Proof.
  assert (forall i y, map num [1; 2]%Z !! i = Some y ->
                      numbers_only y i = Normal tt) as Hpre.
  { intros [|[|i]] y Hy; simpl in Hy; try done; by injection Hy as <-. }
  split; [exact Hpre|]. split; [reflexivity|].
  apply (forEach_rejects numbers_only (map num [1; 2]%Z) (map num [5]%Z)
           (VString "x") (UserError (VString "x"))); [exact Hpre|reflexivity].
Defined.

(** ** [collect] on the source stream *)

Lemma collect_source_pulls (R : list JSValue) :
  forall (results : list JSValue) above t,
  exists t',
    eventually
      (fun call m =>
         AsyncStream.collect_loop call m 1 results
           (on_source (SourceGen R) above t))
      (Normal (results ++ R), on_source Completed above t') /\
    pulls_on 1 t' = pulls_on 1 t + S (length R).
Proof.
  induction R as [|x R IH]; intros results above t.
  - exists (Pull 1 :: t). split; [|rewrite pulls_on_Pull_source; simpl; lia].
    eapply collect_loop_rule; [apply source_next_end|]. simpl.
    by rewrite app_nil_r.
  - destruct (IH (results ++ [x]) above (Pull 1 :: t)) as (t' & Hev & Hp).
    exists t'. split; [|rewrite Hp, pulls_on_Pull_source; simpl; lia].
    eapply collect_loop_rule; [apply source_next_item|]. simpl.
    by rewrite <- app_assoc in Hev.
Qed.

(** X9. [collect()] answers every item of the source, in order, after
    [L + 1] pulls, and leaves the stream completed: a second [collect()]
    answers the empty array. *)
Theorem collect_gathers (items : list JSValue) :
  exists s w w' w'',
    source items empty_world = (Normal s, w) /\
    collects s w (Normal items, w') /\
    pulls_on s (trace w') = S (length items) /\
    exhausted s w' /\
    collects s w' (Normal [], w'').
Proof.
  destruct (collect_source_pulls items [] [] []) as (t' & Hev & Hp).
  exists 1. do 3 eexists. split; [reflexivity|].
  split; [apply collects_intro; exact Hev|].
  split; [exact Hp|]. split; [apply exhausted_on_source|].
  apply collects_intro, collect_completed.
Qed.

(** ** [flat] and [repack] over a source of arrays *)

Lemma flat_loop_end (groups : list (list JSValue)) :
  forall above t,
    concat groups = [] ->
    exists t',
      eventually
        (fun call m =>
           flat_loop call m 1 (on_source (SourceGen (arrays groups ++ [])) above t))
        (Finish VUndefined, on_source Completed above t').
Proof.
  induction groups as [|[|y page] groups IH]; intros above t HX;
    simpl in HX; [| |done].
  - eexists. eapply flat_loop_rule; [apply source_next_end|]. done.
  - destruct (IH above (Pull 1 :: t) HX) as (t' & Hev).
    exists t'. eapply flat_loop_rule; [apply source_next_item|]. exact Hev.
Qed.

Lemma collect_flat (X : list JSValue) :
  forall (groups : list (list JSValue)) (at_ : flat_point)
         (results : list JSValue) above t,
    pending at_ ++ concat groups = X ->
    exists t',
      eventually
        (fun call m =>
           AsyncStream.collect_loop call m 3 results
             (staged (SourceGen (arrays groups ++ [])) (FlatGen 1 at_) above t))
        (Normal (results ++ X), staged Completed Completed above t').
Proof.
  induction X as [|x X IH]; intros groups at_ results above t HX.
  - apply app_eq_nil in HX as [Hat HX].
    destruct (flat_loop_end groups
                (Generator (FlatGen 1 at_) :: Stream 2 :: above) (Pull 3 :: t) HX)
      as [t' Hev].
    exists t'. eapply collect_loop_rule.
    + stream_next by (destruct at_ as [|[|? ?]]; [exact Hev|exact Hev|done]).
    + simpl. by rewrite app_nil_r.
  - destruct (flat_next_item [] groups at_ above t x X HX)
      as (at1 & groups1 & t1 & Hnext & HX1 & _).
    destruct (IH groups1 at1 (results ++ [x]) above t1 HX1) as [t' Hev].
    exists t'. eapply collect_loop_rule; [exact Hnext|]. simpl.
    by rewrite <- app_assoc in Hev.
Qed.

(** X10. On a source whose items are all arrays, collecting [flat()]
    answers the elements of those arrays one after the other, in order:
    one level is flattened, and an element that is itself an array stays
    an array. *)
Theorem flat_concats (groups : list (list JSValue)) :
  exists f w w',
    (let* s := source (arrays groups) in AsyncStream.flat s) empty_world
      = (Normal f, w) /\
    collects f w (Normal (concat groups), w').
Proof.
  destruct (collect_flat (concat groups) groups FlatStart [] [] [])
    as [t' Hev]; [done|].
  rewrite app_nil_r in Hev.
  exists 3. do 2 eexists. split; [reflexivity|].
  apply collects_intro. exact Hev.
Qed.

Section RepackArrays.
Variable n : nat.
Hypothesis n_pos : 0 < n.

Let size := number_of_nat n.

(** The loop of [repack] when the arrays ahead do not fill a group: it
    runs the source dry and hands out what it holds, if anything. *)
Lemma repack_loop_end (groups : list (list JSValue)) :
  forall (buffer : list JSValue) above t,
    length (buffer ++ concat groups) < n ->
    exists t',
      eventually
        (fun call m =>
           repack_loop call m 1 size buffer
             (on_source (SourceGen (arrays groups ++ [])) above t))
        (if 0 <? length (buffer ++ concat groups)
         then Yield (VArray (buffer ++ concat groups))
                (RepackGen 1 size RepackYieldRest (buffer ++ concat groups))
         else Finish VUndefined,
         on_source Completed above t').
Proof.
  induction groups as [|page groups IH]; intros buffer above t Hlt.
  - eexists. eapply repack_loop_rule; [apply source_next_end|]. simpl.
    by rewrite app_nil_r.
  - simpl in Hlt. rewrite app_assoc in Hlt.
    destruct (IH (buffer ++ page) above (Pull 1 :: t) Hlt) as (t' & Hev).
    exists t'. eapply repack_loop_rule; [apply source_next_item|]. simpl.
    unfold size. rewrite repack_while_short; [|done|rewrite !length_app in *; lia].
    by rewrite <- !app_assoc in *.
Qed.

Lemma repack_next_end (groups : list (list JSValue)) (at_ : repack_point)
    (buffer : list JSValue) above t :
  at_ <> RepackYieldRest ->
  length (unsent n at_ buffer ++ concat groups) < n ->
  exists t',
    run_to (staged (SourceGen (arrays groups ++ []))
              (RepackGen 1 size at_ buffer) above t) 3 Next
      (settle 2
         (if 0 <? length (unsent n at_ buffer ++ concat groups)
          then Yield (VArray (unsent n at_ buffer ++ concat groups))
                 (RepackGen 1 size RepackYieldRest
                    (unsent n at_ buffer ++ concat groups))
          else Finish VUndefined)
         (staged Completed (RepackGen 1 size at_ buffer) above t')).
Proof.
  intros Hat Hlt.
  destruct (repack_loop_end groups (unsent n at_ buffer)
              (Generator (RepackGen 1 size at_ buffer) :: Stream 2 :: above)
              (Pull 3 :: t) Hlt) as (t' & Hev).
  exists t'.
  stream_next by
    (destruct at_; simpl;
       [exact Hev
       |unfold size; rewrite drop_slice_index, repack_while_short;
          [exact Hev|..]; try done;
          simpl in Hlt; rewrite length_app in Hlt; lia
       |done]).
Qed.

Lemma collect_repack (X : list JSValue) (chunks : list (list JSValue)) :
  Chunked n X chunks ->
  forall (groups : list (list JSValue)) (at_ : repack_point)
         (buffer results : list JSValue) above t,
    at_ <> RepackYieldRest ->
    unsent n at_ buffer ++ concat groups = X ->
    exists t',
      eventually
        (fun call m =>
           AsyncStream.collect_loop call m 3 results
             (staged (SourceGen (arrays groups ++ []))
                (RepackGen 1 size at_ buffer) above t))
        (Normal (results ++ arrays chunks), staged Completed Completed above t').
Proof.
  induction 1 as [|X chunks Hlen _ IH|X Hlen];
    intros groups at_ buffer results above t Hat HX.
  - destruct (repack_next_end groups at_ buffer above t Hat) as [t' Hnext];
      [rewrite HX; simpl; lia|].
    rewrite HX in Hnext. simpl in Hnext.
    exists t'. eapply collect_loop_rule; [exact Hnext|]. simpl.
    by rewrite app_nil_r.
  - subst X.
    destruct (repack_next_full n n_pos [] groups at_ buffer above t Hat Hlen)
      as (buffer1 & groups1 & t1 & Hnext & Hrest & _).
    destruct (IH groups1 RepackYieldFull buffer1
                (results ++ [VArray (firstn n (unsent n at_ buffer ++ concat groups))])
                above t1) as [t' Hev]; [done|done|].
    exists t'. eapply collect_loop_rule; [exact Hnext|]. simpl.
    by rewrite <- app_assoc in Hev.
  - destruct (repack_next_end groups at_ buffer above t Hat) as [t1 Hnext];
      [rewrite HX; lia|].
    rewrite HX in Hnext.
    destruct (Nat.ltb_spec 0 (length X)); [|lia].
    eexists. eapply collect_loop_rule; [exact Hnext|]. simpl.
    eapply collect_loop_rule.
    + stream_next by (by apply eventually_now).
    + reflexivity.
Qed.
End RepackArrays.

(** X11. On a source whose items are all arrays, collecting
    [repack(n)], [n] a positive integer, answers the elements of those
    arrays regrouped: the groups hold the same elements in the same
    order, there are [ceil(E/n)] of them for [E] elements, and every
    group but the last has exactly [n] elements. *)
Theorem repack_regroups (groups : list (list JSValue)) (n : nat) :
  0 < n ->
  exists r w w' chunks,
    (let* s := source (arrays groups) in
     AsyncStream.repack s (number_of_nat n)) empty_world = (Normal r, w) /\
    collects r w (Normal (arrays chunks), w') /\
    concat chunks = concat groups /\
    length chunks = (length (concat groups) + n - 1) / n /\
    (forall i g, chunks !! i = Some g -> S i < length chunks -> length g = n) /\
    (forall g, last chunks = Some g -> 0 < length g <= n).
Proof.
  intros Hn.
  destruct (Chunked_exists n (concat groups) Hn) as [chunks Hch].
  destruct (collect_repack n Hn (concat groups) chunks Hch groups RepackStart
              [] [] [] []) as [t' Hev]; [done|done|].
  rewrite app_nil_r in Hev.
  exists 3. do 2 eexists. exists chunks.
  split; [unfold bind; rewrite source_spec, repack_positive by done; reflexivity|].
  split; [apply collects_intro; exact Hev|].
  split; [by eapply Chunked_concat|].
  split; [by apply Chunked_count|].
  split; [by eapply Chunked_sizes|].
  intros g Hg. rewrite (Chunked_last n _ _ Hn Hch g Hg).
  destruct (Nat.eqb_spec (length (concat groups) mod n) 0) as [|Hne]; [lia|].
  pose proof (Nat.mod_upper_bound (length (concat groups)) n). lia.
Qed.

Lemma repack_regroups_witness :
  0 < 3 /\
  exists r w w' chunks,
    (let* s := source (arrays [map num [1; 2]%Z; map num [3; 4]%Z; map num [5]%Z]) in
     AsyncStream.repack s (number_of_nat 3)) empty_world = (Normal r, w) /\
    collects r w (Normal (arrays chunks), w') /\
    concat chunks = concat [map num [1; 2]%Z; map num [3; 4]%Z; map num [5]%Z] /\
    length chunks
      = (length (concat [map num [1; 2]%Z; map num [3; 4]%Z; map num [5]%Z])
         + 3 - 1) / 3 /\
    (forall i g, chunks !! i = Some g -> S i < length chunks -> length g = 3) /\
    (forall g, last chunks = Some g -> 0 < length g <= 3).
Proof.
  split; [lia|].
  apply (repack_regroups [map num [1; 2]%Z; map num [3; 4]%Z; map num [5]%Z] 3).
  lia.
Defined.

(** ** Building a stage *)

(** A combinator call that returns has only added objects: the objects
    that were there and the trace are as before. *)
Definition only_allocates (w w' : world) : Prop :=
  trace w' = trace w /\ exists added, heap w' = heap w ++ added.

Lemma of_generator_allocates (g : generator) (w : world) :
  exists r w',
    AsyncStream.of_generator g w = (Normal r, w') /\ only_allocates w w'.
Proof.
  do 2 eexists. split; [reflexivity|]. split; [reflexivity|].
  eexists. simpl. by rewrite <- app_assoc.
Qed.

(** X12. Every combinator is lazy: whatever its argument, a call of
    [pack], [repack], [flat], [filter], [skip], [take] or [takeLast]
    either throws or returns a stream, and in both cases it makes no pull
    and leaves every existing object as it was. *)
Theorem combinators_are_lazy (self : ref) (size : number)
    (predicate : JSValue -> nat -> completion JSValue) (w : world) :
  Forall
    (fun call : call_ ref =>
       exists c w', call w = (c, w') /\ only_allocates w w')
    [AsyncStream.pack self size; AsyncStream.repack self size;
     AsyncStream.flat self; AsyncStream.filter self predicate;
     AsyncStream.skip self size; AsyncStream.take self size;
     AsyncStream.takeLast self size].
Proof.
  assert (only_allocates w w) as Hsame.
  { split; [done|]. exists []. by rewrite app_nil_r. }
  assert (forall g, exists c w',
             AsyncStream.of_generator g w = (c, w') /\ only_allocates w w')
    as Hgen.
  { intros g. destruct (of_generator_allocates g w) as (r & w' & -> & H).
    by do 2 eexists. }
  repeat apply Forall_cons_2; try apply Forall_nil_2.
  - unfold AsyncStream.pack. destruct (num_le _ _); [|apply Hgen].
    by do 2 eexists.
  - unfold AsyncStream.repack. destruct (num_le _ _); [|apply Hgen].
    by do 2 eexists.
  - apply Hgen.
  - apply Hgen.
  - unfold AsyncStream.skip. destruct (num_lt _ _); [|apply Hgen].
    by do 2 eexists.
  - unfold AsyncStream.take. destruct (num_lt _ _); [by do 2 eexists|].
    destruct (num_eq _ _); [by do 2 eexists|apply Hgen].
  - unfold AsyncStream.takeLast. destruct (num_le _ _); [|apply Hgen].
    by do 2 eexists.
Qed.

(** ** [return] on the source stream *)


(** ** [return] on a stage *)

(** A stage whose body is parked inside [for await (... of self)]: its
    [return] leaves the loop, which closes [self]. *)
Lemma return_parked (g : generator) (R : list JSValue) (v : JSValue) above t :
  (forall call m w, resume call m g (Return v) w = close_return call 1 v w) ->
  run_to (staged (SourceGen R) g above t) 3 (Return v)
    (Normal (finished v), staged Completed Completed above t).
Proof.
  intros Hg.
  pose proof (close_return_rule 1 v _ _ _
                (source_return R VUndefined (Generator g :: Stream 2 :: above) t))
    as [k Hk].
  eapply run_stream_return; [reflexivity|].
  eapply run_generator;
    [reflexivity
    |exists k; intros F m HF Hm; rewrite Hg; by apply (Hk F m)
    |reflexivity].
Qed.

(** X14. [return(v)] on a [pack] stage that has handed out a group and
    is parked in its loop answers [{ done: true, value: v }], pulls
    nothing more, and closes the stream the stage was built on: the
    items the stage had not reached are lost to every consumer of that
    stream. *)
Theorem return_closes_upstream (items : list JSValue) (n : nat) (v : JSValue) :
  0 < n -> n <= length items ->
  exists s p w w1 w2 w3,
    (let* s := source items in
     let* p := AsyncStream.pack s (number_of_nat n) in
     ret (s, p)) empty_world = (Normal (s, p), w) /\
    run_to w p Next (Normal (yielded (VArray (firstn n items))), w1) /\
    settles (fun fuel => Terminal.return_ fuel p v w1)
      (Normal (finished v), w2) /\
    trace w2 = trace w1 /\
    exhausted s w2 /\
    collects s w2 (Normal [], w3).
Proof.
  intros Hn Hlen.
  destruct (pack_next n Hn items PackStart [] []) as [t1 Hnext]; [done|].
  destruct (Nat.leb_spec n (length items)); [|lia].
  exists 1, 3. do 4 eexists.
  split; [unfold bind; rewrite source_spec, pack_positive by done; reflexivity|].
  split; [exact Hnext|]. split.
  { destruct (return_parked (PackGen 1 (number_of_nat n) PackYieldFull)
                (skipn n items) v [] t1) as [k Hk]; [done|].
    exists k. intros fuel Hfuel. apply (Hk fuel fuel); lia. }
  split; [reflexivity|]. split; [by exists 0|].
  apply collects_intro.
  apply (collect_completed [Generator Completed; Stream 2] t1).
Qed.

Lemma return_closes_upstream_witness :
  0 < 2 /\ 2 <= length (map num [1; 2; 3; 4; 5]%Z) /\
  exists s p w w1 w2 w3,
    (let* s := source (map num [1; 2; 3; 4; 5]%Z) in
     let* p := AsyncStream.pack s (number_of_nat 2) in
     ret (s, p)) empty_world = (Normal (s, p), w) /\
    run_to w p Next
      (Normal (yielded (VArray (firstn 2 (map num [1; 2; 3; 4; 5]%Z)))), w1) /\
    settles (fun fuel => Terminal.return_ fuel p (VString "bye") w1)
      (Normal (finished (VString "bye")), w2) /\
    trace w2 = trace w1 /\
    exhausted s w2 /\
    collects s w2 (Normal [], w3).
Proof.
  split; [lia|]. split; [simpl; lia|].
  apply (return_closes_upstream (map num [1; 2; 3; 4; 5]%Z) 2 (VString "bye"));
    simpl; lia.
Defined.

(** X15. [take] does not iterate with [for await]: [return(v)] on a
    [take] stage that has handed out an item completes the stage and
    leaves the stream it was built on open; that stream goes on from the
    next item. *)
Theorem return_on_take_spares_upstream (x : JSValue) (R : list JSValue)
    (n : nat) (v : JSValue) :
  0 < n ->
  exists s tk w w1 w2 w3 w4,
    (let* s := source (x :: R) in
     let* tk := AsyncStream.take s (number_of_nat n) in
     ret (s, tk)) empty_world = (Normal (s, tk), w) /\
    run_to w tk Next (Normal (yielded x), w1) /\
    settles (fun fuel => Terminal.return_ fuel tk v w1)
      (Normal (finished v), w2) /\
    run_to w2 tk Next (Normal (finished VUndefined), w3) /\
    collects s w3 (Normal R, w4).
Proof.
  intros Hn.
  destruct (collect_source R [] [Generator Completed; Stream 2]
              (Pull 3 :: Pull 1 :: [Pull 3])) as [t4 Hcol].
  exists 1, 3. do 5 eexists.
  split; [unfold bind; rewrite source_spec, take_positive by done; reflexivity|].
  split.
  { eapply (take_next_pull n Hn (SourceGen (x :: R)) TakeStart [] []);
      [simpl; lia|apply source_next_item|reflexivity]. }
  split.
  { exists 2. intros [|[|fuel]] Hfuel; try lia. reflexivity. }
  split.
  { stream_next by (by apply eventually_now). }
  apply collects_intro. exact Hcol.
Qed.

Lemma return_on_take_spares_upstream_witness :
  0 < 2 /\
  exists s tk w w1 w2 w3 w4,
    (let* s := source (VString "a" :: [VString "b"; VString "c"]) in
     let* tk := AsyncStream.take s (number_of_nat 2) in
     ret (s, tk)) empty_world = (Normal (s, tk), w) /\
    run_to w tk Next (Normal (yielded (VString "a")), w1) /\
    settles (fun fuel => Terminal.return_ fuel tk (VString "bye") w1)
      (Normal (finished (VString "bye")), w2) /\
    run_to w2 tk Next (Normal (finished VUndefined), w3) /\
    collects s w3 (Normal [VString "b"; VString "c"], w4).
Proof.
  split; [lia|].
  apply (return_on_take_spares_upstream (VString "a")
           [VString "b"; VString "c"] 2 (VString "bye")).
  lia.
Defined.

(** ** [filter] with a predicate that rejects *)

Section FilterRejects.
Variable predicate : JSValue -> nat -> completion JSValue.
Variable tail_ : list JSValue.

Lemma first_kept_Some (R : list JSValue) :
  forall index y i rest,
    first_kept predicate index R = Some (y, i, rest) ->
    S i + length rest = index + length R /\
    kept predicate index R = y :: kept predicate (S i) rest.
Proof.
  induction R as [|x R IH]; intros index y i rest H; simpl in *; [done|].
  destruct (accepts predicate x index).
  - injection H as <- <- <-. split; [lia|done].
  - destruct (IH _ _ _ _ H) as [Hi Hk]. split; [lia|done].
Qed.

Lemma first_kept_None (R : list JSValue) :
  forall index,
    first_kept predicate index R = None -> kept predicate index R = [].
Proof.
  induction R as [|x R IH]; intros index H; simpl in *; [done|].
  destruct (accepts predicate x index); [done|by apply IH].
Qed.

Lemma filter_loop_kept (pre : list JSValue) :
  forall (index : nat) above t y i rest,
    resolves predicate index pre ->
    first_kept predicate index pre = Some (y, i, rest) ->
    exists t',
      eventually
        (fun call m =>
           filter_loop call m 1 predicate index
             (on_source (SourceGen (pre ++ tail_)) above t))
        (Yield y (FilterGen 1 predicate (FilterYield i)),
         on_source (SourceGen (rest ++ tail_)) above t') /\
      resolves predicate (S i) rest /\
      calls t' ++ indexed (S i) rest = calls t ++ indexed index pre /\
      pulls_on 1 t' + length rest = pulls_on 1 t + length pre.
Proof.
  induction pre as [|x pre IH]; intros index above t y i rest Hres Hfirst;
    simpl in Hfirst; [done|].
  destruct (Hres 0 x eq_refl) as [b Hb]. rewrite Nat.add_0_r in Hb.
  unfold accepts in Hfirst. rewrite Hb in Hfirst.
  destruct (truthy b) eqn:Hb'.
  - injection Hfirst as <- <- <-.
    exists (Call x index :: Pull 1 :: t). split; [|split; [|split]].
    + eapply filter_loop_rule; [apply source_next_item|]. simpl.
      by rewrite Hb, Hb'.
    + by eapply resolves_tail.
    + simpl. by rewrite calls_Call, calls_Pull, <- app_assoc.
    + unfold pulls_on. simpl. lia.
  - destruct (IH (S index) above (Call x index :: Pull 1 :: t) y i rest)
      as (t' & Hev & Hres' & Hcalls & Hp); [by eapply resolves_tail|done|].
    exists t'. split; [|split; [done|split]].
    + eapply filter_loop_rule; [apply source_next_item|]. simpl.
      rewrite Hb, Hb'. exact Hev.
    + rewrite Hcalls. simpl. by rewrite calls_Call, calls_Pull, <- app_assoc.
    + rewrite Hp. unfold pulls_on. simpl. lia.
Qed.

Lemma filter_pulled (pre : list JSValue) :
  forall (at_ : filter_point) above t,
    resolves predicate (entry at_) pre ->
    exists at' rest t',
      eventually
        (fun _ fuel =>
           pulls fuel (length (kept predicate (entry at_) pre)) 3
             (staged (SourceGen (pre ++ tail_)) (FilterGen 1 predicate at_)
                above t))
        (answers (kept predicate (entry at_) pre),
         staged (SourceGen (rest ++ tail_)) (FilterGen 1 predicate at') above t') /\
      first_kept predicate (entry at') rest = None /\
      resolves predicate (entry at') rest /\
      entry at' + length rest = entry at_ + length pre /\
      calls t' ++ indexed (entry at') rest = calls t ++ indexed (entry at_) pre /\
      pulls_on 1 t' + length rest = pulls_on 1 t + length pre.
Proof.
  remember (length pre) as len eqn:Hlen. revert pre Hlen.
  induction len as [len IH] using lt_wf_ind.
  intros pre -> at_ above t Hres.
  destruct (first_kept predicate (entry at_) pre) as [[[y i] rest]|] eqn:Hfirst.
  - destruct (first_kept_Some _ _ _ _ _ Hfirst) as [Hi Hkept].
    destruct (filter_loop_kept pre (entry at_)
                (Generator (FilterGen 1 predicate at_) :: Stream 2 :: above)
                (Pull 3 :: t) y i rest Hres Hfirst)
      as (t1 & Hloop & Hres1 & Hcalls1 & Hp1).
    destruct (IH (length rest)) with (pre := rest) (at_ := FilterYield i)
      (above := above) (t := t1)
      as (at' & rest' & t' & Hev & Hnone & Hres' & Hentry & Hcalls' & Hp');
      [by eapply first_kept_shorter|done|done|].
    exists at', rest', t'. rewrite Hkept.
    split; [|split; [done|split; [done|split; [simpl in *; lia|split]]]].
    + simpl. eapply pulls_rule; [|exact Hev].
      stream_next by (destruct at_; exact Hloop).
    + rewrite Hcalls'. simpl. rewrite Hcalls1. by rewrite calls_Pull.
    + rewrite Hp'. rewrite pulls_on_Pull_other in Hp1. lia.
  - rewrite (first_kept_None _ _ Hfirst).
    exists at_, pre, t. split; [by apply eventually_now|done].
Qed.
End FilterRejects.

Section FilterRejectsAt.
Variable predicate : JSValue -> nat -> completion JSValue.
Variable x : JSValue.
Variable post : list JSValue.
Variable e : exn.

Lemma filter_loop_rejects (pre : list JSValue) :
  forall (index : nat) above t,
    resolves predicate index pre ->
    first_kept predicate index pre = None ->
    predicate x (index + length pre) = Throw e ->
    exists t',
      eventually
        (fun call m =>
           filter_loop call m 1 predicate index
             (on_source (SourceGen (pre ++ x :: post)) above t))
        (Raise e, on_source Completed above t') /\
      calls t' = calls t ++ indexed index (pre ++ [x]) /\
      pulls_on 1 t' = pulls_on 1 t + S (length pre).
Proof.
  induction pre as [|y pre IH]; intros index above t Hres Hnone Hx.
  - simpl in Hx. rewrite Nat.add_0_r in Hx.
    exists (Call x index :: Pull 1 :: t). split; [|split].
    + eapply filter_loop_rule; [apply source_next_item|]. simpl.
      rewrite Hx. do 2 eexists. split; [apply source_return|done].
    + by rewrite calls_Call, calls_Pull.
    + unfold pulls_on. simpl. lia.
  - destruct (Hres 0 y eq_refl) as [b Hb]. rewrite Nat.add_0_r in Hb.
    simpl in Hnone. unfold accepts in Hnone. rewrite Hb in Hnone.
    destruct (truthy b) eqn:Hb'; [done|].
    destruct (IH (S index) above (Call y index :: Pull 1 :: t))
      as (t' & Hev & Hcalls & Hp); [by eapply resolves_tail|done| |].
    { simpl in Hx. by replace (S index + length pre)
        with (index + S (length pre)) by lia. }
    exists t'. split; [|split].
    + eapply filter_loop_rule; [apply source_next_item|]. simpl.
      rewrite Hb, Hb'. exact Hev.
    + rewrite Hcalls. simpl. by rewrite calls_Call, calls_Pull, <- app_assoc.
    + rewrite Hp. unfold pulls_on. simpl. lia.
Qed.
End FilterRejectsAt.

(** X16. When the predicate rejects at the item of position [k] (having
    resolved on the items before), [filter] first hands out the items it
    accepted among those before position [k], and the pull after them
    rejects with the error of the predicate; the predicate has then been
    called on the items up to position [k], no item after it has been
    pulled, and the loop has closed the stream the stage was built on. *)
Theorem filter_rejects (predicate : JSValue -> nat -> completion JSValue)
    (pre post : list JSValue) (x : JSValue) (e : exn) :
  (forall i y, pre !! i = Some y -> exists b, predicate y i = Normal b) ->
  predicate x (length pre) = Throw e ->
  exists s f w w1 w2 w3,
    (let* s := source (pre ++ x :: post) in
     let* f := AsyncStream.filter s predicate in
     ret (s, f)) empty_world = (Normal (s, f), w) /\
    pulled (length (kept predicate 0 pre)) f w
      (answers (kept predicate 0 pre), w1) /\
    run_to w1 f Next (Throw e, w2) /\
    calls (trace w2) = indexed 0 (pre ++ [x]) /\
    pulls_on s (trace w2) = S (length pre) /\
    exhausted s w2 /\
    collects s w2 (Normal [], w3).
Proof.
  intros Hres Hx.
  destruct (filter_pulled predicate (x :: post) pre FilterStart [] [] Hres)
    as (at' & rest & t1 & Hev & Hnone & Hres' & Hentry & Hcalls1 & Hp1).
  destruct (filter_loop_rejects predicate x post e rest (entry at')
              (Generator (FilterGen 1 predicate at') :: Stream 2 :: [])
              (Pull 3 :: t1) Hres' Hnone) as (t2 & Hloop & Hcalls2 & Hp2).
  { by rewrite Hentry. }
  exists 1, 3. do 4 eexists.
  split; [reflexivity|]. split; [apply pulled_intro; exact Hev|].
  split.
  { stream_next by (destruct at'; exact Hloop). }
  split; [|split; [|split; [by exists 0|]]].
  - simpl. rewrite Hcalls2, calls_Pull, indexed_app. simpl.
    rewrite app_assoc, Hcalls1. simpl. rewrite indexed_app. simpl.
    by rewrite Hentry.
  - simpl. rewrite Hp2, pulls_on_Pull_other. simpl in Hp1. lia.
  - apply collects_intro.
    apply (collect_completed [Generator Completed; Stream 2] t2).
Qed.

(** A predicate that accepts numbers and rejects on anything else. *)
Definition must_be_number (item : JSValue) (index : nat) : completion JSValue :=
  match item with
  | VNumber _ => Normal (VBoolean true)
  | _ => Throw (UserError item)
  end.

Lemma filter_rejects_witness :
  (forall i y, map num [1; 2]%Z !! i = Some y ->
               exists b, must_be_number y i = Normal b) /\
  must_be_number (VString "x") (length (map num [1; 2]%Z))
    = Throw (UserError (VString "x")) /\
  exists s f w w1 w2 w3,
    (let* s := source (map num [1; 2]%Z ++ VString "x" :: map num [5]%Z) in
     let* f := AsyncStream.filter s must_be_number in
     ret (s, f)) empty_world = (Normal (s, f), w) /\
    pulled (length (kept must_be_number 0 (map num [1; 2]%Z))) f w
      (answers (kept must_be_number 0 (map num [1; 2]%Z)), w1) /\
    run_to w1 f Next (Throw (UserError (VString "x")), w2) /\
    calls (trace w2) = indexed 0 (map num [1; 2]%Z ++ [VString "x"]) /\
    pulls_on s (trace w2) = S (length (map num [1; 2]%Z)) /\
    exhausted s w2 /\
    collects s w2 (Normal [], w3).
Proof.
  assert (forall i y, map num [1; 2]%Z !! i = Some y ->
                      exists b, must_be_number y i = Normal b) as Hpre.
  { intros [|[|i]] y Hy; simpl in Hy; try done;
      injection Hy as <-; by eexists. }
  split; [exact Hpre|]. split; [reflexivity|].
  apply (filter_rejects must_be_number (map num [1; 2]%Z) (map num [5]%Z)
           (VString "x") (UserError (VString "x"))); [exact Hpre|reflexivity].
Defined.

(** ** [take] over any upstream *)

Section TakeUpstream.
Variable St : Type.
Variable objects : St -> list object.
Variable base : nat.
Variable up : ref.
Variable remaining : St -> list JSValue.

Hypothesis objects_length : forall st, length (objects st) = base.

Hypothesis up_next :
  forall st above t,
  exists st' t',
    run_to (upstream_world St objects st above t) up Next
      (Normal (head_of (remaining st)), upstream_world St objects st' above t') /\
    remaining st' = tail (remaining st).

(** The argument of [take] and the number of turns its test
    [count < n] allows. *)
Variable size : number.
Variable n : nat.
Hypothesis size_bound :
  forall count, num_lt (number_of_nat count) size = (count <? n).

(** The stage sits right above the upstream: generator at [base], stream
    at [S base]. *)
Definition take_world (st : St) (g : generator) (above : list object)
    (t : list event) : world :=
  upstream_world St objects st (Generator g :: Stream base :: above) t.

Lemma take_stage_next (st st' : St) (g : generator) (s : stop) above t t'
    (x : settled) :
  eventually
    (fun call m => resume call m g Next (take_world st g above (Pull (S base) :: t)))
    (s, take_world st' g above t') ->
  x = (match s with
       | Yield v _ => Normal (yielded v)
       | Finish v => Normal (finished v)
       | Raise e => Throw e
       end,
       take_world st'
         (match s with Yield _ g' => g' | _ => Completed end) above t') ->
  run_to (take_world st g above t) (S base) Next x.
Proof.
  intros Hev ->.
  eapply run_stream_next; [by apply lookup_stage_stream|].
  eapply run_generator; [by apply lookup_stage_generator|exact Hev|].
  unfold take_world. destruct s; unfold settle;
    by rewrite store_stage_generator.
Qed.

Lemma collect_take_upstream (m : nat) :
  forall st (at_ : take_point) (results : list JSValue) above t,
    taken at_ + m = n ->
    exists st' t',
      eventually
        (fun call k =>
           AsyncStream.collect_loop call k (S base) results
             (take_world st (TakeGen up size at_) above t))
        (Normal (results ++ firstn m (remaining st)),
         take_world st' Completed above t') /\
      remaining st' = skipn m (remaining st).
Proof.
  induction m as [|m IH]; intros st at_ results above t Hm.
  - exists st, (Pull (S base) :: t). split; [|by rewrite drop_0].
    assert (num_lt (number_of_nat (taken at_)) size = false) as Hlt.
    { rewrite size_bound.
      by destruct (Nat.ltb_spec (taken at_) n); [lia|]. }
    eapply collect_loop_rule.
    + eapply (take_stage_next st st _ (Finish VUndefined));
        [|reflexivity].
      apply eventually_now. intros call k.
      destruct at_; simpl in *; unfold take_turn; by rewrite Hlt.
    + simpl. by rewrite app_nil_r.
  - assert (num_lt (number_of_nat (taken at_)) size = true) as Hlt.
    { rewrite size_bound.
      by destruct (Nat.ltb_spec (taken at_) n); [|lia]. }
    destruct (up_next st
                (Generator (TakeGen up size at_) :: Stream base :: above)
                (Pull (S base) :: t)) as (st1 & t1 & Hnext & Hrest).
    pose proof (take_turn_rule Hnext size (taken at_) Hlt) as Hturn.
    destruct (remaining st) as [|x X] eqn:HX; simpl in Hturn, Hrest.
    + exists st1, t1. split; [|by rewrite Hrest].
      eapply collect_loop_rule.
      * eapply (take_stage_next st st1 _ (Finish VUndefined));
          [|reflexivity].
        by destruct at_.
      * simpl. by rewrite app_nil_r.
    + destruct (IH st1 (TakeYield (taken at_)) (results ++ [x]) above t1)
        as (st' & t' & Hev & Hrest'); [simpl; lia|].
      rewrite Hrest in Hev, Hrest'.
      exists st', t'. split; [|done].
      eapply collect_loop_rule.
      * eapply (take_stage_next st st1 _
                  (Yield x (TakeGen up size (TakeYield (taken at_)))));
          [|reflexivity].
        by destruct at_.
      * simpl. by rewrite <- app_assoc in Hev.
Qed.
End TakeUpstream.

(** X17. Paging: for a positive integer [b], collecting
    [skip(a).take(b)] answers the [b] items of the source that follow
    its first [a] (fewer when the source ends before), and the [skip]
    stage is then positioned after them: collecting it answers the source
    without its first [a + b] items. *)
Theorem skip_take_page (items : list JSValue) (a b : nat) :
  0 < b ->
  exists sk tk w w' w'',
    (let* s := source items in
     let* sk := AsyncStream.skip s (number_of_nat a) in
     let* tk := AsyncStream.take sk (number_of_nat b) in
     ret (sk, tk)) empty_world = (Normal (sk, tk), w) /\
    collects tk w (Normal (firstn b (skipn a items)), w') /\
    collects sk w' (Normal (skipn (a + b) items), w'').
Proof.
  intros Hb.
  destruct (collect_take_upstream _ (skip1_objects a) 4 3 (skip1_remaining a))
    with (size := number_of_nat b) (n := b) (m := b)
         (st := (Live items, Some SkipStart))
         (at_ := TakeStart) (results := @nil JSValue) (above := @nil object)
         (t := @nil event)
    as (st' & t' & Hev & Hrest);
    [by intros [[|] ?]|apply skip1_upstream|intros; apply num_lt_nat|done|].
  destruct (collect_upstream _ (skip1_objects a) 3 (skip1_remaining a)
              (skip1_upstream a) (skipn (a + b) items) st' []
              [Generator Completed; Stream 4] t') as (st'' & t'' & Hev').
  { rewrite Hrest. unfold skip1_remaining, skip_remaining. simpl.
    by rewrite drop_drop. }
  exists 3, 5. do 3 eexists. split; [|split].
  - unfold bind. rewrite source_spec, skip_accepts.
    unfold AsyncStream.of_generator, bind. simpl.
    rewrite take_positive by done. reflexivity.
  - apply collects_intro. exact Hev.
  - apply collects_intro. exact Hev'.
Qed.

Lemma skip_take_page_witness :
  0 < 2 /\
  exists sk tk w w' w'',
    (let* s := source (map num [1; 2; 3; 4; 5]%Z) in
     let* sk := AsyncStream.skip s (number_of_nat 1) in
     let* tk := AsyncStream.take sk (number_of_nat 2) in
     ret (sk, tk)) empty_world = (Normal (sk, tk), w) /\
    collects tk w (Normal (firstn 2 (skipn 1 (map num [1; 2; 3; 4; 5]%Z))), w') /\
    collects sk w' (Normal (skipn (1 + 2) (map num [1; 2; 3; 4; 5]%Z)), w'').
Proof.
  split; [lia|].
  apply (skip_take_page (map num [1; 2; 3; 4; 5]%Z) 1 2). lia.
Defined.

(** The source stream below a stage that has completed. *)
Definition source_and_done (st : source_state) : list object :=
  source_objects st ++ [Generator Completed; Stream 2].

Lemma source_and_done_upstream (st : source_state) above t :
  exists st' t',
    run_to (upstream_world source_state source_and_done st above t) 1 Next
      (Normal (head_of (source_remaining st)),
       upstream_world source_state source_and_done st' above t') /\
    source_remaining st' = tail (source_remaining st).
Proof.
  apply (source_upstream st ([Generator Completed; Stream 2] ++ above) t).
Qed.

(** X18. Stages built one after the other on the same stream share its
    position: [take(a)] collected, then [take(b)] collected, then the
    stream itself collected, answer the first [a] items, the next [b]
    and the rest, for positive integers [a] and [b]. *)
Theorem takes_share_position (items : list JSValue) (a b : nat) :
  0 < a -> 0 < b ->
  exists s tk1 w w1 tk2 w2 w3 w4,
    (let* s := source items in
     let* tk1 := AsyncStream.take s (number_of_nat a) in
     ret (s, tk1)) empty_world = (Normal (s, tk1), w) /\
    collects tk1 w (Normal (firstn a items), w1) /\
    AsyncStream.take s (number_of_nat b) w1 = (Normal tk2, w2) /\
    collects tk2 w2 (Normal (firstn b (skipn a items)), w3) /\
    collects s w3 (Normal (skipn (a + b) items), w4).
Proof.
  intros Ha Hb.
  destruct (collect_take_upstream _ source_objects 2 1 source_remaining)
    with (size := number_of_nat a) (n := a) (m := a) (st := Live items)
         (at_ := TakeStart)
         (results := @nil JSValue) (above := @nil object) (t := @nil event)
    as (st1 & t1 & Hev1 & Hrest1);
    [by intros [|]|apply source_upstream|intros; apply num_lt_nat|done|].
  destruct (collect_take_upstream _ source_and_done 4 1 source_remaining)
    with (size := number_of_nat b) (n := b) (m := b) (st := st1)
         (at_ := TakeStart)
         (results := @nil JSValue) (above := @nil object) (t := t1)
    as (st2 & t2 & Hev2 & Hrest2);
    [by intros [|]|apply source_and_done_upstream|intros; apply num_lt_nat
    |done|].
  destruct (collect_upstream _ source_objects 1 source_remaining source_upstream
              (skipn (a + b) items) st2 []
              [Generator Completed; Stream 2; Generator Completed; Stream 4] t2)
    as (st3 & t3 & Hev3).
  { rewrite Hrest2, Hrest1. simpl. by rewrite drop_drop. }
  exists 1, 3. do 2 eexists. exists 5. do 3 eexists.
  split; [|split; [|split; [|split]]].
  - unfold bind. rewrite source_spec, take_positive by done. reflexivity.
  - apply collects_intro. exact Hev1.
  - rewrite take_positive by done. reflexivity.
  - apply collects_intro. rewrite Hrest1 in Hev2. exact Hev2.
  - apply collects_intro. exact Hev3.
Qed.

Lemma takes_share_position_witness :
  0 < 3 /\ 0 < 2 /\
  exists s tk1 w w1 tk2 w2 w3 w4,
    (let* s := source (map num [1; 2; 3; 4; 5; 6]%Z) in
     let* tk1 := AsyncStream.take s (number_of_nat 3) in
     ret (s, tk1)) empty_world = (Normal (s, tk1), w) /\
    collects tk1 w (Normal (firstn 3 (map num [1; 2; 3; 4; 5; 6]%Z)), w1) /\
    AsyncStream.take s (number_of_nat 2) w1 = (Normal tk2, w2) /\
    collects tk2 w2
      (Normal (firstn 2 (skipn 3 (map num [1; 2; 3; 4; 5; 6]%Z))), w3) /\
    collects s w3 (Normal (skipn (3 + 2) (map num [1; 2; 3; 4; 5; 6]%Z)), w4).
Proof.
  split; [lia|]. split; [lia|].
  apply (takes_share_position (map num [1; 2; 3; 4; 5; 6]%Z) 3 2); lia.
Defined.

(** The test [count < n] of [take] against a positive finite [n]: it
    holds for the counts below [n] rounded up. *)
Lemma num_lt_ceiling (count : nat) (q : Q) :
  (0 < q)%Q ->
  num_lt (number_of_nat count) (Finite q)
  = (count <? Z.to_nat (Qceiling q)).
Proof.
  intros Hq. unfold num_lt, number_of_nat.
  assert (0 < Qceiling q)%Z as Hceil.
  { pose proof (Qle_ceiling q) as Hle.
    assert (0 < inject_Z (Qceiling q))%Q as H0 by (eapply Qlt_le_trans; eauto).
    by rewrite (Zlt_Qlt 0 (Qceiling q)). }
  destruct (Qle_bool q (inject_Z (Z.of_nat count))) eqn:Hle; simpl.
  - apply Qle_bool_iff in Hle. apply Qceiling_resp_le in Hle.
    rewrite Qceiling_Z in Hle.
    symmetry. apply Nat.ltb_ge. lia.
  - symmetry. apply Nat.ltb_lt.
    destruct (Z.le_gt_cases (Qceiling q) (Z.of_nat count)) as [Hc|Hc]; [|lia].
    exfalso. assert (Qle_bool q (inject_Z (Z.of_nat count)) = true) as Habs.
    { apply Qle_bool_iff. eapply Qle_trans; [apply Qle_ceiling|].
      by rewrite <- Zle_Qle. }
    congruence.
Qed.

Lemma take_accepts_positive (self : ref) (q : Q) :
  (0 < q)%Q ->
  AsyncStream.take self (Finite q) =
    AsyncStream.of_generator (TakeGen self (Finite q) TakeStart).
Proof.
  intros Hq. unfold AsyncStream.take, num_lt, num_eq, number_of_nat.
  change (inject_Z (Z.of_nat 0)) with 0%Q.
  assert (Qle_bool 0 q = true) as ->
    by (apply Qle_bool_iff; by apply Qlt_le_weak).
  assert (Qeq_bool q 0 = false) as ->; [|done].
  destruct (Qeq_bool q 0) eqn:Heq; [|done].
  apply Qeq_bool_iff in Heq. rewrite Heq in Hq. by apply Qlt_irrefl in Hq.
Qed.

(** X19. [take] does not test that [n] is an integer: for every finite
    [n > 0], collecting [take(n)] answers the first [ceil(n)] items of
    the source (its loop runs while [count < n]), and the source stream
    is left positioned after them. *)
Theorem take_rounds_up (items : list JSValue) (q : Q) :
  (0 < q)%Q ->
  exists s tk w w' w'',
    (let* s := source items in
     let* tk := AsyncStream.take s (Finite q) in
     ret (s, tk)) empty_world = (Normal (s, tk), w) /\
    collects tk w (Normal (firstn (Z.to_nat (Qceiling q)) items), w') /\
    collects s w' (Normal (skipn (Z.to_nat (Qceiling q)) items), w'').
Proof.
  intros Hq.
  destruct (collect_take_upstream _ source_objects 2 1 source_remaining)
    with (size := Finite q) (n := Z.to_nat (Qceiling q))
         (m := Z.to_nat (Qceiling q)) (st := Live items) (at_ := TakeStart)
         (results := @nil JSValue) (above := @nil object) (t := @nil event)
    as (st1 & t1 & Hev1 & Hrest1);
    [by intros [|]|apply source_upstream
    |intros; by apply num_lt_ceiling|done|].
  destruct (collect_upstream _ source_objects 1 source_remaining source_upstream
              (skipn (Z.to_nat (Qceiling q)) items) st1 []
              [Generator Completed; Stream 2] t1)
    as (st2 & t2 & Hev2); [exact Hrest1|].
  exists 1, 3. do 3 eexists. split; [|split].
  - unfold bind. rewrite source_spec, take_accepts_positive by done.
    reflexivity.
  - apply collects_intro. exact Hev1.
  - apply collects_intro. exact Hev2.
Qed.

Lemma take_rounds_up_witness :
  (0 < 5 # 2)%Q /\
  exists s tk w w' w'',
    (let* s := source (map num [1; 2; 3; 4; 5]%Z) in
     let* tk := AsyncStream.take s (Finite (5 # 2)) in
     ret (s, tk)) empty_world = (Normal (s, tk), w) /\
    collects tk w
      (Normal (firstn (Z.to_nat (Qceiling (5 # 2))) (map num [1; 2; 3; 4; 5]%Z)),
       w') /\
    collects s w'
      (Normal (skipn (Z.to_nat (Qceiling (5 # 2))) (map num [1; 2; 3; 4; 5]%Z)),
       w'').
Proof.
  split; [reflexivity|].
  apply (take_rounds_up (map num [1; 2; 3; 4; 5]%Z) (5 # 2)). reflexivity.
Defined.

(** X20. [NaN] fails each of the three tests of [take] ([n < 0],
    [n === 0], [count < n]): [take(NaN)] is not rejected and does not
    return the stream itself, it builds a stage that ends at its first
    pull, and the source stream is left whole. *)
Theorem take_NaN_is_empty (items : list JSValue) :
  exists s tk w w' w'',
    (let* s := source items in
     let* tk := AsyncStream.take s NaN in
     ret (s, tk)) empty_world = (Normal (s, tk), w) /\
    tk <> s /\
    collects tk w (Normal [], w') /\
    collects s w' (Normal items, w'').
Proof.
  destruct (collect_take_upstream _ source_objects 2 1 source_remaining)
    with (size := NaN) (n := 0) (m := 0) (st := Live items) (at_ := TakeStart)
         (results := @nil JSValue) (above := @nil object) (t := @nil event)
    as (st1 & t1 & Hev1 & Hrest1);
    [by intros [|]|apply source_upstream|done|done|].
  destruct (collect_upstream _ source_objects 1 source_remaining source_upstream
              items st1 [] [Generator Completed; Stream 2] t1)
    as (st2 & t2 & Hev2); [exact Hrest1|].
  exists 1, 3. do 3 eexists. split; [|split; [|split]].
  - reflexivity.
  - done.
  - apply collects_intro. exact Hev1.
  - apply collects_intro. exact Hev2.
Qed.

(** ** [repack] with a size between [0] and [1] *)

Section RepackBelowOne.
Variable q : Q.
Hypothesis q_pos : (0 < q)%Q.
Hypothesis q_small : (q < 1)%Q.

Let size := Finite q.

Lemma repack_accepts_below_one (self : ref) :
  AsyncStream.repack self size =
    AsyncStream.of_generator (RepackGen self size RepackStart []).
Proof.
  unfold AsyncStream.repack, size, num_le, number_of_nat.
  change (inject_Z (Z.of_nat 0)) with 0%Q.
  destruct (Qle_bool q 0) eqn:Hle; [|done].
  apply Qle_bool_iff in Hle. exfalso.
  apply (Qlt_irrefl 0). by eapply Qlt_le_trans.
Qed.

(** [buffer.length >= packageSize] holds as soon as the buffer is not
    empty. *)
Lemma below_one_le (len : nat) :
  0 < len -> num_le size (number_of_nat len) = true.
Proof.
  intros Hlen. unfold size, num_le, number_of_nat.
  apply Qle_bool_iff. apply Qlt_le_weak. eapply Qlt_le_trans; [exact q_small|].
  change 1%Q with (inject_Z 1). rewrite <- Zle_Qle. lia.
Qed.

(** [slice(0, packageSize)] is empty and [slice(packageSize)] is the whole
    buffer. *)
Lemma below_one_slice (len : nat) : slice_index size len = 0.
Proof.
  unfold size, slice_index, Qtrunc.
  assert (Qle_bool 0 q = true) as ->
    by (apply Qle_bool_iff; by apply Qlt_le_weak).
  assert (Qfloor q = 0%Z) as ->; [|simpl; lia].
  pose proof (Qfloor_le q) as Hlow. pose proof (Qlt_floor q) as Hhigh.
  assert (inject_Z (Qfloor q) < inject_Z 1)%Q as H1
    by (eapply Qle_lt_trans; [exact Hlow|exact q_small]).
  assert (inject_Z 0 < inject_Z (Qfloor q + 1))%Q as H2
    by (eapply Qlt_trans; [exact q_pos|exact Hhigh]).
  rewrite <- Zlt_Qlt in H1, H2. lia.
Qed.

(** The stage parked at its [yield] with a buffer that is not empty, and
    the source below it. *)
Definition stuck (x : JSValue) (buffer R : list JSValue) (t : list event)
  : world :=
  staged (SourceGen R) (RepackGen 1 size RepackYieldFull (x :: buffer)) [] t.

Lemma stuck_next (x : JSValue) (buffer R : list JSValue) (t : list event)
    (fuel : nat) :
  run fuel (stuck x buffer R t) 3 Next
  = if fuel <? 2 then None
    else Some (Normal (yielded (VArray [])), stuck x buffer R (Pull 3 :: t)).
Proof.
  destruct fuel as [|[|fuel]]; [done..|].
  change (S (S fuel) <? 2) with false. simpl.
  unfold repack_while. rewrite below_one_slice. simpl.
  rewrite below_one_le by (simpl; lia).
  by rewrite below_one_slice.
Qed.

Lemma first_next (x : JSValue) (page R : list JSValue) (fuel : nat) :
  run fuel
    (staged (SourceGen (VArray (x :: page) :: R))
       (RepackGen 1 size RepackStart []) [] []) 3 Next
  = if fuel <? 4 then None
    else Some (Normal (yielded (VArray [])), stuck x page R [Pull 1; Pull 3]).
Proof.
  destruct fuel as [|[|[|[|fuel]]]]; [done..|].
  change (S (S (S (S fuel))) <? 4) with false. simpl.
  unfold repack_while. rewrite below_one_le by (simpl; lia).
  by rewrite below_one_slice.
Qed.

Lemma stuck_pulls (x : JSValue) (buffer R : list JSValue) (count : nat) :
  forall t fuel,
    2 <= fuel ->
    pulls fuel count 3 (stuck x buffer R t)
    = Some (replicate count (Normal (yielded (VArray []))),
            stuck x buffer R (replicate count (Pull 3) ++ t)).
Proof.
  induction count as [|count IH]; intros t fuel Hfuel; [done|].
  simpl. unfold AsyncStream.next. rewrite stuck_next.
  destruct (Nat.ltb_spec fuel 2); [lia|].
  rewrite IH by done.
  replace (replicate count (Pull 3) ++ Pull 3 :: t)
    with (Pull 3 :: replicate count (Pull 3) ++ t); [done|].
  change (Pull 3 :: replicate count (Pull 3) ++ t)
    with (replicate (S count) (Pull 3) ++ t).
  rewrite replicate_S_end, <- app_assoc. done.
Qed.

Lemma stuck_collect (x : JSValue) (buffer R : list JSValue) (fuel k : nat) :
  forall results t,
    AsyncStream.collect_loop (run fuel) k 3 results (stuck x buffer R t) = None.
Proof.
  induction k as [|k IH]; intros results t; [done|].
  simpl. rewrite stuck_next. destruct (fuel <? 2); [done|]. simpl. apply IH.
Qed.

Lemma pulls_on_replicate_other (count : nat) t :
  pulls_on 1 (replicate count (Pull 3) ++ t) = pulls_on 1 t.
Proof.
  induction count as [|count IH]; [done|].
  simpl. by rewrite pulls_on_Pull_other.
Qed.
End RepackBelowOne.

(** X21. [repack] rejects only sizes [<= 0]: with a size between [0] and
    [1], once a group that is not empty has come in, the test
    [buffer.length >= packageSize] holds forever while [slice] removes
    nothing.  Every pull on the stage is answered with an empty array,
    the source is pulled once however many pulls are made, and
    [collect()] on the stage settles for no amount of fuel. *)
Theorem repack_below_one_never_ends (q : Q) (x : JSValue)
    (page R : list JSValue) :
  (0 < q)%Q -> (q < 1)%Q ->
  exists s p w,
    (let* s := source (VArray (x :: page) :: R) in
     let* p := AsyncStream.repack s (Finite q) in
     ret (s, p)) empty_world = (Normal (s, p), w) /\
    (forall count, 0 < count ->
       exists w',
         pulled count p w (replicate count (Normal (yielded (VArray []))), w') /\
         pulls_on s (trace w') = 1) /\
    (forall fuel, AsyncStream.collect fuel p w = None).
Proof.
  intros Hpos Hsmall. exists 1, 3. eexists. split; [|split].
  - unfold bind. rewrite source_spec, repack_accepts_below_one by done.
    reflexivity.
  - intros [|count] Hcount; [lia|].
    eexists. split.
    + exists 4. intros fuel Hfuel. simpl. unfold AsyncStream.next.
      change (run fuel _ 3 Next)
        with (run fuel
                (staged (SourceGen (VArray (x :: page) :: R))
                   (RepackGen 1 (Finite q) RepackStart []) [] []) 3 Next).
      rewrite first_next by done.
      destruct (Nat.ltb_spec fuel 4); [lia|].
      rewrite (stuck_pulls q Hpos Hsmall) by lia. reflexivity.
    + simpl. rewrite pulls_on_replicate_other. reflexivity.
  - intros fuel. unfold AsyncStream.collect.
    generalize fuel at 2. intros [|k]; [done|].
    simpl.
    change (run fuel _ 3 Next)
      with (run fuel
              (staged (SourceGen (VArray (x :: page) :: R))
                 (RepackGen 1 (Finite q) RepackStart []) [] []) 3 Next).
    rewrite first_next by done.
    destruct (fuel <? 4); [done|].
    simpl. apply stuck_collect; done.
Qed.

Lemma repack_below_one_never_ends_witness :
  (0 < 1 # 2)%Q /\ (1 # 2 < 1)%Q /\
  exists s p w,
    (let* s := source (VArray (num 1 :: [num 2]) :: [VArray [num 3]]) in
     let* p := AsyncStream.repack s (Finite (1 # 2)) in
     ret (s, p)) empty_world = (Normal (s, p), w) /\
    (forall count, 0 < count ->
       exists w',
         pulled count p w (replicate count (Normal (yielded (VArray []))), w') /\
         pulls_on s (trace w') = 1) /\
    (forall fuel, AsyncStream.collect fuel p w = None).
Proof.
  split; [reflexivity|]. split; [reflexivity|].
  apply (repack_below_one_never_ends (1 # 2) (num 1) [num 2] [VArray [num 3]]);
    reflexivity.
Defined.
